(** * AutoLink: a shallow embedding of [src/main.ts]

    The plugin watches text entry in an editor and turns completed words
    into [[wiki links]].  This development embeds the matching and decision
    engine of [AutoLinkPlugin] (title index, link detector, match resolver,
    edit applier, undo ledger) and proves properties of it.

    Modelling conventions.
    - A JavaScript string is a [list ascii]; a character is an [ascii].
      Only the ASCII reading of the character classes is modelled: code
      units above 127 are neither word characters nor white space, and
      [toLowerCase] leaves them alone.
    - A JavaScript number holding an index or a time is a [Z].
    - A [Map] is an association list in insertion order; [set] on a key
      that is present keeps the position of that key.
    - The host editor is a store of lines with a cursor.
    - Every call that acts on the editor or on the undo stack also appends
      an event to a log, so that the order of effects can be stated.
    - [Date.now()] is an argument of the operation that reads it.  The
      debounce of the change handler, the placement of the popup and a
      failure to mount it are not modelled. *)

From Stdlib Require Import Ascii String List ZArith Bool Lia Arith.
Import ListNotations.

Open Scope Z_scope.

(** ** JavaScript strings *)

Module JS.

Definition jsstring := list ascii.

Definition str (s : string) : jsstring := list_ascii_of_string s.

Definition code (c : ascii) : Z := Z.of_nat (nat_of_ascii c).

Definition len (s : jsstring) : Z := Z.of_nat (length s).

Fixpoint streq (a b : jsstring) : bool :=
  match a, b with
  | [], [] => true
  | x :: a', y :: b' => Ascii.eqb x y && streq a' b'
  | _, _ => false
  end.

(** [String.prototype.startsWith]. *)
Fixpoint startsWith (s key : jsstring) : bool :=
  match key, s with
  | [], _ => true
  | k :: key', c :: s' => Ascii.eqb c k && startsWith s' key'
  | _ :: _, [] => false
  end.

(** Relative index of [slice]: a negative index counts from the end. *)
Definition relIndex (n i : Z) : Z :=
  if i <? 0 then Z.max (n + i) 0 else Z.min i n.

(** [s.slice(b, e)], of a string or of an array. *)
Definition slice {A : Type} (s : list A) (b e : Z) : list A :=
  let n := Z.of_nat (length s) in
  let from := relIndex n b in
  let to := relIndex n e in
  firstn (Z.to_nat (to - from)) (skipn (Z.to_nat from) s).

(** [s.slice(b)]. *)
Definition sliceFrom {A : Type} (s : list A) (b : Z) : list A :=
  slice s b (Z.of_nat (length s)).

(** [s[i]]: [None] stands for [undefined]. *)
Definition charAt (s : jsstring) (i : Z) : option ascii :=
  if i <? 0 then None else nth_error s (Z.to_nat i).

(** [a[i]] for an array: [None] stands for [undefined]. *)
Definition itemAt {A : Type} (l : list A) (i : Z) : option A :=
  if i <? 0 then None else nth_error l (Z.to_nat i).

(** [\s] and the characters removed by [trim]. *)
Definition isSpace (c : ascii) : bool :=
  let n := code c in
  (n =? 32) || ((9 <=? n) && (n <=? 13)).

(** [\w]. *)
Definition isWordChar (c : ascii) : bool :=
  let n := code c in
  ((48 <=? n) && (n <=? 57)) || ((65 <=? n) && (n <=? 90))
  || ((97 <=? n) && (n <=? 122)) || (n =? 95).

Definition isUpper (c : ascii) : bool :=
  let n := code c in (65 <=? n) && (n <=? 90).

Definition lowerChar (c : ascii) : ascii :=
  if isUpper c then ascii_of_nat (nat_of_ascii c + 32) else c.

(** [s.toLowerCase()]. *)
Definition toLowerCase (s : jsstring) : jsstring := map lowerChar s.

Fixpoint trimStart (s : jsstring) : jsstring :=
  match s with
  | c :: s' => if isSpace c then trimStart s' else s
  | [] => []
  end.

Definition trimEnd (s : jsstring) : jsstring := rev (trimStart (rev s)).

(** [s.trim()]. *)
Definition trim (s : jsstring) : jsstring := trimEnd (trimStart s).

(** Index of the first occurrence of [pat] in [s] at or after offset [i]. *)
Fixpoint indexFrom (pat s : jsstring) (i : Z) : option Z :=
  if startsWith s pat then Some i
  else match s with
       | [] => None
       | _ :: s' => indexFrom pat s' (i + 1)
       end.

(** [s.includes(pat)]. *)
Definition includes (s pat : jsstring) : bool :=
  match indexFrom pat s 0 with Some _ => true | None => false end.

(** Index of the last occurrence of [pat] in [s], scanning from offset [i]. *)
Fixpoint lastIndexFrom (pat s : jsstring) (i : Z) : option Z :=
  let here := if startsWith s pat then Some i else None in
  match s with
  | [] => here
  | _ :: s' =>
      match lastIndexFrom pat s' (i + 1) with
      | Some j => Some j
      | None => here
      end
  end.

(** [s.lastIndexOf(pat)], with [-1] when there is none. *)
Definition lastIndexOf (s pat : jsstring) : Z :=
  match lastIndexFrom pat s 0 with Some j => j | None => -1 end.

(** [s.endsWith(pat)], used for a pattern anchored by [$]. *)
Definition endsWith (s pat : jsstring) : bool :=
  startsWith (rev s) (rev pat).

(** The longest suffix of [s] whose characters all satisfy [p]: what
    [s.match(/[class]+$/)] yields, [None] when that suffix is empty. *)
Fixpoint takeWhile (p : ascii -> bool) (s : jsstring) : jsstring :=
  match s with
  | c :: s' => if p c then c :: takeWhile p s' else []
  | [] => []
  end.

Definition matchSuffix (p : ascii -> bool) (s : jsstring) : option jsstring :=
  match rev (takeWhile p (rev s)) with
  | [] => None
  | m => Some m
  end.

End JS.

Import JS.

(** ** Data model *)

Inductive Mode := autonomous | semiAutonomous | suggestions | custom.

Record AutoLinkSettings := {
  mode : Mode;
  minWordLength : Z;
  caseSensitive : bool;
  includeAliases : bool;
  customFolders : list jsstring;
  debounceMs : Z;
  maxSuggestions : Z;
  customAllowEnterAccept : bool;
  customAutoInsertSingleMatch : bool
}.

Definition DEFAULT_SETTINGS : AutoLinkSettings := {|
  mode := autonomous;
  minWordLength := 3;
  caseSensitive := false;
  includeAliases := true;
  customFolders := [];
  debounceMs := 300;
  maxSuggestions := 10;
  customAllowEnterAccept := true;
  customAutoInsertSingleMatch := true
|}.

(** A file of the vault.  [parent] is the path of the folder that holds it.
    Two file objects are the same object ([===]) when their fields agree. *)
Record TFile := {
  path : jsstring;
  basename : jsstring;
  parent : jsstring
}.

Definition file_eqb (f g : TFile) : bool :=
  streq (path f) (path g) && streq (basename f) (basename g)
  && streq (parent f) (parent g).

(** The [aliases] entry of a file's front matter, as the metadata cache
    returns it: absent, one value, or an array of values; a value is a
    string or something else. *)
Inductive FmValue := FmString (s : jsstring) | FmOther.

Inductive FmAliases :=
| FmAbsent
| FmSingle (v : FmValue)
| FmArray (l : list FmValue).

(** The host application: the Markdown files of the vault, the active file
    and the metadata cache. *)
Record App := {
  markdownFiles : list TFile;
  activeFile : option TFile;
  frontmatterAliases : TFile -> FmAliases
}.

Record Match := {
  title : jsstring;
  file : TFile;
  isAlias : bool
}.

Record Pos := { line : nat; ch : Z }.

(** An entry of [undoStack]; its fields [line] and [cursor] are [u_line]
    and [u_cursor] here. *)
Record UndoRecord := {
  u_line : nat;
  original : jsstring;
  u_cursor : Pos;
  timestamp : option Z;
  linkText : option jsstring
}.

(** The editor of the active view: [getLine], [setLine], [getCursor] and
    [setCursor] act on a store of lines and a cursor. *)
Record Editor := {
  lines : nat -> jsstring;
  cursor : Pos
}.

Definition getLine (e : Editor) (n : nat) : jsstring := lines e n.

Definition editor_setLine (e : Editor) (n : nat) (s : jsstring) : Editor :=
  {| lines := fun m => if Nat.eqb m n then s else lines e m;
     cursor := cursor e |}.

Definition editor_setCursor (e : Editor) (p : Pos) : Editor :=
  {| lines := lines e; cursor := p |}.

(** The suggestion popup, when one is mounted. *)
Record Popup := {
  p_matches : list Match;
  p_typed : jsstring;
  p_allowEnterAccept : bool
}.

(** Effects, in the order in which the plugin performs them. *)
Inductive Event :=
| EvPush (r : UndoRecord)
| EvShift
| EvPop
| EvSetLine (n : nat) (s : jsstring)
| EvSetCursor (p : Pos)
| EvPreventDefault
| EvNotice.

(** A [Map] from strings, in insertion order. *)
Definition JsMap (V : Type) := list (jsstring * V).

Fixpoint mapSet {V : Type} (m : JsMap V) (k : jsstring) (v : V) : JsMap V :=
  match m with
  | [] => [(k, v)]
  | (k', v') :: m' =>
      if streq k' k then (k', v) :: m' else (k', v') :: mapSet m' k v
  end.

Fixpoint mapGet {V : Type} (m : JsMap V) (k : jsstring) : option V :=
  match m with
  | [] => None
  | (k', v') :: m' => if streq k' k then Some v' else mapGet m' k
  end.

Definition mapHas {V : Type} (m : JsMap V) (k : jsstring) : bool :=
  match mapGet m k with Some _ => true | None => false end.

(** The fields of [AutoLinkPlugin], with the editor and the log. *)
Record State := {
  settings : AutoLinkSettings;
  app : App;
  noteTitles : JsMap TFile;
  aliases : JsMap TFile;
  popup : option Popup;
  undoStack : list UndoRecord;
  pendingMatches : JsMap (list Match);
  isAutoLinkDisabled : bool;
  editor : Editor;
  log : list Event
}.

Definition with_index (st : State) (t a : JsMap TFile) : State :=
  {| settings := settings st; app := app st; noteTitles := t; aliases := a;
     popup := popup st; undoStack := undoStack st;
     pendingMatches := pendingMatches st;
     isAutoLinkDisabled := isAutoLinkDisabled st;
     editor := editor st; log := log st |}.

Definition with_popup (st : State) (p : option Popup) : State :=
  {| settings := settings st; app := app st; noteTitles := noteTitles st;
     aliases := aliases st; popup := p; undoStack := undoStack st;
     pendingMatches := pendingMatches st;
     isAutoLinkDisabled := isAutoLinkDisabled st;
     editor := editor st; log := log st |}.

Definition with_undo (st : State) (u : list UndoRecord) (ev : Event) : State :=
  {| settings := settings st; app := app st; noteTitles := noteTitles st;
     aliases := aliases st; popup := popup st; undoStack := u;
     pendingMatches := pendingMatches st;
     isAutoLinkDisabled := isAutoLinkDisabled st;
     editor := editor st; log := log st ++ [ev] |}.

Definition with_pending (st : State) (p : JsMap (list Match)) : State :=
  {| settings := settings st; app := app st; noteTitles := noteTitles st;
     aliases := aliases st; popup := popup st; undoStack := undoStack st;
     pendingMatches := p;
     isAutoLinkDisabled := isAutoLinkDisabled st;
     editor := editor st; log := log st |}.

Definition with_disabled (st : State) (b : bool) : State :=
  {| settings := settings st; app := app st; noteTitles := noteTitles st;
     aliases := aliases st; popup := popup st; undoStack := undoStack st;
     pendingMatches := pendingMatches st;
     isAutoLinkDisabled := b;
     editor := editor st; log := log st |}.

Definition with_editor (st : State) (e : Editor) (ev : Event) : State :=
  {| settings := settings st; app := app st; noteTitles := noteTitles st;
     aliases := aliases st; popup := popup st; undoStack := undoStack st;
     pendingMatches := pendingMatches st;
     isAutoLinkDisabled := isAutoLinkDisabled st;
     editor := e; log := log st ++ [ev] |}.

Definition emit (st : State) (ev : Event) : State :=
  with_editor st (editor st) ev.

(** The plugin as its field initialisers leave it. *)
Definition initial (s : AutoLinkSettings) (a : App) (e : Editor) : State :=
  {| settings := s; app := a; noteTitles := []; aliases := [];
     popup := None; undoStack := []; pendingMatches := [];
     isAutoLinkDisabled := false; editor := e; log := [] |}.

(** *** Primitive effects *)

Definition setLine (st : State) (n : nat) (s : jsstring) : State :=
  with_editor st (editor_setLine (editor st) n s) (EvSetLine n s).

Definition setCursor (st : State) (p : Pos) : State :=
  with_editor st (editor_setCursor (editor st) p) (EvSetCursor p).

(** [this.undoStack.push(r)]. *)
Definition pushUndo (st : State) (r : UndoRecord) : State :=
  with_undo st (undoStack st ++ [r]) (EvPush r).

(** [this.undoStack.shift()]. *)
Definition shiftUndo (st : State) : State :=
  with_undo st (tl (undoStack st)) EvShift.

(** [if (this.undoStack.length > 10) this.undoStack.shift()]. *)
Definition keepLast10 (st : State) : State :=
  if Z.of_nat (length (undoStack st)) >? 10 then shiftUndo st else st.

Definition closePopup (st : State) : State := with_popup st None.

(** ** Title index *)

(** Keys are folded to lower case unless matching is case sensitive. *)
Definition normalize (s : AutoLinkSettings) (k : jsstring) : jsstring :=
  if caseSensitive s then k else toLowerCase k.

Definition getRelevantFiles (st : State) : list TFile :=
  let allFiles := markdownFiles (app st) in
  match mode (settings st) with
  | semiAutonomous =>
      match activeFile (app st) with
      | None => allFiles
      | Some activeFile =>
          filter (fun f => streq (parent f) (parent activeFile)) allFiles
      end
  | custom =>
      match customFolders (settings st) with
      | [] => allFiles
      | folders =>
          filter (fun f =>
            existsb (fun folder =>
              startsWith (path f)
                (if streq folder (str "/") then [] else folder ++ str "/"))
              folders) allFiles
      end
  | _ => allFiles
  end.

(** The values that [aliases.forEach] visits: a falsy front-matter entry
    is skipped, a single value is wrapped in an array. *)
Definition aliasValues (a : FmAliases) : list FmValue :=
  match a with
  | FmAbsent => []
  | FmSingle (FmString []) => []
  | FmSingle v => [v]
  | FmArray l => l
  end.

Fixpoint addAliases (s : AutoLinkSettings) (f : TFile) (vs : list FmValue)
    (m : JsMap TFile) : JsMap TFile :=
  match vs with
  | [] => m
  | FmString alias :: vs' =>
      match trim alias with
      | [] => addAliases s f vs' m
      | _ => addAliases s f vs' (mapSet m (normalize s alias) f)
      end
  | FmOther :: vs' => addAliases s f vs' m
  end.

Fixpoint indexFiles (s : AutoLinkSettings) (a : App) (files : list TFile)
    (t al : JsMap TFile) : JsMap TFile * JsMap TFile :=
  match files with
  | [] => (t, al)
  | f :: files' =>
      let t' := mapSet t (normalize s (basename f)) f in
      let al' :=
        if includeAliases s
        then addAliases s f (aliasValues (frontmatterAliases a f)) al
        else al in
      indexFiles s a files' t' al'
  end.

Definition updateNoteList (st : State) : State :=
  let '(t, al) :=
    indexFiles (settings st) (app st) (getRelevantFiles st) [] [] in
  with_index st t al.

(** ** Link detector *)

(** Number of matches of a global regular expression for the character [c]
    twice: matches are found from the left and do not overlap. *)
Fixpoint countPairs (c : ascii) (s : jsstring) : Z :=
  match s with
  | a :: ((b :: t) as r) =>
      if Ascii.eqb a c && Ascii.eqb b c then 1 + countPairs c t
      else countPairs c r
  | _ => 0
  end.

Definition isInsideLink (line : jsstring) (ch : Z) : bool :=
  let beforeCursor := slice line 0 ch in
  let afterCursor := sliceFrom line ch in
  let openBrackets := countPairs "["%char beforeCursor in
  let closeBrackets := countPairs "]"%char beforeCursor in
  if openBrackets >? closeBrackets then true
  else
    let lastOpenBracket := lastIndexOf beforeCursor (str "[") in
    let lastCloseBracket := lastIndexOf beforeCursor (str "]") in
    if (lastOpenBracket >? lastCloseBracket) && includes afterCursor (str "](")
    then true
    else false.

(** ** Match resolver *)

Fixpoint searchTitles (entries : JsMap TFile) (searchKey current : jsstring)
    (matches : list Match) : list Match :=
  match entries with
  | [] => matches
  | (key, f) :: rest =>
      searchTitles rest searchKey current
        (if negb (streq key current) && startsWith key searchKey
         then matches ++ [{| title := basename f; file := f;
                             isAlias := false |}]
         else matches)
  end.

Fixpoint searchAliases (entries : JsMap TFile)
    (searchKey currentBasename : jsstring)
    (matches : list Match) : list Match :=
  match entries with
  | [] => matches
  | (alias, f) :: rest =>
      searchAliases rest searchKey currentBasename
        (if negb (streq (basename f) currentBasename)
            && startsWith alias searchKey
         then
           if existsb (fun m => file_eqb (file m) f) matches
           then matches
           else matches ++ [{| title := alias; file := f;
                               isAlias := true |}]
         else matches)
  end.

Definition findMatches (st : State) (typed currentBasename : jsstring)
    : list Match :=
  let searchKey := normalize (settings st) typed in
  let matches :=
    searchTitles (noteTitles st) searchKey
      (normalize (settings st) currentBasename) [] in
  let matches :=
    searchAliases (aliases st) searchKey currentBasename matches in
  slice matches 0 (maxSuggestions (settings st)).

(** ** Edit applier *)

(** The link text for a match: the target, and the alias as a label. *)
Definition makeLink (m : Match) : jsstring :=
  str "[[" ++ basename (file m)
  ++ (if isAlias m then str "|" ++ title m else []) ++ str "]]".

Definition recordFor (c : Pos) (ln : jsstring) (now : Z) (m : Match)
    : UndoRecord :=
  {| u_line := line c;
     original := ln;
     u_cursor := {| line := line c; ch := ch c |};
     timestamp := Some now;
     linkText := Some (basename (file m)) |}.

Definition insertLinkForCompletedWord (st : State) (now : Z)
    (completedWord : jsstring) (m : Match) (delimiterPos : Z) : State :=
  let cur := cursor (editor st) in
  let ln := getLine (editor st) (line cur) in
  let st := pushUndo st (recordFor cur ln now m) in
  let link := makeLink m in
  let beforeDelimiter := slice ln 0 delimiterPos in
  let wordStart := Z.max 0 (len beforeDelimiter - len completedWord) in
  let newLine := slice ln 0 wordStart ++ link ++ sliceFrom ln delimiterPos in
  let st := setLine st (line cur) newLine in
  let newCursorPos := wordStart + len link + 1 in
  let st := setCursor st {| line := line cur;
                            ch := Z.min (len newLine) newCursorPos |} in
  keepLast10 st.

(** The replacement text of [String.prototype.replace] for a pattern
    without groups: [$$], [$&], [$`] and [$'] are expanded. *)
Fixpoint expandReplacement (matched before after repl : jsstring)
    : jsstring :=
  match repl with
  | a :: ((b :: t) as r) =>
      if Ascii.eqb a "$"%char then
        if Ascii.eqb b "$"%char
        then "$"%char :: expandReplacement matched before after t
        else if Ascii.eqb b "&"%char
        then matched ++ expandReplacement matched before after t
        else if Ascii.eqb b "`"%char
        then before ++ expandReplacement matched before after t
        else if Ascii.eqb b "'"%char
        then after ++ expandReplacement matched before after t
        else a :: expandReplacement matched before after r
      else a :: expandReplacement matched before after r
  | _ => repl
  end.

(** [ln.replace(new RegExp(escapeRegex(typed) + "$"), link)]: the escaped
    pattern matches [typed] literally, at the end of the line only. *)
Definition replaceAtEnd (ln typed link : jsstring) : jsstring :=
  if endsWith ln typed then
    let before := slice ln 0 (len ln - len typed) in
    before ++ expandReplacement typed before [] link
  else ln.

Definition handleAutonomousMode (st : State) (now : Z) (typed : jsstring)
    (matches : list Match) (cur : Pos) : State :=
  let st :=
    match matches with
    | [m] =>
        let ln := getLine (editor st) (line cur) in
        let st := pushUndo st (recordFor cur ln now m) in
        let link := makeLink m in
        let newLine := replaceAtEnd ln typed link in
        let st := setLine st (line cur) newLine in
        let st := setCursor st {| line := line cur;
                                  ch := ch cur - len typed + len link |} in
        keepLast10 st
    | _ => st
    end in
  closePopup st.

Definition allowEnterAccept (s : AutoLinkSettings) : bool :=
  match mode s with
  | suggestions => true
  | custom => customAllowEnterAccept s
  | _ => false
  end.

(** Mounting the popup is taken to succeed. *)
Definition showSuggestionPopup (st : State) (matches : list Match)
    (typed : jsstring) : State :=
  let st := closePopup st in
  with_popup st (Some {| p_matches := matches; p_typed := typed;
                         p_allowEnterAccept := allowEnterAccept (settings st) |}).

Definition handleSuggestionsMode (st : State) (matches : list Match)
    (typed : jsstring) : State :=
  match matches with
  | [] => closePopup st
  | _ => showSuggestionPopup st matches typed
  end.

Definition acceptSuggestion (st : State) (now : Z) (m : Match)
    (typed : jsstring) : State :=
  let cur := cursor (editor st) in
  let ln := getLine (editor st) (line cur) in
  let st := pushUndo st (recordFor cur ln now m) in
  let link := makeLink m in
  let beforeCursor := slice ln 0 (ch cur) in
  let typedStartIndex := lastIndexOf beforeCursor typed in
  let st :=
    if typedStartIndex =? -1 then
      let newLine := replaceAtEnd ln typed link in
      let st := setLine st (line cur) newLine in
      setCursor st {| line := line cur;
                      ch := Z.min (len newLine)
                              (ch cur - len typed + len link) |}
    else
      let newLine := slice ln 0 typedStartIndex ++ link
                     ++ sliceFrom ln (typedStartIndex + len typed) in
      let st := setLine st (line cur) newLine in
      let newCursorPos := typedStartIndex + len link in
      setCursor st {| line := line cur;
                      ch := Z.min (len newLine) newCursorPos |} in
  let st := closePopup st in
  keepLast10 st.

(** ** Undo *)

(** The flag is cleared again by a timer, one second later. *)
Definition temporarilyDisableAutoLink (st : State) : State :=
  with_disabled st true.

Definition reenableAutoLink (st : State) : State :=
  with_disabled st false.

Definition undoLastAutolink (st : State) : State :=
  match rev (undoStack st) with
  | [] => st
  | lastAction :: earlier =>
      let st := with_undo st (rev earlier) EvPop in
      let st := setLine st (u_line lastAction) (original lastAction) in
      let st := setCursor st (u_cursor lastAction) in
      emit st EvNotice
  end.

(** The command [undo-autolink]. *)
Definition undoCommand (st : State) : State :=
  if Z.of_nat (length (undoStack st)) >? 0
  then undoLastAutolink (temporarilyDisableAutoLink st)
  else st.

(** ** Disambiguation: the handler of editor changes *)

Record View := { v_file : option TFile }.

(** The class [[\w\s\-_]] of the fragment before the cursor. *)
Definition isFragmentChar (c : ascii) : bool :=
  isWordChar c || isSpace c || Ascii.eqb c "-"%char || Ascii.eqb c "_"%char.

(** The class of characters that complete a word: white space, the
    punctuation below and the double quote (code 34). *)
Definition isDelimiter (c : ascii) : bool :=
  isSpace c
  || existsb (Ascii.eqb c) (str ".,!?;:()[]{}|\/<>@#$%^&*+=~`'-")
  || (code c =? 34).

Definition wasWaiting (st : State) (completedWord : jsstring) : bool :=
  mapHas (pendingMatches st) completedWord
  && match mapGet (pendingMatches st) completedWord with
     | Some l => Z.of_nat (length l) >? 1
     | None => false
     end.

(** The condition [wasWaiting || completedMatches.length === 1]. *)
Definition completionGuard (st : State) (completedWord : jsstring)
    (completedMatches : list Match) : bool :=
  wasWaiting st completedWord || (Z.of_nat (length completedMatches) =? 1).

(** The word-completion branch; [None] when control falls through to the
    dispatch on the mode.  [guard] is the innermost condition. *)
Definition tryCompleteWord
    (guard : State -> jsstring -> list Match -> bool)
    (st : State) (now : Z) (ln : jsstring) (cur : Pos)
    (currentBasename : jsstring) : option State :=
  let beforeDelimiter := slice ln 0 (ch cur - 1) in
  match matchSuffix isFragmentChar beforeDelimiter with
  | None => None
  | Some wordMatch =>
      let completedWord := trim wordMatch in
      let completedMatches := findMatches st completedWord currentBasename in
      match completedMatches with
      | [m] =>
          if guard st completedWord completedMatches then
            let st := insertLinkForCompletedWord st now completedWord m
                        (ch cur - 1) in
            Some (with_pending st [])
          else None
      | _ => None
      end
  end.

Definition dispatchMode (st : State) (now : Z) (matches : list Match)
    (typed : jsstring) (cur : Pos) : State :=
  match mode (settings st) with
  | autonomous | semiAutonomous => closePopup st
  | suggestions => handleSuggestionsMode st matches typed
  | custom =>
      if (Z.of_nat (length matches) =? 1)
         && customAutoInsertSingleMatch (settings st)
      then handleAutonomousMode st now typed matches cur
      else if Z.of_nat (length matches) >? 0
      then handleSuggestionsMode st matches typed
      else closePopup st
  end.

Definition isAutoMode (m : Mode) : bool :=
  match m with
  | autonomous | semiAutonomous => true
  | _ => false
  end.

Definition handleEditorChangeWith
    (guard : State -> jsstring -> list Match -> bool)
    (st : State) (now : Z) (view : option View) : State :=
  match view with
  | None => st
  | Some view =>
      if isAutoLinkDisabled st then st
      else
        let cur := cursor (editor st) in
        let ln := getLine (editor st) (line cur) in
        if isInsideLink ln (ch cur) then st
        else
          let beforeCursor := slice ln 0 (ch cur) in
          match matchSuffix isFragmentChar beforeCursor with
          | None => with_pending (closePopup st) []
          | Some m =>
              let typed := trim m in
              if len typed <? minWordLength (settings st)
              then with_pending (closePopup st) []
              else
                let currentBasename :=
                  match v_file view with
                  | Some f => basename f
                  | None => []
                  end in
                let matches := findMatches st typed currentBasename in
                let st :=
                  with_pending st (mapSet (pendingMatches st) typed matches) in
                let justTypedChar :=
                  if ch cur >? 0 then charAt ln (ch cur - 1) else None in
                let isWordCompleting :=
                  match justTypedChar with
                  | Some c => isDelimiter c
                  | None => false
                  end in
                match
                  (if isAutoMode (mode (settings st)) && isWordCompleting
                   then tryCompleteWord guard st now ln cur currentBasename
                   else None)
                with
                | Some st' => st'
                | None => dispatchMode st now matches typed cur
                end
          end
  end.

(** The handler as the source has it. *)
Definition handleEditorChange : State -> Z -> option View -> State :=
  handleEditorChangeWith completionGuard.

(** The handler that auto-links on exactly one candidate at word
    completion and has no check of an earlier ambiguity. *)
Definition handleEditorChange_single_candidate
    : State -> Z -> option View -> State :=
  handleEditorChangeWith (fun _ _ _ => true).

(** ** Implicit undo: the handler of key presses *)

Inductive Key := Backspace | Delete | OtherKey.

Record LinkMatch := {
  index : Z;
  matched : jsstring;
  baseText : jsstring
}.

Definition notBarOrClose (c : ascii) : bool :=
  negb (Ascii.eqb c "|"%char || Ascii.eqb c "]"%char).

Definition notClose (c : ascii) : bool := negb (Ascii.eqb c "]"%char).

(** A match of [\[\[([^|\]]+)(?:\|[^\]]+)?\]\]] at the start of [s]: the
    matched text and the first group. *)
Definition linkAt (s : jsstring) : option (jsstring * jsstring) :=
  match s with
  | a :: b :: r =>
      if Ascii.eqb a "["%char && Ascii.eqb b "["%char then
        match takeWhile notBarOrClose r with
        | [] => None
        | base =>
            match skipn (length base) r with
            | c :: d :: r' =>
                if Ascii.eqb c "]"%char then
                  if Ascii.eqb d "]"%char
                  then Some (str "[[" ++ base ++ str "]]", base)
                  else None
                else if Ascii.eqb c "|"%char then
                  match takeWhile notClose (d :: r') with
                  | [] => None
                  | label =>
                      match skipn (length label) (d :: r') with
                      | e :: f :: _ =>
                          if Ascii.eqb e "]"%char && Ascii.eqb f "]"%char
                          then Some (str "[[" ++ base ++ str "|" ++ label
                                     ++ str "]]", base)
                          else None
                      | _ => None
                      end
                  end
                else None
            | _ => None
            end
        end
      else None
  | _ => None
  end.

(** The successive results of [linkRegex.exec(currentLine)]: [skip]
    characters belong to the previous match, [pos] is the offset of [s]. *)
Fixpoint scanLinks (s : jsstring) (skip : nat) (pos : Z) : list LinkMatch :=
  match s with
  | [] => []
  | _ :: s' =>
      match skip with
      | S k => scanLinks s' k (pos + 1)
      | O =>
          match linkAt s with
          | Some (m, base) =>
              {| index := pos; matched := m; baseText := base |}
              :: scanLinks s' (length m - 1) (pos + 1)
          | None => scanLinks s' O (pos + 1)
          end
      end
  end.

Definition isBackspaceNearLink (key : Key) (c linkStart linkEnd : Z) : bool :=
  match key with
  | Backspace => (c >? linkStart) && (c <=? linkEnd)
  | _ => false
  end.

Definition isDeleteNearLink (key : Key) (c linkStart linkEnd : Z) : bool :=
  match key with
  | Delete => (c >=? linkStart) && (c <? linkEnd)
  | _ => false
  end.

(** [!lastUndo.timestamp]. *)
Definition noTimestamp (r : UndoRecord) : bool :=
  match timestamp r with
  | Some t => t =? 0
  | None => true
  end.

(** [lastUndo.timestamp || 0]. *)
Definition timestampOr0 (r : UndoRecord) : Z :=
  match timestamp r with
  | Some t => t
  | None => 0
  end.

Definition timeLimit : Z := 30000.

(** The [while] loop over the links of the current line. *)
Fixpoint keydownLoop (st : State) (key : Key) (now : Z) (cur : Pos)
    (lastUndo : UndoRecord) (target : jsstring) (ms : list LinkMatch)
    : State :=
  match ms with
  | [] => st
  | m :: rest =>
      if streq (baseText m) target then
        let linkStart := index m in
        let linkEnd := linkStart + len (matched m) in
        if isBackspaceNearLink key (ch cur) linkStart linkEnd
           || isDeleteNearLink key (ch cur) linkStart linkEnd
        then
          let timeSinceAutoLink := now - timestampOr0 lastUndo in
          if noTimestamp lastUndo || (timeSinceAutoLink <=? timeLimit)
          then
            let st := emit st EvPreventDefault in
            let st := temporarilyDisableAutoLink st in
            undoLastAutolink st
          else st
        else keydownLoop st key now cur lastUndo target rest
      else keydownLoop st key now cur lastUndo target rest
  end.

Definition isUndoKey (key : Key) : bool :=
  match key with
  | Backspace | Delete => true
  | OtherKey => false
  end.

(** The [keydown] listener; [active] tells whether a Markdown view with
    an editor is active. *)
Definition onKeydown (st : State) (key : Key) (now : Z) (active : bool)
    : State :=
  if isUndoKey key && (Z.of_nat (length (undoStack st)) >? 0) then
    if active then
      let cur := cursor (editor st) in
      match rev (undoStack st) with
      | [] => st
      | lastUndo :: _ =>
          match linkText lastUndo with
          | Some (c :: t) =>
              if Nat.eqb (line cur) (u_line lastUndo) then
                let currentLine := getLine (editor st) (line cur) in
                keydownLoop st key now cur lastUndo (c :: t)
                  (scanLinks currentLine O 0)
              else st
          | _ => st
          end
      end
    else st
  else st.

(** ** Common prefix *)

(** The loop of [findCommonPrefix]: [rest] is what is left of the first
    string from index [i] on. *)
Fixpoint commonPrefixLoop (strings : list jsstring) (rest : jsstring)
    (i : Z) (prefix : jsstring) : jsstring :=
  match rest with
  | [] => prefix
  | char :: rest' =>
      if forallb (fun s =>
           match charAt s i with
           | Some c => Ascii.eqb c char
           | None => false
           end) strings
      then commonPrefixLoop strings rest' (i + 1) (prefix ++ [char])
      else prefix
  end.

Definition findCommonPrefix (strings : list jsstring) : jsstring :=
  match strings with
  | [] => []
  | firstString :: _ => commonPrefixLoop strings firstString 0 []
  end.

(** ** Prefixes *)

(** [p] is a prefix of [s]. *)
Definition isPrefixOf (p s : jsstring) : Prop := exists t, s = p ++ t.

(** [p] is a prefix of every string of the list. *)
Definition commonPrefixOf (strings : list jsstring) (p : jsstring) : Prop :=
  forall s, In s strings -> isPrefixOf p s.

(** ** The engine as a transition system *)

(** What can happen to the plugin: its three inserting operations, the
    two ways to undo, its event handlers, a rebuild of the index, the
    expiry of the cool-down, and an edit made by the user. *)
Inductive Op :=
| OpInsertLink (now : Z) (completedWord : jsstring) (m : Match)
    (delimiterPos : Z)
| OpAutonomous (now : Z) (typed : jsstring) (matches : list Match) (cur : Pos)
| OpAccept (now : Z) (m : Match) (typed : jsstring)
| OpUndo
| OpUndoCommand
| OpKeydown (key : Key) (now : Z) (active : bool)
| OpEditorChange (now : Z) (view : option View)
| OpUpdateNoteList
| OpReenable
| OpUserEdit (e : Editor).

Definition userEdit (st : State) (e : Editor) : State :=
  {| settings := settings st; app := app st; noteTitles := noteTitles st;
     aliases := aliases st; popup := popup st; undoStack := undoStack st;
     pendingMatches := pendingMatches st;
     isAutoLinkDisabled := isAutoLinkDisabled st;
     editor := e; log := log st |}.

Definition step (st : State) (op : Op) : State :=
  match op with
  | OpInsertLink now w m d => insertLinkForCompletedWord st now w m d
  | OpAutonomous now typed ms cur => handleAutonomousMode st now typed ms cur
  | OpAccept now m typed => acceptSuggestion st now m typed
  | OpUndo => undoLastAutolink st
  | OpUndoCommand => undoCommand st
  | OpKeydown key now active => onKeydown st key now active
  | OpEditorChange now view => handleEditorChange st now view
  | OpUpdateNoteList => updateNoteList st
  | OpReenable => reenableAutoLink st
  | OpUserEdit e => userEdit st e
  end.

Definition run (st : State) (ops : list Op) : State := fold_left step ops st.

(** Operations that never take a record off the ledger. *)
Definition noPop (op : Op) : bool :=
  match op with
  | OpUndo | OpUndoCommand | OpKeydown _ _ _ => false
  | _ => true
  end.

(** The records pushed so far, oldest first. *)
Fixpoint pushed (evs : list Event) : list UndoRecord :=
  match evs with
  | [] => []
  | EvPush r :: evs' => r :: pushed evs'
  | _ :: evs' => pushed evs'
  end.

(** The last [n] elements of a list. *)
Definition lastN {A : Type} (n : nat) (l : list A) : list A :=
  skipn (length l - n) l.

(** A full ledger loses its oldest record. *)
Definition evict (l : list UndoRecord) : list UndoRecord :=
  if Nat.eqb (length l) 10 then tl l else l.

(** How an operation may change the ledger. *)
Definition ledgerKept (st st' : State) : Prop :=
  undoStack st' = undoStack st /\ pushed (log st') = pushed (log st).

Definition ledgerInserted (st st' : State) (r : UndoRecord) : Prop :=
  undoStack st' = lastN 10 (undoStack st ++ [r])
  /\ pushed (log st') = pushed (log st) ++ [r].

Definition ledgerPopped (st st' : State) : Prop :=
  undoStack st' = removelast (undoStack st)
  /\ pushed (log st') = pushed (log st).

(** An inserting operation from [st] to [st'], with the cursor [cur]:
    the first effect is the push of a record of the line and the cursor
    as they were, every line written afterwards is that line, the record
    ends up on top of the ledger, and undoing gives back the text and
    the cursor. *)
Definition capturesBeforeWriting (st st' : State) (cur : Pos) : Prop :=
  exists r evs,
    log st' = log st ++ EvPush r :: evs
    /\ u_line r = line cur
    /\ original r = getLine (editor st) (line cur)
    /\ u_cursor r = cur
    /\ (forall n s, In (EvSetLine n s) evs -> n = line cur)
    /\ (exists earlier, undoStack st' = earlier ++ [r])
    /\ (forall n, getLine (editor (undoLastAutolink st')) n
                  = getLine (editor st) n)
    /\ cursor (editor (undoLastAutolink st')) = cur.

(** ** A sample vault *)

Definition sampleFile (name : string) : TFile :=
  {| path := str name ++ str ".md"; basename := str name;
     parent := str "/" |}.

Definition sampleEditor (text : string) (c : Z) : Editor :=
  {| lines := fun n => if Nat.eqb n 0 then str text else [];
     cursor := {| line := 0; ch := c |} |}.

(** The plugin after [onload]: the index is built from [files]. *)
Definition sampleState (s : AutoLinkSettings) (files : list TFile)
    (al : TFile -> FmAliases) (text : string) (c : Z) : State :=
  updateNoteList
    (initial s {| markdownFiles := files; activeFile := None;
                  frontmatterAliases := al |}
       (sampleEditor text c)).

Definition noAliases : TFile -> FmAliases := fun _ => FmAbsent.

Definition sampleApp : App :=
  {| markdownFiles := [sampleFile "Note"]; activeFile := None;
     frontmatterAliases := noAliases |}.

Definition sampleView : option View :=
  Some {| v_file := Some (sampleFile "Today") |}.

Definition noteMatch : Match :=
  {| title := str "Note"; file := sampleFile "Note"; isAlias := false |}.

(** Fifteen insertions, at the times 1 to 15. *)
Definition fifteenInsertions : list Op :=
  map (fun t => OpInsertLink t (str "Note") noteMatch 4)
    [1; 2; 3; 4; 5; 6; 7; 8; 9; 10; 11; 12; 13; 14; 15].

(** ** Order and the index *)

(** [l1] is [l2] with some elements left out, in the same order. *)
Inductive Subseq {A : Type} : list A -> list A -> Prop :=
| Subseq_nil : Subseq [] []
| Subseq_skip x l1 l2 : Subseq l1 l2 -> Subseq l1 (x :: l2)
| Subseq_take x l1 l2 : Subseq l1 l2 -> Subseq (x :: l1) (x :: l2).

(** The title index as [updateNoteList] builds it: no key twice, and every
    key is the normalized basename of its file. *)
Definition titlesWellFormed (s : AutoLinkSettings) (t : JsMap TFile) : Prop :=
  NoDup (map fst t)
  /\ forall k f, In (k, f) t -> k = normalize s (basename f).

(** The test and the match of the loop over the titles. *)
Definition titleCond (searchKey current : jsstring)
    (e : jsstring * TFile) : bool :=
  negb (streq (fst e) current) && startsWith (fst e) searchKey.

Definition titleMatch (e : jsstring * TFile) : Match :=
  {| title := basename (snd e); file := snd e; isAlias := false |}.

(** What the loop over the aliases adds to the matches [acc]. *)
Definition aliasMatchesOk (entries : JsMap TFile)
    (searchKey currentBasename : jsstring) (acc add : list Match) : Prop :=
  Forall (fun m => isAlias m = true
                   /\ In (title m, file m) entries
                   /\ startsWith (title m) searchKey = true
                   /\ basename (file m) <> currentBasename) add
  /\ (NoDup (map file acc) -> NoDup (map file (acc ++ add)))
  /\ Subseq (map (fun m => (title m, file m)) add) entries.

(** ** Word completion and implicit undo, as properties *)

(** The completed word: the trimmed fragment before the delimiter that
    was typed at column [c - 1]. *)
Definition completedWordOf (ln : jsstring) (c : Z) : option jsstring :=
  option_map trim (matchSuffix isFragmentChar (slice ln 0 (c - 1))).

(** Between [st] and [st'] a line of the editor was written. *)
Definition wroteLine (st st' : State) : Prop :=
  exists evs n s, log st' = log st ++ evs /\ In (EvSetLine n s) evs.

(** The character that the key removes at column [c] belongs to the
    link: the cursor is inside the link or touches it on the side on which
    the key deletes. *)
Definition nearLink (key : Key) (c : Z) (m : LinkMatch) : Prop :=
  match key with
  | Backspace => index m < c <= index m + len (matched m)
  | Delete => index m <= c < index m + len (matched m)
  | OtherKey => False
  end.

Definition nearLinkb (key : Key) (c : Z) (m : LinkMatch) : bool :=
  isBackspaceNearLink key c (index m) (index m + len (matched m))
  || isDeleteNearLink key c (index m) (index m + len (matched m)).

(** The text of a link with the target [base]. *)
Definition isLinkText (base text : jsstring) : Prop :=
  base <> []
  /\ (text = str "[[" ++ base ++ str "]]"
      \/ exists label, label <> []
           /\ text = str "[[" ++ base ++ str "|" ++ label ++ str "]]").

(** ** Insertions and undos in sequence *)

(** The operations that insert a link at the cursor of the editor. *)
Definition insertsAtCursor (op : Op) : bool :=
  match op with
  | OpInsertLink _ _ _ _ | OpAccept _ _ _ => true
  | _ => false
  end.

(** Two editors show the same text and have the same cursor. *)
Definition sameText (e e' : Editor) : Prop :=
  cursor e = cursor e' /\ forall n, getLine e n = getLine e' n.

(** ** The suggestion popup *)

(** The component [SuggestionPopup]: its properties and its state, and
    [handleKeydown] with the helpers it calls.  What the component reads
    from the page is gathered in [Dom].  The list of matches is not empty
    when the popup is mounted; with an empty list the remainder by its
    length is not a number, which is not modelled. *)
Module SuggestionPopup.

Record t := {
  matches : list Match;
  typed : jsstring;
  allowEnterAccept : bool;
  selected : Z;
  isActive : bool
}.

(** The focused element: whether it is an [INPUT] or a [TEXTAREA], and
    whether it is the editor or lies in it. *)
Record ActiveElement := {
  isInputOrTextarea : bool;
  inEditor : bool
}.

Record Dom := {
  popupInBody : bool;
  isEditorEvent : bool;
  hasSelection : bool;
  activeElement : option ActiveElement
}.

Inductive PopupKey :=
| ArrowDown
| ArrowUp
| Enter
| Tab (shiftKey : bool)
| Space (ctrlOrMeta : bool)
| Escape
| Digit (d : Z)
| OtherPopupKey.

(** What the handler calls back. *)
Inductive Callback :=
| OnAccept (m : option Match)
| OnClose.

Record Outcome := {
  after : t;
  defaultPrevented : bool;
  callback : option Callback
}.

Definition withSelected (p : t) (i : Z) : t :=
  {| matches := matches p; typed := typed p;
     allowEnterAccept := allowEnterAccept p;
     selected := i; isActive := isActive p |}.

(** [accept()]: the match at the selected index, when the popup is active
    and has matches. *)
Definition accept (p : t) : option Callback :=
  if (Z.of_nat (length (matches p)) >? 0) && isActive p
  then Some (OnAccept (itemAt (matches p) (selected p)))
  else None.

Definition isObsidianUsingEnter (p : t) (dom : Dom) (ed : Editor) : bool :=
  if hasSelection dom then true
  else
    match activeElement dom with
    | None => false
    | Some el =>
        if isInputOrTextarea el then true
        else if inEditor el then
          let cur := cursor ed in
          let ln := getLine ed (line cur) in
          let beforeCursor := slice ln 0 (ch cur) in
          if endsWith beforeCursor (typed p) then false else false
        else false
    end.

Definition isObsidianUsingTab (dom : Dom) (ed : Editor) : bool :=
  if hasSelection dom then true
  else
    match activeElement dom with
    | None => false
    | Some el =>
        if inEditor el then
          let cur := cursor ed in
          let ln := getLine ed (line cur) in
          if (ch cur =? 0) || streq (trim (slice ln 0 (ch cur))) []
          then true else false
        else false
    end.

Definition unhandled (p : t) : Outcome :=
  {| after := p; defaultPrevented := false; callback := None |}.

Definition handleKeydown (p : t) (dom : Dom) (ed : Editor) (key : PopupKey)
    : Outcome :=
  if negb (popupInBody dom) || negb (isActive p) then unhandled p
  else if negb (isEditorEvent dom) then unhandled p
  else
    let n := Z.of_nat (length (matches p)) in
    match key with
    | ArrowDown =>
        {| after := withSelected p (Z.rem (selected p + 1) n);
           defaultPrevented := true; callback := None |}
    | ArrowUp =>
        {| after := withSelected p (Z.rem (selected p - 1 + n) n);
           defaultPrevented := true; callback := None |}
    | Enter =>
        if allowEnterAccept p && negb (isObsidianUsingEnter p dom ed)
        then {| after := p; defaultPrevented := true; callback := accept p |}
        else unhandled p
    | Tab shiftKey =>
        if negb shiftKey && negb (isObsidianUsingTab dom ed)
        then {| after := p; defaultPrevented := true; callback := accept p |}
        else unhandled p
    | Space ctrlOrMeta =>
        if ctrlOrMeta
        then {| after := p; defaultPrevented := true; callback := accept p |}
        else unhandled p
    | Escape =>
        {| after := p; defaultPrevented := true; callback := Some OnClose |}
    | Digit d =>
        if (1 <=? d) && (d <=? 9) then
          let num := d - 1 in
          if num <? n then
            {| after := withSelected p num; defaultPrevented := true;
               callback := accept (withSelected p num) |}
          else unhandled p
        else unhandled p
    | OtherPopupKey => unhandled p
    end.

Definition handleMouseOver (p : t) (i : Z) : t := withSelected p i.

Definition handleClick (p : t) (i : Z) : t * option Callback :=
  (withSelected p i, accept (withSelected p i)).

(** The component as [showSuggestionPopup] mounts it, once it is
    active. *)
Definition mounted (pp : Popup) : t :=
  {| matches := p_matches pp; typed := p_typed pp;
     allowEnterAccept := p_allowEnterAccept pp;
     selected := 0; isActive := true |}.

End SuggestionPopup.

(** A popup on two matches, and a page on which it is shown while the
    editor has the focus. *)
Definition samplePopup : SuggestionPopup.t :=
  SuggestionPopup.mounted
    {| p_matches :=
         [noteMatch;
          {| title := str "Notes"; file := sampleFile "Notes";
             isAlias := false |}];
       p_typed := str "Not"; p_allowEnterAccept := true |}.

Definition sampleDom : SuggestionPopup.Dom :=
  {| SuggestionPopup.popupInBody := true;
     SuggestionPopup.isEditorEvent := true;
     SuggestionPopup.hasSelection := false;
     SuggestionPopup.activeElement :=
       Some {| SuggestionPopup.isInputOrTextarea := false;
               SuggestionPopup.inEditor := true |} |}.

(** Text within ASCII: there [toLowerCase] is the fold of JavaScript,
    which keeps the length and the place of every character. *)
Definition isAsciiText (s : jsstring) : bool :=
  forallb (fun c => code c <? 128) s.

(** [highlightMatch] of the popup: the first occurrence of the typed
    text in the title, compared in lower case, is put between marks. *)
Definition highlightMatch (typed title : jsstring) : jsstring :=
  match typed with
  | [] => title
  | _ =>
      match indexFrom (toLowerCase typed) (toLowerCase title) 0 with
      | None => title
      | Some index =>
          let before := slice title 0 index in
          let mid := slice title index (index + len typed) in
          let after := sliceFrom title (index + len typed) in
          before ++ str "<mark>" ++ mid ++ str "</mark>" ++ after
      end
  end.

(** ** Fragments, trimmed text and links, as properties *)

(** The first character of [s] satisfies [p]. *)
Definition firstIs (p : ascii -> bool) (s : jsstring) : bool :=
  match s with
  | c :: _ => p c
  | [] => false
  end.

(** The last character of [s] satisfies [p]. *)
Definition lastIs (p : ascii -> bool) (s : jsstring) : bool :=
  firstIs p (rev s).

(** [frag] is the fragment that ends [s]: the longest run of letters,
    digits, underscores, white space and hyphens at the end of [s], and
    it is not empty. *)
Definition fragmentOf (s frag : jsstring) : Prop :=
  frag <> []
  /\ forallb isFragmentChar frag = true
  /\ exists pre, s = pre ++ frag /\ lastIs isFragmentChar pre = false.

(** [t] is [s] without the white space at its two ends. *)
Definition trimmedOf (s t : jsstring) : Prop :=
  exists a b,
    s = a ++ t ++ b
    /\ forallb isSpace a = true /\ forallb isSpace b = true
    /\ firstIs isSpace t = false /\ lastIs isSpace t = false.

(** [text] is a link to [base]: [[base]] or [[base|label]], with a target
    that is not empty and has no bar and no closing bracket, and a label
    that is not empty and has no closing bracket. *)
Definition wellFormedLink (base text : jsstring) : Prop :=
  base <> []
  /\ forallb notBarOrClose base = true
  /\ (text = str "[[" ++ base ++ str "]]"
      \/ exists label,
           label <> [] /\ forallb notClose label = true
           /\ text = str "[[" ++ base ++ str "|" ++ label ++ str "]]").

(** The link [m] stands in the line: its text is a link to its target
    and is found in the line at its offset. *)
Definition linkOccurs (ln : jsstring) (m : LinkMatch) : Prop :=
  wellFormedLink (baseText m) (matched m)
  /\ exists a b, ln = a ++ matched m ++ b /\ index m = len a.

(** No two links of the line overlap: a link that starts after another
    starts at or after its end. *)
Definition noOverlap (ln : jsstring) : Prop :=
  forall m m',
    linkOccurs ln m -> linkOccurs ln m' ->
    index m < index m' -> index m + len (matched m) <= index m'.

(** A test for [noOverlap]: no link starts within a link that starts
    earlier. *)
Definition overlapFree (ln : jsstring) : bool :=
  forallb
    (fun i =>
       match linkAt (skipn i ln) with
       | Some (t, _) =>
           forallb (fun j => match linkAt (skipn j ln) with
                             | Some _ => false
                             | None => true
                             end)
             (seq (S i) (length t - 1))
       | None => true
       end)
    (seq 0 (length ln)).


(** * Properties *)

(** ** Strings *)

Lemma streq_true_iff (a b : jsstring) : streq a b = true <-> a = b.
Proof.
  revert b; induction a as [|x a IH]; intros [|y b]; simpl;
    try (split; [discriminate | discriminate]); try tauto.
  rewrite andb_true_iff, Ascii.eqb_eq, IH.
  split; [intros [-> ->]; reflexivity | intros H; inversion H; auto].
Qed.

Lemma streq_refl (a : jsstring) : streq a a = true.
Proof. apply streq_true_iff; reflexivity. Qed.

Lemma streq_false_iff (a b : jsstring) : streq a b = false <-> a <> b.
Proof.
  rewrite <- streq_true_iff. destruct (streq a b); split; congruence.
Qed.

Lemma startsWith_true_iff (s key : jsstring) :
  startsWith s key = true <-> isPrefixOf key s.
Proof.
  revert s; induction key as [|k key IH]; intros s.
  - split; [intros _; exists s; reflexivity | destruct s; reflexivity].
  - destruct s as [|c s]; simpl.
    + split; [discriminate | intros [t H]; discriminate].
    + rewrite andb_true_iff, Ascii.eqb_eq, IH. split.
      * intros [-> [t ->]]. exists t. reflexivity.
      * intros [t H]. inversion H; subst. split; [reflexivity | exists t; reflexivity].
  Qed.

Lemma file_eqb_true_iff (f g : TFile) : file_eqb f g = true <-> f = g.
Proof.
  unfold file_eqb. rewrite !andb_true_iff, !streq_true_iff.
  destruct f, g; simpl. split.
  - intros [[-> ->] ->]. reflexivity.
  - intros H; inversion H; auto.
Qed.

Lemma len_app (a b : jsstring) : len (a ++ b) = len a + len b.
Proof. unfold len. rewrite length_app. lia. Qed.

Lemma len_nonneg (a : jsstring) : 0 <= len a.
Proof. unfold len. lia. Qed.

Lemma slice_0_firstn {A : Type} (l : list A) (n : Z) :
  0 <= n -> slice l 0 n = firstn (Z.to_nat n) l.
Proof.
  intros Hn. unfold slice, relIndex. change (0 <? 0) with false. cbv iota.
  destruct (n <? 0) eqn:E; [apply Z.ltb_lt in E; lia|].
  replace (Z.min 0 (Z.of_nat (length l))) with 0 by lia.
  simpl skipn. rewrite Z.sub_0_r.
  destruct (Z.le_ge_cases n (Z.of_nat (length l))).
  - rewrite Z.min_l by lia. reflexivity.
  - rewrite Z.min_r by lia. rewrite Nat2Z.id.
    rewrite !firstn_all2 by lia. reflexivity.
Qed.

Lemma sliceFrom_skipn {A : Type} (l : list A) (n : Z) :
  0 <= n -> sliceFrom l n = skipn (Z.to_nat n) l.
Proof.
  intros Hn. unfold sliceFrom, slice, relIndex.
  destruct (n <? 0) eqn:E; [apply Z.ltb_lt in E; lia|].
  destruct (Z.of_nat (length l) <? 0) eqn:E2; [apply Z.ltb_lt in E2; lia|].
  rewrite Z.min_id.
  destruct (Z.le_ge_cases n (Z.of_nat (length l))).
  - rewrite Z.min_l by lia. apply firstn_all2. rewrite length_skipn. lia.
  - rewrite Z.min_r by lia. rewrite Nat2Z.id, Z.sub_diag. simpl.
    rewrite skipn_all2 by lia. reflexivity.
Qed.

Lemma slice_0_app (a b : jsstring) : slice (a ++ b) 0 (len a) = a.
Proof.
  rewrite slice_0_firstn by apply len_nonneg.
  unfold len. rewrite Nat2Z.id.
  rewrite firstn_app, Nat.sub_diag, firstn_all. simpl. apply app_nil_r.
Qed.

Lemma sliceFrom_app (a b : jsstring) : sliceFrom (a ++ b) (len a) = b.
Proof.
  rewrite sliceFrom_skipn by apply len_nonneg.
  unfold len. rewrite Nat2Z.id.
  rewrite skipn_app, Nat.sub_diag, skipn_all. reflexivity.
Qed.

Lemma charAt_app_len (a b : jsstring) :
  charAt (a ++ b) (len a) = hd_error b.
Proof.
  unfold charAt. destruct (len a <? 0) eqn:E.
  - apply Z.ltb_lt in E. pose proof (len_nonneg a). lia.
  - unfold len. rewrite Nat2Z.id. rewrite nth_error_app2 by lia.
    rewrite Nat.sub_diag. destruct b; reflexivity.
Qed.

Lemma trimStart_blank (s : jsstring) :
  trimStart s = [] <-> forallb isSpace s = true.
Proof.
  induction s as [|c s IH]; simpl; [tauto|].
  destruct (isSpace c); simpl; [exact IH|].
  split; discriminate.
Qed.

Lemma trimStart_idem (s : jsstring) : trimStart (trimStart s) = trimStart s.
Proof.
  induction s as [|c s IH]; simpl; [reflexivity|].
  destruct (isSpace c) eqn:E; [exact IH|]. simpl. rewrite E. reflexivity.
Qed.

Lemma forallb_rev {A : Type} (f : A -> bool) (l : list A) :
  forallb f (rev l) = forallb f l.
Proof.
  induction l as [|x l IH]; simpl; [reflexivity|].
  rewrite forallb_app, IH. simpl. rewrite andb_true_r. apply andb_comm.
Qed.

Lemma trim_blank (s : jsstring) :
  trim s = [] <-> forallb isSpace s = true.
Proof.
  unfold trim, trimEnd. split.
  - intros H. apply (f_equal (@rev ascii)) in H.
    rewrite rev_involutive in H. simpl in H.
    apply trimStart_blank in H. rewrite forallb_rev in H.
    apply trimStart_blank in H. rewrite trimStart_idem in H.
    apply trimStart_blank. assumption.
  - intros H. apply trimStart_blank in H. rewrite H. reflexivity.
Qed.

Lemma takeWhile_app_stop (p : ascii -> bool) (a : jsstring) (c : ascii)
    (r : jsstring) :
  forallb p a = true -> p c = false -> takeWhile p (a ++ c :: r) = a.
Proof.
  intros Ha Hc. induction a as [|x a IH]; simpl.
  - rewrite Hc. reflexivity.
  - simpl in Ha. apply andb_true_iff in Ha. destruct Ha as [Hx Ha].
    rewrite Hx, (IH Ha). reflexivity.
Qed.

Lemma skipn_length_app {A : Type} (a b : list A) :
  skipn (length a) (a ++ b) = b.
Proof. rewrite skipn_app, Nat.sub_diag, skipn_all. reflexivity. Qed.

Lemma takeWhile_all (p : ascii -> bool) (s : jsstring) :
  forallb p (takeWhile p s) = true.
Proof.
  induction s as [|c s IH]; simpl; [reflexivity|].
  destruct (p c) eqn:E; simpl; [rewrite E; exact IH | reflexivity].
Qed.

Lemma takeWhile_app_all (p : ascii -> bool) (a b : jsstring) :
  forallb p a = true -> takeWhile p (a ++ b) = a ++ takeWhile p b.
Proof.
  induction a as [|x a IH]; simpl; intros H; [reflexivity|].
  apply andb_true_iff in H. destruct H as [Hx Ha].
  rewrite Hx, (IH Ha). reflexivity.
Qed.

Lemma takeWhile_firstIs (p : ascii -> bool) (s : jsstring) :
  firstIs p s = false -> takeWhile p s = [].
Proof.
  destruct s as [|c s]; simpl; intros H; [reflexivity|].
  rewrite H. reflexivity.
Qed.

(** The match of the fragment pattern is the fragment. *)
Lemma matchSuffix_fragmentOf (s frag : jsstring) :
  fragmentOf s frag -> matchSuffix isFragmentChar s = Some frag.
Proof.
  intros [Hne [Hall [pre [-> Hpre]]]]. unfold matchSuffix.
  rewrite rev_app_distr, takeWhile_app_all
    by (rewrite forallb_rev; exact Hall).
  rewrite (takeWhile_firstIs _ _ Hpre), app_nil_r, rev_involutive.
  destruct frag; [contradiction | reflexivity].
Qed.

Lemma matchSuffix_none (s : jsstring) :
  lastIs isFragmentChar s = false -> matchSuffix isFragmentChar s = None.
Proof.
  intros H. unfold matchSuffix. rewrite (takeWhile_firstIs _ _ H).
  reflexivity.
Qed.


Lemma trimStart_app_space (a s : jsstring) :
  forallb isSpace a = true -> trimStart (a ++ s) = trimStart s.
Proof.
  induction a as [|x a IH]; simpl; intros H; [reflexivity|].
  apply andb_true_iff in H. destruct H as [Hx Ha].
  rewrite Hx. exact (IH Ha).
Qed.

Lemma trimStart_firstIs (s : jsstring) :
  firstIs isSpace s = false -> trimStart s = s.
Proof.
  destruct s as [|c s]; simpl; intros H; [reflexivity|].
  rewrite H. reflexivity.
Qed.

(** [trim] yields the trimmed text. *)
Lemma trim_trimmedOf (s t : jsstring) : trimmedOf s t -> trim s = t.
Proof.
  intros [a [b [-> [Ha [Hb [Hf Hl]]]]]]. unfold trim, trimEnd.
  rewrite trimStart_app_space by exact Ha.
  destruct t as [|c r].
  - simpl List.app. rewrite (proj2 (trimStart_blank b) Hb). reflexivity.
  - rewrite (trimStart_firstIs ((c :: r) ++ b)) by exact Hf.
    rewrite rev_app_distr, trimStart_app_space
      by (rewrite forallb_rev; exact Hb).
    rewrite trimStart_firstIs by exact Hl. apply rev_involutive.
Qed.

(** White space and the hyphen are the characters that both belong to a
    fragment and complete a word. *)
Lemma completing_char (d : ascii) :
  isSpace d = true \/ d = "-"%char ->
  isFragmentChar d = true /\ isDelimiter d = true.
Proof.
  intros [H| ->]; [|split; reflexivity].
  unfold isFragmentChar, isDelimiter. rewrite H.
  rewrite orb_true_r. split; reflexivity.
Qed.

Lemma space_isFragmentChar (ws : jsstring) :
  forallb isSpace ws = true -> forallb isFragmentChar ws = true.
Proof.
  intros H. apply forallb_forall. intros c Hc.
  rewrite forallb_forall in H.
  apply (completing_char c). left. apply H. exact Hc.
Qed.

(** ** Longest common prefix *)

Section CommonPrefix.

Variable strings : list jsstring.
Variable firstString : jsstring.
Hypothesis first_in : In firstString strings.

Lemma commonPrefix_extend (prefix : jsstring) (char : ascii) :
  commonPrefixOf strings prefix ->
  forallb (fun s =>
     match charAt s (len prefix) with
     | Some c => Ascii.eqb c char
     | None => false
     end) strings = true ->
  commonPrefixOf strings (prefix ++ [char]).
Proof.
  intros Hp Hall s Hs. destruct (Hp s Hs) as [t ->].
  rewrite forallb_forall in Hall. specialize (Hall _ Hs).
  rewrite charAt_app_len in Hall. destruct t as [|c t]; simpl in Hall.
  - discriminate.
  - apply Ascii.eqb_eq in Hall. subst c. exists t.
    rewrite <- app_assoc. reflexivity.
Qed.

Lemma commonPrefix_stuck (prefix rest p : jsstring) (char : ascii) :
  firstString = prefix ++ char :: rest ->
  forallb (fun s =>
     match charAt s (len prefix) with
     | Some c => Ascii.eqb c char
     | None => false
     end) strings = false ->
  commonPrefixOf strings p ->
  (length p <= length prefix)%nat.
Proof.
  intros Hfirst Hall Hp.
  destruct (Nat.le_gt_cases (length p) (length prefix)) as [|Hlt]; [assumption|].
  exfalso.
  assert (Hpre : exists q, p = prefix ++ char :: q).
  { destruct (Hp _ first_in) as [t Ht]. rewrite Hfirst in Ht.
    clear - Ht Hlt. revert p Ht Hlt.
    induction prefix as [|x prefix IH]; intros p Ht Hlt.
    - destruct p as [|y p]; simpl in *; [lia|].
      inversion Ht; subst. exists p. reflexivity.
    - destruct p as [|y p]; simpl in *; [lia|].
      inversion Ht; subst. destruct (IH p) as [q ->]; [assumption | lia |].
      exists q. reflexivity. }
  destruct Hpre as [q ->].
  assert (Hall' : forallb (fun s =>
     match charAt s (len prefix) with
     | Some c => Ascii.eqb c char
     | None => false
     end) strings = true).
  { apply forallb_forall. intros s Hs. destruct (Hp s Hs) as [t ->].
    rewrite <- app_assoc. rewrite charAt_app_len. simpl.
    apply Ascii.eqb_refl. }
  congruence.
Qed.

Lemma commonPrefixLoop_spec (rest prefix : jsstring) :
  firstString = prefix ++ rest ->
  commonPrefixOf strings prefix ->
  let r := commonPrefixLoop strings rest (len prefix) prefix in
  commonPrefixOf strings r /\
  forall p, commonPrefixOf strings p -> (length p <= length r)%nat.
Proof.
  revert prefix. induction rest as [|char rest IH]; intros prefix Hfirst Hp; simpl.
  - split; [assumption|]. intros p Hcp.
    destruct (Hcp _ first_in) as [t Ht].
    rewrite Hfirst, app_nil_r in Ht. rewrite Ht, length_app. lia.
  - destruct (forallb _ strings) eqn:Hall.
    + replace (len prefix + 1) with (len (prefix ++ [char]))
        by (rewrite len_app; reflexivity).
      apply IH.
      * rewrite <- app_assoc. exact Hfirst.
      * apply commonPrefix_extend; assumption.
    + split; [assumption|]. intros p Hcp.
      eapply commonPrefix_stuck; eauto.
Qed.

End CommonPrefix.

(** C10. [findCommonPrefix] returns a prefix of every string of the list;
    when the list has an element, no string that is a prefix of every
    element is longer than the result; for the empty list the result is
    the empty string. *)
Theorem findCommonPrefix_longest (strings : list jsstring) :
  (forall s, In s strings -> isPrefixOf (findCommonPrefix strings) s)
  /\ (strings <> [] ->
      forall p, (forall s, In s strings -> isPrefixOf p s) ->
                (length p <= length (findCommonPrefix strings))%nat)
  /\ findCommonPrefix [] = [].
Proof.
  split; [|split]; [| |reflexivity].
  - destruct strings as [|f rest]; [intros s []|].
    apply (commonPrefixLoop_spec (f :: rest) f (or_introl eq_refl) f []);
      [reflexivity|].
    intros s _. exists s. reflexivity.
  - destruct strings as [|f rest]; [congruence|]. intros _.
    apply (commonPrefixLoop_spec (f :: rest) f (or_introl eq_refl) f []);
      [reflexivity|].
    intros s _. exists s. reflexivity.
Qed.

Lemma findCommonPrefix_longest_witness :
  let l := [str "Note with Space"; str "Note"; str "Notebook"] in
  findCommonPrefix l = str "Note"
  /\ (length (str "No") <= length (findCommonPrefix l))%nat.
Proof.
  split; [reflexivity|].
  apply (findCommonPrefix_longest
           [str "Note with Space"; str "Note"; str "Notebook"]).
  - discriminate.
  - intros s [<-|[<-|[<-|[]]]]; eexists; reflexivity.
Defined.

(** ** Undo ledger *)

Lemma pushed_app (a b : list Event) : pushed (a ++ b) = pushed a ++ pushed b.
Proof.
  induction a as [|e a IH]; [reflexivity|].
  destruct e; simpl; rewrite ?IH; reflexivity.
Qed.

Lemma lastN_short {A : Type} (n : nat) (l : list A) :
  (length l <= n)%nat -> lastN n l = l.
Proof.
  intros H. unfold lastN. replace (length l - n)%nat with O by lia.
  reflexivity.
Qed.

Lemma lastN_length {A : Type} (n : nat) (l : list A) :
  length (lastN n l) = Nat.min n (length l).
Proof. unfold lastN. rewrite length_skipn. lia. Qed.

Lemma lastN_snoc {A : Type} (n : nat) (l : list A) (x : A) :
  lastN (S n) (l ++ [x]) = lastN n l ++ [x].
Proof.
  unfold lastN. rewrite length_app. simpl.
  replace (length l + 1 - S n)%nat with (length l - n)%nat by lia.
  rewrite skipn_app.
  replace (length l - n - length l)%nat with O by lia. reflexivity.
Qed.

Lemma lastN_lastN_snoc {A : Type} (n : nat) (l : list A) (x : A) :
  lastN n (lastN n l ++ [x]) = lastN n (l ++ [x]).
Proof.
  destruct n as [|n].
  - unfold lastN. rewrite !Nat.sub_0_r, !skipn_all. reflexivity.
  - rewrite !lastN_snoc. f_equal.
    unfold lastN at 1 3. rewrite lastN_length.
    unfold lastN. rewrite skipn_skipn. f_equal. lia.
Qed.

Lemma keepLast10_undoStack (st : State) :
  (length (undoStack st) <= 11)%nat ->
  undoStack (keepLast10 st) = lastN 10 (undoStack st).
Proof.
  intros H. unfold keepLast10.
  destruct (Z.of_nat (length (undoStack st)) >? 10) eqn:E.
  - apply Z.gtb_lt in E. simpl. unfold lastN.
    replace (length (undoStack st) - 10)%nat with 1%nat by lia.
    destruct (undoStack st); reflexivity.
  - rewrite lastN_short; [reflexivity|].
    rewrite Z.gtb_ltb in E. apply Z.ltb_ge in E. lia.
Qed.

Lemma keepLast10_pushed (st : State) :
  pushed (log (keepLast10 st)) = pushed (log st).
Proof.
  unfold keepLast10. destruct (_ >? 10); [|reflexivity].
  simpl. rewrite pushed_app. simpl. apply app_nil_r.
Qed.

Lemma keepLast10_editor (st : State) : editor (keepLast10 st) = editor st.
Proof. unfold keepLast10. destruct (_ >? 10); reflexivity. Qed.

Lemma insertLink_ledger (st : State) now w m d :
  (length (undoStack st) <= 10)%nat ->
  ledgerInserted st (insertLinkForCompletedWord st now w m d)
    (recordFor (cursor (editor st))
       (getLine (editor st) (line (cursor (editor st)))) now m).
Proof.
  intros H. unfold insertLinkForCompletedWord. cbv zeta. split.
  - rewrite keepLast10_undoStack; simpl; [reflexivity|].
    rewrite length_app; simpl; lia.
  - rewrite keepLast10_pushed. simpl. rewrite !pushed_app. simpl.
    rewrite !app_nil_r. reflexivity.
Qed.

Lemma acceptSuggestion_ledger (st : State) now m typed :
  (length (undoStack st) <= 10)%nat ->
  ledgerInserted st (acceptSuggestion st now m typed)
    (recordFor (cursor (editor st))
       (getLine (editor st) (line (cursor (editor st)))) now m).
Proof.
  intros H. unfold acceptSuggestion. cbv zeta. split.
  - rewrite keepLast10_undoStack;
      destruct (lastIndexOf _ _ =? -1); simpl; try reflexivity;
      rewrite length_app; simpl; lia.
  - rewrite keepLast10_pushed.
    destruct (lastIndexOf _ _ =? -1); simpl; rewrite !pushed_app; simpl;
      rewrite !app_nil_r; reflexivity.
Qed.

Lemma handleAutonomousMode_ledger_one (st : State) now typed m cur :
  (length (undoStack st) <= 10)%nat ->
  ledgerInserted st (handleAutonomousMode st now typed [m] cur)
    (recordFor cur (getLine (editor st) (line cur)) now m).
Proof.
  intros H. unfold handleAutonomousMode. cbv zeta. unfold closePopup. split.
  - simpl undoStack. rewrite keepLast10_undoStack; simpl; [reflexivity|].
    rewrite length_app; simpl; lia.
  - simpl log. rewrite keepLast10_pushed. simpl. rewrite !pushed_app. simpl.
    rewrite !app_nil_r. reflexivity.
Qed.

Lemma handleAutonomousMode_ledger (st : State) now typed ms cur :
  (length (undoStack st) <= 10)%nat ->
  ledgerKept st (handleAutonomousMode st now typed ms cur)
  \/ exists r, ledgerInserted st (handleAutonomousMode st now typed ms cur) r.
Proof.
  intros H. destruct ms as [|m [|m' ms]].
  - left. split; reflexivity.
  - right. eexists. apply handleAutonomousMode_ledger_one. assumption.
  - left. split; reflexivity.
Qed.

Lemma undoLastAutolink_ledger (st : State) :
  ledgerPopped st (undoLastAutolink st).
Proof.
  unfold undoLastAutolink, ledgerPopped.
  destruct (rev (undoStack st)) as [|r earlier] eqn:E.
  - apply (f_equal (@rev _)) in E. rewrite rev_involutive in E. simpl in E.
    rewrite E. split; reflexivity.
  - apply (f_equal (@rev _)) in E. rewrite rev_involutive in E. simpl in E.
    rewrite E. simpl. rewrite removelast_last. split; [reflexivity|].
    rewrite !pushed_app. simpl. rewrite !app_nil_r. reflexivity.
Qed.

Lemma handleSuggestionsMode_ledger (st : State) ms typed :
  ledgerKept st (handleSuggestionsMode st ms typed).
Proof. destruct ms; split; reflexivity. Qed.

Lemma dispatchMode_ledger (st : State) now ms typed cur :
  (length (undoStack st) <= 10)%nat ->
  ledgerKept st (dispatchMode st now ms typed cur)
  \/ exists r, ledgerInserted st (dispatchMode st now ms typed cur) r.
Proof.
  intros H. unfold dispatchMode. destruct (mode (settings st)).
  - left; split; reflexivity.
  - left; split; reflexivity.
  - left; apply handleSuggestionsMode_ledger.
  - destruct (_ && _).
    + apply handleAutonomousMode_ledger; assumption.
    + destruct (_ >? 0); left;
        [apply handleSuggestionsMode_ledger | split; reflexivity].
Qed.

Lemma tryCompleteWord_ledger guard (st st' : State) now ln cur cb :
  (length (undoStack st) <= 10)%nat ->
  tryCompleteWord guard st now ln cur cb = Some st' ->
  exists r, ledgerInserted st st' r.
Proof.
  intros H. unfold tryCompleteWord.
  destruct (matchSuffix _ _) as [w|]; [|discriminate].
  destruct (findMatches _ _ _) as [|m [|m' ms]]; try discriminate.
  destruct (guard _ _ _); [|discriminate].
  intros E. injection E as <-. eexists.
  exact (insertLink_ledger st now (trim w) m (ch cur - 1) H).
Qed.

Lemma handleEditorChangeWith_ledger guard (st : State) now view :
  (length (undoStack st) <= 10)%nat ->
  ledgerKept st (handleEditorChangeWith guard st now view)
  \/ exists r, ledgerInserted st (handleEditorChangeWith guard st now view) r.
Proof.
  intros H. unfold handleEditorChangeWith.
  destruct view as [v|]; [|left; split; reflexivity].
  destruct (isAutoLinkDisabled st); [left; split; reflexivity|].
  destruct (isInsideLink _ _); [left; split; reflexivity|].
  destruct (matchSuffix _ _) as [m|]; [|left; split; reflexivity].
  destruct (len (trim m) <? _); [left; split; reflexivity|].
  cbv zeta.
  set (cb := match v_file v with Some f => basename f | None => [] end).
  set (st1 := with_pending st _).
  assert (H1 : (length (undoStack st1) <= 10)%nat) by exact H.
  destruct (_ && _).
  - destruct (tryCompleteWord _ _ _ _ _ _) as [st'|] eqn:E.
    + right. destruct (tryCompleteWord_ledger _ _ _ _ _ _ _ H1 E) as [r Hr].
      exists r. exact Hr.
    + exact (dispatchMode_ledger st1 _ _ _ _ H1).
  - exact (dispatchMode_ledger st1 _ _ _ _ H1).
Qed.

Lemma keydownLoop_ledger (st : State) key now cur lastUndo target ms :
  ledgerKept st (keydownLoop st key now cur lastUndo target ms)
  \/ ledgerPopped st (keydownLoop st key now cur lastUndo target ms).
Proof.
  induction ms as [|m ms IH]; simpl.
  - left; split; reflexivity.
  - destruct (streq _ _); [|exact IH].
    destruct (_ || _); [|exact IH].
    destruct (_ || _); [|left; split; reflexivity].
    right.
    destruct (undoLastAutolink_ledger
                (temporarilyDisableAutoLink (emit st EvPreventDefault)))
      as [Hs Hp].
    split; [exact Hs|].
    rewrite Hp. simpl. rewrite pushed_app. simpl. apply app_nil_r.
Qed.

Lemma onKeydown_ledger (st : State) key now active :
  ledgerKept st (onKeydown st key now active)
  \/ ledgerPopped st (onKeydown st key now active).
Proof.
  unfold onKeydown.
  destruct (_ && _); [|left; split; reflexivity].
  destruct active; [|left; split; reflexivity].
  destruct (rev (undoStack st)) as [|r ?]; [left; split; reflexivity|].
  destruct (linkText r) as [[|c t]|]; try (left; split; reflexivity).
  destruct (Nat.eqb _ _); [|left; split; reflexivity].
  apply keydownLoop_ledger.
Qed.

Lemma undoCommand_ledger (st : State) :
  ledgerKept st (undoCommand st) \/ ledgerPopped st (undoCommand st).
Proof.
  unfold undoCommand. destruct (_ >? 0); [|left; split; reflexivity].
  right. exact (undoLastAutolink_ledger (temporarilyDisableAutoLink st)).
Qed.

(** Every operation keeps the ledger, inserts one record or pops one. *)
Lemma step_ledger (st : State) (op : Op) :
  (length (undoStack st) <= 10)%nat ->
  ledgerKept st (step st op)
  \/ (exists r, noPop op = true /\ ledgerInserted st (step st op) r)
  \/ (noPop op = false /\ ledgerPopped st (step st op)).
Proof.
  intros H. destruct op; simpl.
  - right; left. eexists. split; [reflexivity|].
    apply insertLink_ledger; assumption.
  - destruct (handleAutonomousMode_ledger st now typed matches cur H)
      as [Hk|[r Hr]]; [left; assumption | right; left; eauto].
  - right; left. eexists. split; [reflexivity|].
    apply acceptSuggestion_ledger; assumption.
  - right; right. split; [reflexivity | apply undoLastAutolink_ledger].
  - destruct (undoCommand_ledger st); [left | right; right]; auto.
  - destruct (onKeydown_ledger st key now active); [left | right; right]; auto.
  - destruct (handleEditorChangeWith_ledger completionGuard st now view H)
      as [Hk|[r Hr]]; [left; assumption | right; left; eauto].
  - left. unfold updateNoteList. destruct (indexFiles _ _ _ _ _).
    split; reflexivity.
  - left; split; reflexivity.
  - left; split; reflexivity.
Qed.

Lemma removelast_shorter {A : Type} (l : list A) :
  (length (removelast l) <= length l)%nat.
Proof.
  induction l as [|x l IH]; [simpl; lia|].
  destruct l as [|y l]; [simpl; lia|].
  change (removelast (x :: y :: l)) with (x :: removelast (y :: l)).
  simpl length in *. lia.
Qed.

Lemma step_bounded (st : State) (op : Op) :
  (length (undoStack st) <= 10)%nat ->
  (length (undoStack (step st op)) <= 10)%nat.
Proof.
  intros H.
  destruct (step_ledger st op H) as [[E _]|[[r [_ [E _]]]|[_ [E _]]]];
    rewrite E.
  - assumption.
  - rewrite lastN_length. lia.
  - pose proof (removelast_shorter (undoStack st)). lia.
Qed.

Lemma run_bounded (ops : list Op) (st : State) :
  (length (undoStack st) <= 10)%nat ->
  (length (undoStack (run st ops)) <= 10)%nat.
Proof.
  revert st. induction ops as [|op ops IH]; intros st H; simpl.
  - assumption.
  - apply IH. apply step_bounded. assumption.
Qed.

Lemma run_recent (ops : list Op) (st : State) :
  forallb noPop ops = true ->
  undoStack st = lastN 10 (pushed (log st)) ->
  undoStack (run st ops) = lastN 10 (pushed (log (run st ops))).
Proof.
  revert st. induction ops as [|op ops IH]; intros st Hops Hst; simpl.
  - assumption.
  - simpl in Hops. apply andb_true_iff in Hops. destruct Hops as [Hop Hops].
    apply IH; [assumption|].
    assert (Hb : (length (undoStack st) <= 10)%nat)
      by (rewrite Hst, lastN_length; lia).
    destruct (step_ledger st op Hb) as [[E P]|[[r [_ [E P]]]|[F _]]].
    + rewrite E, P. assumption.
    + rewrite E, P, Hst. apply lastN_lastN_snoc.
    + congruence.
Qed.

Lemma lastN_full (l : list UndoRecord) (r : UndoRecord) :
  (length l <= 10)%nat -> lastN 10 (l ++ [r]) = evict l ++ [r].
Proof.
  intros H. unfold evict.
  destruct (Nat.eqb (length l) 10) eqn:E.
  - apply Nat.eqb_eq in E. unfold lastN. rewrite length_app. simpl.
    replace (length l + 1 - 10)%nat with 1%nat by lia.
    destruct l; [discriminate | reflexivity].
  - apply Nat.eqb_neq in E. apply lastN_short. rewrite length_app. simpl. lia.
Qed.

(** C5. From the initial state, whatever operations run (insertions,
    undos, handlers, edits), the undo ledger holds at most 10 records.
    Each inserting operation appends its record and, when the ledger was
    full, drops the oldest one.  While nothing is undone, the ledger is the
    last 10 of all records pushed; after 15 insertions these are the
    records 6 to 15. *)
Theorem undo_ledger_bounded_fifo :
  (forall s a e ops,
     (length (undoStack (run (initial s a e) ops)) <= 10)%nat)
  /\ (forall st now w m d,
        (length (undoStack st) <= 10)%nat ->
        undoStack (insertLinkForCompletedWord st now w m d)
        = evict (undoStack st)
          ++ [recordFor (cursor (editor st))
                (getLine (editor st) (line (cursor (editor st)))) now m])
  /\ (forall st now typed m cur,
        (length (undoStack st) <= 10)%nat ->
        undoStack (handleAutonomousMode st now typed [m] cur)
        = evict (undoStack st)
          ++ [recordFor cur (getLine (editor st) (line cur)) now m])
  /\ (forall st now m typed,
        (length (undoStack st) <= 10)%nat ->
        undoStack (acceptSuggestion st now m typed)
        = evict (undoStack st)
          ++ [recordFor (cursor (editor st))
                (getLine (editor st) (line (cursor (editor st)))) now m])
  /\ (forall s a e ops,
        forallb noPop ops = true ->
        let st := run (initial s a e) ops in
        undoStack st = lastN 10 (pushed (log st))
        /\ (length (pushed (log st)) = 15%nat ->
            undoStack st = skipn 5 (pushed (log st))
            /\ length (undoStack st) = 10%nat)).
Proof.
  split; [|split; [|split; [|split]]].
  - intros. apply run_bounded. simpl. lia.
  - intros st now w m d H.
    rewrite (proj1 (insertLink_ledger st now w m d H)).
    apply lastN_full; assumption.
  - intros st now typed m cur H.
    rewrite (proj1 (handleAutonomousMode_ledger_one st now typed m cur H)).
    apply lastN_full; assumption.
  - intros st now m typed H.
    rewrite (proj1 (acceptSuggestion_ledger st now m typed H)).
    apply lastN_full; assumption.
  - intros s a e ops Hops st.
    assert (E : undoStack st = lastN 10 (pushed (log st)))
      by (apply run_recent; [assumption | reflexivity]).
    split; [exact E|]. intros H15. rewrite E. unfold lastN. rewrite H15.
    split; [reflexivity|]. rewrite length_skipn, H15. reflexivity.
Qed.

Lemma undo_ledger_bounded_fifo_witness :
  let st := run (initial DEFAULT_SETTINGS sampleApp (sampleEditor "Note " 5))
              fifteenInsertions in
  map timestamp (undoStack st)
  = map Some [6; 7; 8; 9; 10; 11; 12; 13; 14; 15]
  /\ undoStack st = skipn 5 (pushed (log st))
  /\ length (undoStack st) = 10%nat.
Proof.
  split; [vm_compute; reflexivity|].
  apply (proj2 (proj2 (proj2 (proj2 undo_ledger_bounded_fifo)))
           DEFAULT_SETTINGS sampleApp (sampleEditor "Note " 5)
           fifteenInsertions).
  - reflexivity.
  - vm_compute; reflexivity.
Defined.

(** ** Explicit undo *)

Lemma rev_snoc_inv (l earlier : list UndoRecord) (r : UndoRecord) :
  l = earlier ++ [r] -> rev l = r :: rev earlier.
Proof. intros ->. rewrite rev_app_distr. reflexivity. Qed.

Lemma undoLastAutolink_pops (st : State) earlier r :
  undoStack st = earlier ++ [r] ->
  undoStack (undoLastAutolink st) = earlier
  /\ editor (undoLastAutolink st)
     = editor_setCursor
         (editor_setLine (editor st) (u_line r) (original r)) (u_cursor r)
  /\ log (undoLastAutolink st)
     = log st ++ [EvPop; EvSetLine (u_line r) (original r);
                  EvSetCursor (u_cursor r); EvNotice].
Proof.
  intros H. unfold undoLastAutolink. rewrite (rev_snoc_inv _ _ _ H).
  simpl. rewrite rev_involutive. rewrite <- !app_assoc.
  repeat split; reflexivity.
Qed.

Lemma undoLastAutolink_empty (st : State) :
  undoStack st = [] -> undoLastAutolink st = st.
Proof. intros H. unfold undoLastAutolink. rewrite H. reflexivity. Qed.

Lemma getLine_setLine_same (e : Editor) n s :
  getLine (editor_setLine e n s) n = s.
Proof. unfold getLine. simpl. rewrite Nat.eqb_refl. reflexivity. Qed.

Lemma getLine_setLine_other (e : Editor) n s k :
  k <> n -> getLine (editor_setLine e n s) k = getLine e k.
Proof.
  intros H. unfold getLine. simpl.
  destruct (Nat.eqb k n) eqn:E; [apply Nat.eqb_eq in E; contradiction|].
  reflexivity.
Qed.

(** C6. With a ledger that is not empty, the undo operation (and the
    command that calls it) removes the most recent record, writes the
    stored original text back to the recorded line, leaves the other lines
    alone and puts the cursor where the record says; the age of the record
    plays no part.  With an empty ledger both leave the whole state as it
    is. *)
Theorem explicit_undo_restores :
  (forall st earlier r,
     undoStack st = earlier ++ [r] ->
     forall u, u = undoLastAutolink st \/ u = undoCommand st ->
     undoStack u = earlier
     /\ getLine (editor u) (u_line r) = original r
     /\ cursor (editor u) = u_cursor r
     /\ (forall n, n <> u_line r ->
                   getLine (editor u) n = getLine (editor st) n))
  /\ (forall st, undoStack st = [] ->
        undoLastAutolink st = st /\ undoCommand st = st).
Proof.
  split.
  - intros st earlier r H u Hu.
    assert (Hc : undoCommand st
                 = undoLastAutolink (temporarilyDisableAutoLink st)).
    { unfold undoCommand. rewrite H, length_app. simpl.
      destruct (_ >? 0) eqn:E; [reflexivity|].
      rewrite Z.gtb_ltb in E. apply Z.ltb_ge in E. lia. }
    assert (Hu' : exists s0, u = undoLastAutolink s0
                             /\ undoStack s0 = earlier ++ [r]
                             /\ editor s0 = editor st).
    { destruct Hu as [->| ->].
      - exists st. auto.
      - exists (temporarilyDisableAutoLink st). rewrite Hc. auto. }
    destruct Hu' as [s0 [-> [Hs He]]].
    destruct (undoLastAutolink_pops s0 earlier r Hs) as [E1 [E2 _]].
    rewrite E1, E2, He. repeat split.
    + apply getLine_setLine_same.
    + intros n Hn. apply getLine_setLine_other. assumption.
  - intros st H. split.
    + apply undoLastAutolink_empty; assumption.
    + unfold undoCommand. rewrite H. reflexivity.
Qed.

Lemma explicit_undo_restores_witness :
  let st := run (initial DEFAULT_SETTINGS sampleApp (sampleEditor "Note " 5))
              [OpInsertLink 1 (str "Note") noteMatch 4] in
  getLine (editor st) 0 = str "[[Note]] "
  /\ getLine (editor (undoCommand st)) 0 = str "Note "
  /\ cursor (editor (undoCommand st)) = {| line := 0; ch := 5 |}
  /\ undoStack (undoCommand st) = [].
Proof.
  intros st. split; [reflexivity|].
  pose (r := recordFor {| line := 0; ch := 5 |} (str "Note ") 1 noteMatch).
  destruct (proj1 explicit_undo_restores st [] r eq_refl (undoCommand st)
              (or_intror eq_refl)) as [H1 [H2 [H3 _]]].
  repeat split; assumption.
Defined.

(** ** Records are captured before the text is written *)

Lemma keepLast10_top (st : State) l r :
  undoStack st = l ++ [r] ->
  exists l', undoStack (keepLast10 st) = l' ++ [r].
Proof.
  intros H. unfold keepLast10.
  destruct (_ >? 10) eqn:E; [|exists l; assumption].
  simpl. rewrite H in *. destruct l as [|x l].
  - simpl in E. discriminate.
  - exists l. reflexivity.
Qed.

Lemma keepLast10_log (st : State) :
  exists evs, log (keepLast10 st) = log st ++ evs
              /\ forall n s, ~ In (EvSetLine n s) evs.
Proof.
  unfold keepLast10. destruct (_ >? 10).
  - exists [EvShift]. split; [reflexivity|].
    intros n s [H|[]]. discriminate.
  - exists []. split; [symmetry; apply app_nil_r|]. intros n s [].
Qed.

Lemma undo_after_write (st st' : State) (cur : Pos) (r : UndoRecord)
    (newLine : jsstring) (c : Pos) earlier :
  u_line r = line cur ->
  original r = getLine (editor st) (line cur) ->
  u_cursor r = cur ->
  undoStack st' = earlier ++ [r] ->
  editor st'
  = editor_setCursor (editor_setLine (editor st) (line cur) newLine) c ->
  (forall n, getLine (editor (undoLastAutolink st')) n
             = getLine (editor st) n)
  /\ cursor (editor (undoLastAutolink st')) = cur.
Proof.
  intros Hl Ho Hc Hs He.
  destruct (undoLastAutolink_pops st' earlier r Hs) as [_ [E _]].
  rewrite E, He, Hl, Ho, Hc. split; [|reflexivity].
  intros n. unfold getLine. simpl.
  destruct (Nat.eqb n (line cur)) eqn:En; [|reflexivity].
  apply Nat.eqb_eq in En. subst n. reflexivity.
Qed.

Lemma captures_intro (st st' : State) (cur : Pos) (r : UndoRecord)
    (evs : list Event) (newLine : jsstring) (c : Pos) earlier :
  log st' = log st ++ EvPush r :: evs ->
  u_line r = line cur ->
  original r = getLine (editor st) (line cur) ->
  u_cursor r = cur ->
  (forall n s, In (EvSetLine n s) evs -> n = line cur) ->
  undoStack st' = earlier ++ [r] ->
  editor st'
  = editor_setCursor (editor_setLine (editor st) (line cur) newLine) c ->
  capturesBeforeWriting st st' cur.
Proof.
  intros Hlog Hl Ho Hc Hev Hs He.
  exists r, evs. repeat split; try assumption.
  - exists earlier. assumption.
  - apply (undo_after_write st st' cur r newLine c earlier); assumption.
  - apply (undo_after_write st st' cur r newLine c earlier); assumption.
Qed.

Lemma recordFor_cursor (cur : Pos) ln now m :
  u_cursor (recordFor cur ln now m) = cur.
Proof. destruct cur; reflexivity. Qed.

(** The shape shared by the three inserting operations: push, write the
    line, move the cursor, then bound the ledger. *)
Lemma captures_push_write (st st' : State) (cur : Pos) now m newLine c :
  let r := recordFor cur (getLine (editor st) (line cur)) now m in
  let st2 := setCursor (setLine (pushUndo st r) (line cur) newLine) c in
  log st' = log (keepLast10 st2) ->
  undoStack st' = undoStack (keepLast10 st2) ->
  editor st' = editor (keepLast10 st2) ->
  capturesBeforeWriting st st' cur.
Proof.
  intros r st2 Hlog Hs He.
  destruct (keepLast10_log st2) as [evs [Hl Hno]].
  destruct (keepLast10_top st2 (undoStack st) r eq_refl) as [l' Hl'].
  apply (captures_intro st st' cur r
           (EvSetLine (line cur) newLine :: EvSetCursor c :: evs)
           newLine c l').
  - rewrite Hlog, Hl. simpl. rewrite <- !app_assoc. reflexivity.
  - reflexivity.
  - reflexivity.
  - apply recordFor_cursor.
  - intros n s [H|[H|H]].
    + injection H as <- _. reflexivity.
    + discriminate.
    + destruct (Hno n s H).
  - rewrite Hs. assumption.
  - rewrite He, keepLast10_editor. reflexivity.
Qed.

Lemma keepLast10_closePopup (st : State) :
  log (keepLast10 (closePopup st)) = log (keepLast10 st)
  /\ undoStack (keepLast10 (closePopup st)) = undoStack (keepLast10 st)
  /\ editor (keepLast10 (closePopup st)) = editor (keepLast10 st).
Proof.
  unfold keepLast10, closePopup. simpl.
  destruct (_ >? 10); repeat split; reflexivity.
Qed.

(** C8. Each inserting operation first pushes a record that holds the
    whole line and the cursor as they were, and only then writes the line;
    the record is on top of the ledger afterwards, so undoing gives the
    text and the cursor back.  With no single match [handleAutonomousMode]
    pushes nothing and writes nothing. *)
Theorem record_captured_before_write :
  (forall st now w m d,
     capturesBeforeWriting st (insertLinkForCompletedWord st now w m d)
       (cursor (editor st)))
  /\ (forall st now typed m cur,
        capturesBeforeWriting st (handleAutonomousMode st now typed [m] cur)
          cur)
  /\ (forall st now typed ms cur,
        length ms <> 1%nat ->
        editor (handleAutonomousMode st now typed ms cur) = editor st
        /\ log (handleAutonomousMode st now typed ms cur) = log st
        /\ undoStack (handleAutonomousMode st now typed ms cur)
           = undoStack st)
  /\ (forall st now m typed,
        capturesBeforeWriting st (acceptSuggestion st now m typed)
          (cursor (editor st))).
Proof.
  split; [|split; [|split]].
  - intros st now w m d. unfold insertLinkForCompletedWord. cbv zeta.
    eapply captures_push_write; reflexivity.
  - intros st now typed m cur. unfold handleAutonomousMode. cbv zeta.
    eapply captures_push_write; reflexivity.
  - intros st now typed ms cur H.
    destruct ms as [|m [|m' ms]]; [| simpl in H; congruence |];
      repeat split; reflexivity.
  - intros st now m typed. unfold acceptSuggestion. cbv zeta.
    destruct (lastIndexOf _ _ =? -1);
      eapply captures_push_write; apply keepLast10_closePopup.
Qed.

Lemma record_captured_before_write_witness :
  let st := sampleState DEFAULT_SETTINGS [sampleFile "Note"] noAliases
              "Note" 4 in
  length [noteMatch; noteMatch] <> 1%nat
  /\ editor (handleAutonomousMode st 1 (str "Note") [noteMatch; noteMatch]
               (cursor (editor st))) = editor st
  /\ capturesBeforeWriting st
       (handleAutonomousMode st 1 (str "Note") [noteMatch]
          (cursor (editor st))) (cursor (editor st)).
Proof.
  intros st.
  assert (H : length [noteMatch; noteMatch] <> 1%nat) by (simpl; lia).
  split; [exact H|]. split.
  - apply (proj1 (proj2 (proj2 record_captured_before_write)) st 1
             (str "Note") [noteMatch; noteMatch] (cursor (editor st)) H).
  - apply (proj1 (proj2 record_captured_before_write)).
Defined.

(** ** The guard of the word-completion branch *)

Lemma completionGuard_single (st : State) (w : jsstring) (m : Match) :
  completionGuard st w [m] = true.
Proof. unfold completionGuard. simpl. apply orb_true_r. Qed.

Lemma tryCompleteWord_guard (st : State) now ln cur cb :
  tryCompleteWord completionGuard st now ln cur cb
  = tryCompleteWord (fun _ _ _ => true) st now ln cur cb.
Proof.
  unfold tryCompleteWord.
  destruct (matchSuffix _ _) as [w|]; [|reflexivity].
  destruct (findMatches _ _ _) as [|m [|m' ms]]; try reflexivity.
  rewrite completionGuard_single. reflexivity.
Qed.

(** C9. Where the guard [wasWaiting || completedMatches.length === 1] is
    evaluated there is exactly one completed match, so the guard holds
    whatever the pending matches are; the handler that auto-links on
    exactly one candidate alone returns the same state as the handler of
    the source, for every state, time and view. *)
Theorem completion_guard_redundant :
  (forall st w m, completionGuard st w [m] = true)
  /\ (forall st now view,
        handleEditorChange st now view
        = handleEditorChange_single_candidate st now view).
Proof.
  split; [exact completionGuard_single|].
  intros st now view.
  unfold handleEditorChange, handleEditorChange_single_candidate,
    handleEditorChangeWith.
  destruct view as [v|]; [|reflexivity].
  destruct (isAutoLinkDisabled st); [reflexivity|].
  destruct (isInsideLink _ _); [reflexivity|].
  destruct (matchSuffix _ _) as [m|]; [|reflexivity].
  destruct (len (trim m) <? _); [reflexivity|].
  cbv zeta. rewrite tryCompleteWord_guard. reflexivity.
Qed.

(** ** Match resolver *)

Lemma Subseq_nil_l {A : Type} (l : list A) : Subseq [] l.
Proof. induction l; constructor; assumption. Qed.

Lemma Subseq_trans {A : Type} (l1 l2 l3 : list A) :
  Subseq l1 l2 -> Subseq l2 l3 -> Subseq l1 l3.
Proof.
  intros H12 H23. revert l1 H12.
  induction H23 as [|x l2 l3 H IH|x l2 l3 H IH]; intros l1 H12.
  - assumption.
  - constructor. apply IH. assumption.
  - inversion H12; subst.
    + constructor. apply IH. assumption.
    + apply Subseq_take. apply IH. assumption.
Qed.

Lemma Subseq_filter {A : Type} (p : A -> bool) (l : list A) :
  Subseq (filter p l) l.
Proof.
  induction l as [|x l IH]; simpl; [constructor|].
  destruct (p x); constructor; assumption.
Qed.

Lemma Subseq_firstn {A : Type} (n : nat) (l : list A) :
  Subseq (firstn n l) l.
Proof.
  revert n. induction l as [|x l IH]; intros [|n]; simpl.
  - constructor.
  - constructor.
  - apply Subseq_nil_l.
  - apply Subseq_take. apply IH.
Qed.

Lemma Subseq_In {A : Type} (l1 l2 : list A) (x : A) :
  Subseq l1 l2 -> In x l1 -> In x l2.
Proof.
  induction 1 as [|y l1 l2 H IH|y l1 l2 H IH]; simpl; auto.
  intros [->|Hx]; auto.
Qed.

Lemma Subseq_NoDup {A : Type} (l1 l2 : list A) :
  Subseq l1 l2 -> NoDup l2 -> NoDup l1.
Proof.
  induction 1 as [|y l1 l2 H IH|y l1 l2 H IH]; intros Hnd.
  - constructor.
  - inversion Hnd; auto.
  - inversion Hnd; subst. constructor; auto.
    intros Hy. eapply Subseq_In in Hy; eauto.
Qed.

Lemma Subseq_map {A B : Type} (f : A -> B) (l1 l2 : list A) :
  Subseq l1 l2 -> Subseq (map f l1) (map f l2).
Proof. induction 1; simpl; constructor; assumption. Qed.

Lemma mapSet_In {V : Type} (m : JsMap V) (k : jsstring) (v : V) k0 v0 :
  In (k0, v0) (mapSet m k v) -> In (k0, v0) m \/ (k0, v0) = (k, v).
Proof.
  induction m as [|[k' v'] m IH]; simpl.
  - intros [H|[]]. right. symmetry. assumption.
  - destruct (streq k' k) eqn:E.
    + apply streq_true_iff in E. subst k'. simpl.
      intros [H|H]; [right; symmetry; assumption | left; right; assumption].
    + simpl. intros [H|H]; [left; left; assumption|].
      destruct (IH H); [left; right; assumption | right; assumption].
Qed.

Lemma mapSet_keys {V : Type} (m : JsMap V) (k : jsstring) (v : V) x :
  In x (map fst (mapSet m k v)) -> In x (map fst m) \/ x = k.
Proof.
  intros H. apply in_map_iff in H. destruct H as [[k0 v0] [<- H]].
  apply mapSet_In in H. destruct H as [H|H].
  - left. apply in_map_iff. exists (k0, v0). auto.
  - right. injection H as -> _. reflexivity.
Qed.

Lemma mapSet_NoDup {V : Type} (m : JsMap V) (k : jsstring) (v : V) :
  NoDup (map fst m) -> NoDup (map fst (mapSet m k v)).
Proof.
  induction m as [|[k' v'] m IH]; simpl; intros H.
  - constructor; [intros [] | constructor].
  - inversion H; subst. destruct (streq k' k) eqn:E; simpl.
    + constructor; assumption.
    + constructor; [|apply IH; assumption].
      intros Hin. apply mapSet_keys in Hin. destruct Hin as [Hin| ->].
      * contradiction.
      * rewrite streq_refl in E. discriminate.
Qed.

Lemma mapSet_wellFormed (s : AutoLinkSettings) (t : JsMap TFile) (f : TFile) :
  titlesWellFormed s t ->
  titlesWellFormed s (mapSet t (normalize s (basename f)) f).
Proof.
  intros [Hnd Hk]. split.
  - apply mapSet_NoDup. assumption.
  - intros k g H. apply mapSet_In in H. destruct H as [H|H].
    + apply Hk. assumption.
    + injection H as -> ->. reflexivity.
Qed.

Lemma indexFiles_wellFormed (s : AutoLinkSettings) (a : App) files t al :
  titlesWellFormed s t ->
  titlesWellFormed s (fst (indexFiles s a files t al)).
Proof.
  revert t al. induction files as [|f files IH]; intros t al H; simpl.
  - assumption.
  - apply IH. apply mapSet_wellFormed. assumption.
Qed.

Lemma updateNoteList_wellFormed (st : State) :
  titlesWellFormed (settings (updateNoteList st))
    (noteTitles (updateNoteList st)).
Proof.
  unfold updateNoteList.
  pose proof (indexFiles_wellFormed (settings st) (app st)
                (getRelevantFiles st) [] []) as H.
  destruct (indexFiles _ _ _ _ _) as [t al]. simpl in *.
  apply H. split; [constructor | intros k f []].
Qed.

Lemma searchTitles_filter (entries : JsMap TFile) searchKey current acc :
  searchTitles entries searchKey current acc
  = acc ++ map titleMatch (filter (titleCond searchKey current) entries).
Proof.
  revert acc. induction entries as [|[k f] entries IH]; intros acc; simpl.
  - symmetry. apply app_nil_r.
  - rewrite IH. unfold titleCond at 2. simpl.
    destruct (negb (streq k current) && startsWith k searchKey); simpl.
    + rewrite <- app_assoc. reflexivity.
    + reflexivity.
Qed.

Lemma NoDup_snoc {A : Type} (l : list A) (x : A) :
  NoDup l -> ~ In x l -> NoDup (l ++ [x]).
Proof.
  induction l as [|y l IH]; simpl; intros Hnd Hx.
  - constructor; [intros [] | constructor].
  - inversion Hnd; subst. constructor.
    + rewrite in_app_iff. simpl. intros [H|[H|[]]]; [contradiction|].
      subst. apply Hx. left. reflexivity.
    + apply IH; [assumption|]. intros H. apply Hx. right. assumption.
Qed.

Lemma searchAliases_ok (entries : JsMap TFile) searchKey cb acc :
  exists add,
    searchAliases entries searchKey cb acc = acc ++ add
    /\ aliasMatchesOk entries searchKey cb acc add.
Proof.
  revert acc. induction entries as [|[alias f] entries IH]; intros acc; simpl.
  - exists []. split; [symmetry; apply app_nil_r|].
    split; [constructor|]. split; [rewrite app_nil_r; auto | constructor].
  - assert (Hskip : forall add,
              aliasMatchesOk entries searchKey cb acc add ->
              aliasMatchesOk ((alias, f) :: entries) searchKey cb acc add).
    { intros add [HF [HN HS]]. split; [|split].
      - eapply Forall_impl; [|exact HF]. simpl.
        intros m [H1 [H2 [H3 H4]]]. auto.
      - assumption.
      - apply Subseq_skip. assumption. }
    destruct (negb (streq (basename f) cb) && startsWith alias searchKey)
      eqn:Hc.
    + destruct (existsb (fun m => file_eqb (file m) f) acc) eqn:Hex.
      * destruct (IH acc) as [add [E Hok]]. exists add. auto.
      * destruct (IH (acc ++ [{| title := alias; file := f;
                                 isAlias := true |}]))
          as [add [E [HF [HN HS]]]].
        exists ({| title := alias; file := f; isAlias := true |} :: add).
        split; [rewrite E, <- app_assoc; reflexivity|].
        apply andb_true_iff in Hc. destruct Hc as [Hb Hsw].
        apply negb_true_iff, streq_false_iff in Hb.
        split; [|split].
        -- constructor; [simpl; auto|].
           eapply Forall_impl; [|exact HF]. simpl.
           intros m [H1 [H2 [H3 H4]]]. auto.
        -- intros Hnd.
           replace (acc ++ {| title := alias; file := f; isAlias := true |}
                    :: add)
             with ((acc ++ [{| title := alias; file := f;
                               isAlias := true |}]) ++ add)
             by (rewrite <- app_assoc; reflexivity).
           apply HN. rewrite map_app. simpl.
           apply NoDup_snoc; [assumption|].
           intros Hin. apply in_map_iff in Hin.
           destruct Hin as [m [Hm Hin]].
           assert (existsb (fun m => file_eqb (file m) f) acc = true).
           { apply existsb_exists. exists m. split; [assumption|].
             apply file_eqb_true_iff. assumption. }
           congruence.
        -- simpl. apply Subseq_take. assumption.
    + destruct (IH acc) as [add [E Hok]]. exists add. auto.
Qed.

Lemma wellFormed_files_NoDup (s : AutoLinkSettings) (t : JsMap TFile) :
  titlesWellFormed s t -> NoDup (map snd t).
Proof.
  intros [Hnd Hk].
  apply (NoDup_map_inv (fun g => normalize s (basename g))).
  rewrite map_map.
  replace (map (fun x => normalize s (basename (snd x))) t) with (map fst t);
    [assumption|].
  apply map_ext_in. intros [k f] Hin. simpl. apply Hk. assumption.
Qed.

Lemma titleMatch_entry (s : AutoLinkSettings) (t l : JsMap TFile) :
  titlesWellFormed s t ->
  (forall e, In e l -> In e t) ->
  map (fun m => (normalize s (title m), file m)) (map titleMatch l) = l.
Proof.
  intros [_ Hk] Hin. rewrite map_map.
  rewrite <- (map_id l) at 2. apply map_ext_in.
  intros [k f] He. simpl. rewrite <- (Hk k f); [reflexivity|].
  apply Hin. assumption.
Qed.

Lemma firstn_In {A : Type} (n : nat) (l : list A) (x : A) :
  In x (firstn n l) -> In x l.
Proof. apply Subseq_In. apply Subseq_firstn. Qed.

Lemma findMatches_loops (st : State) (typed current : jsstring) :
  findMatches st typed current
  = slice
      (searchAliases (aliases st) (normalize (settings st) typed) current
         (map titleMatch
            (filter (titleCond (normalize (settings st) typed)
                       (normalize (settings st) current))
               (noteTitles st))))
      0 (maxSuggestions (settings st)).
Proof. unfold findMatches. rewrite searchTitles_filter. reflexivity. Qed.

(** C2. On the index that [updateNoteList] builds, with a cap that is not
    negative, [findMatches] returns at most [maxSuggestions] matches.  A
    title match carries the basename of its file; its normalized key is in
    the title index, starts with the normalized search key and differs
    from the normalized current title, so its title is not the current
    title.  An alias match comes from the alias index, starts with the
    search key and belongs to a file other than the current one.  No file
    occurs twice.  The title matches come first, then the alias matches,
    each in the order of its index. *)
Theorem findMatches_sound (st0 : State) (typed current : jsstring) :
  let st := updateNoteList st0 in
  let s := settings st in
  let r := findMatches st typed current in
  0 <= maxSuggestions s ->
  Z.of_nat (length r) <= maxSuggestions s
  /\ (forall m, In m r -> isAlias m = false ->
        title m = basename (file m)
        /\ In (normalize s (title m), file m) (noteTitles st)
        /\ isPrefixOf (normalize s typed) (normalize s (title m))
        /\ normalize s (title m) <> normalize s current
        /\ title m <> current)
  /\ (forall m, In m r -> isAlias m = true ->
        In (title m, file m) (aliases st)
        /\ isPrefixOf (normalize s typed) (title m)
        /\ basename (file m) <> current)
  /\ (forall m, In m r -> basename (file m) <> current)
  /\ NoDup (map file r)
  /\ exists ts als,
       r = ts ++ als
       /\ Forall (fun m => isAlias m = false) ts
       /\ Forall (fun m => isAlias m = true) als
       /\ Subseq (map (fun m => (normalize s (title m), file m)) ts)
            (noteTitles st)
       /\ Subseq (map (fun m => (title m, file m)) als) (aliases st).
Proof.
  intros st s r Hmax.
  pose proof (updateNoteList_wellFormed st0) as WF. fold st in WF. fold s in WF.
  set (key := normalize s typed).
  set (T := map titleMatch
              (filter (titleCond key (normalize s current)) (noteTitles st))).
  destruct (searchAliases_ok (aliases st) key current T)
    as [A [EA [HF [HN HS]]]].
  set (n := Z.to_nat (maxSuggestions s)).
  assert (Er : r = firstn n T ++ firstn (n - length T) A).
  { unfold r. rewrite findMatches_loops.
    change (slice (searchAliases (aliases st) key current T) 0
              (maxSuggestions s) = firstn n T ++ firstn (n - length T) A).
    rewrite EA. rewrite slice_0_firstn by assumption. apply firstn_app. }
  assert (HT : forall m, In m T ->
             isAlias m = false
             /\ title m = basename (file m)
             /\ In (normalize s (title m), file m) (noteTitles st)
             /\ isPrefixOf key (normalize s (title m))
             /\ normalize s (title m) <> normalize s current).
  { intros m Hm. apply in_map_iff in Hm. destruct Hm as [[k f] [<- He]].
    apply filter_In in He. destruct He as [He Hc].
    unfold titleCond in Hc. simpl in Hc.
    apply andb_true_iff in Hc. destruct Hc as [Hne Hsw].
    apply negb_true_iff, streq_false_iff in Hne.
    apply startsWith_true_iff in Hsw.
    pose proof (proj2 WF k f He) as Hk. simpl. rewrite <- Hk.
    repeat split; assumption. }
  assert (HA : forall m, In m A ->
             isAlias m = true
             /\ In (title m, file m) (aliases st)
             /\ isPrefixOf key (title m)
             /\ basename (file m) <> current).
  { intros m Hm. rewrite Forall_forall in HF.
    destruct (HF m Hm) as [H1 [H2 [H3 H4]]].
    apply startsWith_true_iff in H3. auto. }
  assert (HTfiles : NoDup (map file T)).
  { unfold T. rewrite map_map. simpl.
    apply (Subseq_NoDup _ (map snd (noteTitles st))).
    - apply (Subseq_map snd). apply Subseq_filter.
    - apply (wellFormed_files_NoDup s). assumption. }
  split; [|split; [|split; [|split; [|split]]]].
  - rewrite Er, <- firstn_app. pose proof (firstn_le_length n (T ++ A)).
    unfold n in *. lia.
  - intros m Hm Hal. rewrite Er in Hm. apply in_app_iff in Hm.
    destruct Hm as [Hm|Hm]; apply firstn_In in Hm.
    + destruct (HT m Hm) as [_ [H1 [H2 [H3 H4]]]].
      repeat split; try assumption. intros Heq. apply H4.
      rewrite Heq. reflexivity.
    + destruct (HA m Hm) as [H1 _]. congruence.
  - intros m Hm Hal. rewrite Er in Hm. apply in_app_iff in Hm.
    destruct Hm as [Hm|Hm]; apply firstn_In in Hm.
    + destruct (HT m Hm) as [H1 _]. congruence.
    + destruct (HA m Hm) as [_ H]. exact H.
  - intros m Hm. rewrite Er in Hm. apply in_app_iff in Hm.
    destruct Hm as [Hm|Hm]; apply firstn_In in Hm.
    + destruct (HT m Hm) as [_ [H1 [_ [_ H4]]]].
      intros Heq. apply H4. rewrite H1, Heq. reflexivity.
    + apply (HA m Hm).
  - rewrite Er, <- firstn_app, <- firstn_map.
    apply (Subseq_NoDup _ (map file (T ++ A))); [apply Subseq_firstn|].
    apply HN. assumption.
  - exists (firstn n T), (firstn (n - length T) A).
    split; [exact Er|]. split; [|split; [|split]].
    + apply Forall_forall. intros m Hm. apply firstn_In in Hm.
      apply (HT m Hm).
    + apply Forall_forall. intros m Hm. apply firstn_In in Hm.
      apply (HA m Hm).
    + apply (Subseq_trans _
               (map (fun m => (normalize s (title m), file m)) T)).
      * apply Subseq_map. apply Subseq_firstn.
      * unfold T. rewrite (titleMatch_entry s (noteTitles st)).
        -- apply Subseq_filter.
        -- assumption.
        -- intros e He. apply filter_In in He. apply He.
    + apply (Subseq_trans _ (map (fun m => (title m, file m)) A)).
      * apply Subseq_map. apply Subseq_firstn.
      * assumption.
Qed.

Lemma findMatches_sound_witness :
  let st0 :=
    initial DEFAULT_SETTINGS
      {| markdownFiles := [sampleFile "Project Plan"; sampleFile "Today"];
         activeFile := None; frontmatterAliases := noAliases |}
      (sampleEditor "proj" 4) in
  let r := findMatches (updateNoteList st0) (str "proj") (str "Today") in
  map title r = [str "Project Plan"]
  /\ Z.of_nat (length r) <= 10
  /\ NoDup (map file r).
Proof.
  intros st0 r. split; [reflexivity|].
  assert (H : 0 <= maxSuggestions (settings (updateNoteList st0)))
    by (vm_compute; discriminate).
  destruct (findMatches_sound st0 (str "proj") (str "Today") H)
    as [H1 [_ [_ [_ [H4 _]]]]].
  split; assumption.
Defined.

(** In case-sensitive mode the same text matches nothing. *)
Lemma findMatches_case_sensitive_example :
  let s := {| mode := autonomous; minWordLength := 3; caseSensitive := true;
              includeAliases := true; customFolders := []; debounceMs := 300;
              maxSuggestions := 10; customAllowEnterAccept := true;
              customAutoInsertSingleMatch := true |} in
  findMatches
    (sampleState s [sampleFile "Project Plan"; sampleFile "Today"] noAliases
       "proj" 4) (str "proj") (str "Today") = []
  /\ map title
       (findMatches
          (sampleState s [sampleFile "Project Plan"; sampleFile "Today"]
             noAliases "Proj" 4) (str "Proj") (str "Today"))
     = [str "Project Plan"].
Proof. split; reflexivity. Qed.

(** ** Edit applier *)

Lemma slice_prefix3 (pre word post : jsstring) :
  slice (pre ++ word ++ post) 0 (len pre + len word) = pre ++ word.
Proof.
  rewrite app_assoc, <- len_app. apply slice_0_app.
Qed.

Lemma sliceFrom_suffix3 (pre word post : jsstring) :
  sliceFrom (pre ++ word ++ post) (len pre + len word) = post.
Proof.
  rewrite app_assoc, <- len_app. apply sliceFrom_app.
Qed.

Lemma insertLink_editor (st : State) now w m d :
  editor (insertLinkForCompletedWord st now w m d)
  = let cur := cursor (editor st) in
    let ln := getLine (editor st) (line cur) in
    let wordStart := Z.max 0 (len (slice ln 0 d) - len w) in
    let newLine := slice ln 0 wordStart ++ makeLink m ++ sliceFrom ln d in
    editor_setCursor (editor_setLine (editor st) (line cur) newLine)
      {| line := line cur;
         ch := Z.min (len newLine) (wordStart + len (makeLink m) + 1) |}.
Proof.
  unfold insertLinkForCompletedWord. cbv zeta.
  rewrite keepLast10_editor. reflexivity.
Qed.

(** C3, as amended.  The link is [[basename]] for a title match and
    [[basename|title]] for an alias match.  When the completed word is the
    text just before the delimiter position, the new line is the old one
    with that word replaced by the link: what precedes the word and what
    follows it, the delimiter first, are kept, and no other line changes.
    The cursor goes one past the end of the link, that is after the
    delimiter, and never beyond the end of the new line. *)
Theorem insertLink_replaces_word (st : State) (now : Z)
    (pre word post : jsstring) (m : Match) :
  getLine (editor st) (line (cursor (editor st))) = pre ++ word ++ post ->
  let cur := cursor (editor st) in
  let st' := insertLinkForCompletedWord st now word m (len pre + len word) in
  let link := makeLink m in
  (isAlias m = false -> link = str "[[" ++ basename (file m) ++ str "]]")
  /\ (isAlias m = true ->
      link = str "[[" ++ basename (file m) ++ str "|" ++ title m ++ str "]]")
  /\ getLine (editor st') (line cur) = pre ++ link ++ post
  /\ (forall n, n <> line cur ->
                getLine (editor st') n = getLine (editor st) n)
  /\ cursor (editor st')
     = {| line := line cur;
          ch := Z.min (len (pre ++ link ++ post)) (len pre + len link + 1) |}
  /\ (post <> [] -> ch (cursor (editor st')) = len pre + len link + 1).
Proof.
  intros Hln cur st' link.
  assert (Hed : editor st'
                = editor_setCursor
                    (editor_setLine (editor st) (line cur)
                       (pre ++ link ++ post))
                    {| line := line cur;
                       ch := Z.min (len (pre ++ link ++ post))
                               (len pre + len link + 1) |}).
  { unfold st', cur, link. rewrite insertLink_editor. cbv zeta.
    rewrite Hln. rewrite slice_prefix3, sliceFrom_suffix3.
    replace (Z.max 0 (len (pre ++ word) - len word)) with (len pre)
      by (rewrite len_app; pose proof (len_nonneg pre); lia).
    rewrite slice_0_app. reflexivity. }
  split; [|split; [|split; [|split; [|split]]]].
  - intros Ha. unfold link, makeLink. rewrite Ha. reflexivity.
  - intros Ha. unfold link, makeLink. rewrite Ha, <- !app_assoc.
    reflexivity.
  - rewrite Hed. apply getLine_setLine_same.
  - intros n Hn. rewrite Hed. apply getLine_setLine_other. assumption.
  - rewrite Hed. reflexivity.
  - intros Hpost. rewrite Hed.
    change (Z.min (len (pre ++ link ++ post)) (len pre + len link + 1)
            = len pre + len link + 1).
    rewrite !len_app.
    assert (0 < len post).
    { destruct post; [congruence|]. unfold len. simpl length. lia. }
    lia.
Qed.

Lemma insertLink_replaces_word_witness :
  let m := {| title := str "Focus"; file := sampleFile "Deep Work";
              isAlias := true |} in
  let st := sampleState DEFAULT_SETTINGS [sampleFile "Deep Work"] noAliases
              "see Focus now" 10 in
  let st' := insertLinkForCompletedWord st 1 (str "Focus") m 9 in
  getLine (editor st) 0 = str "see " ++ str "Focus" ++ str " now"
  /\ getLine (editor st') 0 = str "see [[Deep Work|Focus]] now"
  /\ cursor (editor st') = {| line := 0; ch := 24 |}.
Proof.
  intros m st st'.
  assert (H : getLine (editor st) (line (cursor (editor st)))
              = str "see " ++ str "Focus" ++ str " now") by reflexivity.
  split; [exact H|].
  destruct (insertLink_replaces_word st 1 (str "see ") (str "Focus")
              (str " now") m H) as [_ [_ [H3 [_ [H5 _]]]]].
  split; [exact H3 | exact H5].
Defined.

(** C3 as stated fails on the cursor: after [Note ] becomes [[[Note]] ]
    the link ends at offset 8, and the cursor is set to 9, after the
    delimiter. *)
Lemma insertLink_cursor_not_at_link_end :
  let st := sampleState DEFAULT_SETTINGS [sampleFile "Note"] noAliases
              "Note " 5 in
  let st' := insertLinkForCompletedWord st 1 (str "Note") noteMatch 4 in
  getLine (editor st') 0 = str "[[Note]] "
  /\ ch (cursor (editor st')) = 9
  /\ ch (cursor (editor st'))
     <> Z.min (len (getLine (editor st') 0)) (0 + len (makeLink noteMatch)).
Proof.
  split; [reflexivity|]. split; [reflexivity|]. vm_compute. discriminate.
Qed.

(** When white space separates the word from the delimiter position, the
    span that is replaced starts too far to the right. *)
Lemma insertLink_trailing_space_example :
  let st := sampleState DEFAULT_SETTINGS [sampleFile "Note"] noAliases
              "Note  " 6 in
  getLine (editor (handleEditorChange st 1 sampleView)) 0
  = str "N[[Note]] ".
Proof. reflexivity. Qed.

(** The label of an alias match is the key of the alias index, which is in
    lower case unless matching is case sensitive. *)
Lemma alias_label_example :
  let al := fun f => if file_eqb f (sampleFile "Deep Work")
                     then FmArray [FmString (str "Focus")] else FmAbsent in
  let st := sampleState DEFAULT_SETTINGS [sampleFile "Deep Work"] al
              "Focus " 6 in
  getLine (editor (handleEditorChange st 1 sampleView)) 0
  = str "[[Deep Work|focus]] ".
Proof. reflexivity. Qed.

(** ** Link detector *)

Lemma pairs_ind (P : jsstring -> Prop) :
  P [] ->
  (forall a, P [a]) ->
  (forall a b t, P t -> P (b :: t) -> P (a :: b :: t)) ->
  forall s, P s.
Proof.
  intros H0 H1 H2 s.
  assert (H : P s /\ forall a, P (a :: s)).
  { induction s as [|b t [IH1 IH2]].
    - split; [exact H0 | exact H1].
    - split; [apply IH2 | intros a; apply H2; [exact IH1 | apply IH2]]. }
  apply H.
Qed.

Lemma countPairs_cons2 (c a b : ascii) (t : jsstring) :
  countPairs c (a :: b :: t)
  = if Ascii.eqb a c && Ascii.eqb b c then 1 + countPairs c t
    else countPairs c (b :: t).
Proof. reflexivity. Qed.

Lemma countPairs_nonneg (c : ascii) (s : jsstring) : 0 <= countPairs c s.
Proof.
  induction s as [| a | a b t IH1 IH2] using pairs_ind;
    try (simpl; lia).
  rewrite countPairs_cons2. destruct (_ && _); lia.
Qed.

Lemma countPairs_cons_other (c a : ascii) (s : jsstring) :
  a <> c -> countPairs c (a :: s) = countPairs c s.
Proof.
  intros H. destruct s as [|b t]; [reflexivity|].
  rewrite countPairs_cons2.
  apply Ascii.eqb_neq in H. rewrite H. reflexivity.
Qed.

(** A character other than [c] separates the pairs on its two sides. *)
Lemma countPairs_break (c x : ascii) (a b : jsstring) :
  x <> c ->
  countPairs c (a ++ x :: b) = countPairs c a + countPairs c b.
Proof.
  intros Hx. induction a as [| a0 | a0 b0 t IH1 IH2] using pairs_ind.
  - simpl List.app. rewrite countPairs_cons_other by assumption. reflexivity.
  - simpl List.app. rewrite countPairs_cons2.
    apply Ascii.eqb_neq in Hx. rewrite Hx, andb_false_r.
    apply Ascii.eqb_neq in Hx.
    rewrite countPairs_cons_other by assumption. reflexivity.
  - change ((a0 :: b0 :: t) ++ x :: b) with (a0 :: b0 :: (t ++ x :: b)).
    rewrite !countPairs_cons2. destruct (_ && _).
    + rewrite IH1. lia.
    + exact IH2.
Qed.

(** Two [c] in a row add at least one pair to what precedes them. *)
Lemma countPairs_open (c : ascii) (a x : jsstring) :
  countPairs c a + 1 <= countPairs c (a ++ c :: c :: x).
Proof.
  induction a as [| a0 | a0 b0 t IH1 IH2] using pairs_ind.
  - simpl List.app. rewrite countPairs_cons2, Ascii.eqb_refl. cbn [andb].
    change (countPairs c []) with 0.
    pose proof (countPairs_nonneg c x). lia.
  - simpl List.app. rewrite countPairs_cons2, Ascii.eqb_refl, andb_true_r.
    change (countPairs c [a0]) with 0.
    destruct (Ascii.eqb a0 c).
    + pose proof (countPairs_nonneg c (c :: x)). lia.
    + rewrite countPairs_cons2, Ascii.eqb_refl. cbn [andb].
      pose proof (countPairs_nonneg c x). lia.
  - change ((a0 :: b0 :: t) ++ c :: c :: x)
      with (a0 :: b0 :: (t ++ c :: c :: x)).
    rewrite !countPairs_cons2. destruct (_ && _).
    + lia.
    + exact IH2.
Qed.

(** No pair of [c] in a text whose only [c] is its last character. *)
Lemma countPairs_body (c : ascii) (body : jsstring) (j : nat) :
  (forall y, In y body -> y <> c) ->
  countPairs c (firstn j (body ++ [c])) = 0.
Proof.
  revert j. induction body as [|y body IH]; intros j H.
  - destruct j as [|[|j]]; reflexivity.
  - destruct j as [|j]; [reflexivity|]. simpl firstn.
    rewrite countPairs_cons_other by (apply H; left; reflexivity).
    apply IH. intros z Hz. apply H. right. assumption.
Qed.

Lemma firstn_body (body post : jsstring) (c : ascii) (j : nat) :
  (j <= length body + 1)%nat ->
  firstn j (body ++ c :: c :: post) = firstn j (body ++ [c]).
Proof.
  intros H.
  change (c :: c :: post) with ([c] ++ c :: post).
  rewrite app_assoc, firstn_app.
  replace (j - length (body ++ [c]))%nat with O
    by (rewrite length_app; simpl; lia).
  simpl. apply app_nil_r.
Qed.

(** What lies before a column inside a link, after its two brackets. *)
Lemma slice_inside_link (pre body post : jsstring) (j : nat) :
  (j <= length body + 1)%nat ->
  slice (pre ++ str "[[" ++ body ++ str "]]" ++ post) 0
    (len pre + 2 + Z.of_nat j)
  = pre ++ "["%char :: "["%char :: firstn j (body ++ ["]"%char]).
Proof.
  intros H. pose proof (len_nonneg pre).
  rewrite slice_0_firstn by lia.
  replace (Z.to_nat (len pre + 2 + Z.of_nat j))
    with (length pre + (2 + j))%nat by (unfold len; lia).
  rewrite firstn_app_2. simpl. rewrite firstn_body by assumption.
  reflexivity.
Qed.

Lemma isInsideLink_body (pre body post : jsstring) (j : nat) :
  countPairs "]"%char pre <= countPairs "["%char pre ->
  (forall y, In y body -> y <> "]"%char) ->
  (j <= length body + 1)%nat ->
  isInsideLink (pre ++ str "[[" ++ body ++ str "]]" ++ post)
    (len pre + 2 + Z.of_nat j) = true.
Proof.
  intros Hpre Hbody Hj. unfold isInsideLink.
  rewrite slice_inside_link by assumption.
  pose proof (countPairs_open "["%char pre
                (firstn j (body ++ ["]"%char]))) as Ho.
  assert (Hc : countPairs "]"%char
                 (pre ++ "["%char :: "["%char
                      :: firstn j (body ++ ["]"%char]))
               = countPairs "]"%char pre).
  { rewrite countPairs_break by discriminate.
    rewrite countPairs_cons_other by discriminate.
    rewrite countPairs_body by assumption. lia. }
  rewrite Hc.
  destruct (_ >? _) eqn:E; [reflexivity|].
  rewrite Z.gtb_ltb in E. apply Z.ltb_ge in E. lia.
Qed.

(** C4, as amended.  Take a line that holds a produced link whose target
    and label have no closing bracket, after a text with at least as many
    [[ as ]].  At every column from the one after the two opening brackets
    up to the one before the end of the link, the detector answers
    true. *)
Theorem isInsideLink_produced_link (pre post : jsstring) (m : Match)
    (col : Z) :
  countPairs "]"%char pre <= countPairs "["%char pre ->
  (forall y, In y (basename (file m)) -> y <> "]"%char) ->
  (forall y, In y (title m) -> y <> "]"%char) ->
  len pre + 2 <= col ->
  col < len pre + len (makeLink m) ->
  isInsideLink (pre ++ makeLink m ++ post) col = true.
Proof.
  intros Hpre Hb Ht Hlo Hhi.
  set (body := basename (file m)
               ++ (if isAlias m then str "|" ++ title m else [])).
  assert (Hlink : makeLink m = str "[[" ++ body ++ str "]]").
  { unfold makeLink, body. rewrite <- !app_assoc. reflexivity. }
  assert (Hbody : forall y, In y body -> y <> "]"%char).
  { intros y Hy. unfold body in Hy. apply in_app_iff in Hy.
    destruct Hy as [Hy|Hy]; [apply Hb; assumption|].
    destruct (isAlias m); [|destruct Hy].
    destruct Hy as [<-|Hy]; [discriminate | apply Ht; assumption]. }
  rewrite Hlink in *. rewrite <- !app_assoc.
  rewrite !len_app in Hhi. change (len (str "[[")) with 2 in Hhi.
  change (len (str "]]")) with 2 in Hhi.
  replace col with (len pre + 2 + Z.of_nat (Z.to_nat (col - len pre - 2)))
    by lia.
  apply isInsideLink_body; try assumption.
  unfold len in *. lia.
Qed.

Lemma isInsideLink_produced_link_witness :
  let m := {| title := str "Focus"; file := sampleFile "Deep Work";
              isAlias := true |} in
  makeLink m = str "[[Deep Work|Focus]]"
  /\ isInsideLink (str "see " ++ makeLink m ++ str " now") 6 = true
  /\ isInsideLink (str "see " ++ makeLink m ++ str " now") 22 = true.
Proof.
  intros m. split; [reflexivity|].
  assert (Hpre : countPairs "]"%char (str "see ")
                 <= countPairs "["%char (str "see ")) by (vm_compute; discriminate).
  assert (Hb : forall y, In y (basename (file m)) -> y <> "]"%char).
  { intros y Hy. simpl in Hy.
    repeat (destruct Hy as [<-|Hy]; [discriminate|]). destruct Hy. }
  assert (Ht : forall y, In y (title m) -> y <> "]"%char).
  { intros y Hy. simpl in Hy.
    repeat (destruct Hy as [<-|Hy]; [discriminate|]). destruct Hy. }
  split;
    apply (isInsideLink_produced_link (str "see ") (str " now") m _
             Hpre Hb Ht); vm_compute; congruence.
Defined.

(** C4 as stated fails between the two opening brackets: column 1 is
    inside the span of the link, and the detector answers false. *)
Lemma isInsideLink_between_brackets :
  makeLink noteMatch = str "[[Note]]"
  /\ 0 < 1 < len (makeLink noteMatch)
  /\ isInsideLink (makeLink noteMatch ++ str " ") 1 = false.
Proof.
  split; [reflexivity|]. split; [vm_compute; split; reflexivity|].
  reflexivity.
Qed.

(** Why the text before the link and the link itself are constrained. *)
Lemma isInsideLink_unbalanced_examples :
  isInsideLink (str "a]] [[Note]]") 8 = false
  /\ isInsideLink (str "[[a]]b]]") 6 = false.
Proof. split; reflexivity. Qed.

(** ** Auto-link on word completion *)

Lemma log_app_nil (st : State) (evs : list Event) :
  log st = log st ++ evs -> evs = [].
Proof.
  intros H. apply (app_inv_head (log st)). rewrite app_nil_r. symmetry.
  assumption.
Qed.



Lemma wroteLine_same_log (st st' : State) :
  log st' = log st -> ~ wroteLine st st'.
Proof.
  intros H [evs [n [s [E Hin]]]]. rewrite H in E.
  apply log_app_nil in E. subst evs. destruct Hin.
Qed.







(** After a delimiter that is not white space or a hyphen the handler
    stops before the completion branch: the pattern of the fragment does
    not match the text before the cursor.  [Note] has one candidate and
    the full stop is a delimiter, and [Note.] stays as it is. *)
Lemma autolink_punctuation_example :
  let st := sampleState DEFAULT_SETTINGS [sampleFile "Note"] noAliases
              "Note." 5 in
  isDelimiter "."%char = true
  /\ findMatches st (str "Note") (str "Today") = [noteMatch]
  /\ matchSuffix isFragmentChar (slice (getLine (editor st) 0) 0 5) = None
  /\ getLine (editor (handleEditorChange st 1 sampleView)) 0 = str "Note."
  /\ log (handleEditorChange st 1 sampleView) = log st.
Proof. repeat split; reflexivity. Qed.

(** ** Implicit undo *)

Lemma takeWhile_skipn (p : ascii -> bool) (s : jsstring) :
  s = takeWhile p s ++ skipn (length (takeWhile p s)) s.
Proof.
  induction s as [|x s IH]; simpl; [reflexivity|].
  destruct (p x); simpl; [f_equal; exact IH | reflexivity].
Qed.

Lemma linkAt_shape (s mt base : jsstring) :
  linkAt s = Some (mt, base) ->
  isLinkText base mt /\ exists rest, s = mt ++ rest.
Proof.
  unfold linkAt. destruct s as [|a [|b r]]; try discriminate.
  destruct (Ascii.eqb a "["%char) eqn:Ea; [|discriminate].
  destruct (Ascii.eqb b "["%char) eqn:Eb; [|discriminate].
  apply Ascii.eqb_eq in Ea, Eb. subst a b. cbn [andb].
  pose proof (takeWhile_skipn notBarOrClose r) as Hr.
  destruct (takeWhile notBarOrClose r) as [|x g] eqn:Eg; [discriminate|].
  destruct (skipn (length (x :: g)) r) as [|c [|d r']] eqn:Es;
    try discriminate.
  destruct (Ascii.eqb c "]"%char) eqn:Ec.
  - destruct (Ascii.eqb d "]"%char) eqn:Ed; [|discriminate].
    apply Ascii.eqb_eq in Ec, Ed. subst c d.
    intros H. injection H as <- <-. split.
    + unfold isLinkText. split; [discriminate|]. left. reflexivity.
    + exists r'. rewrite Hr. simpl. rewrite <- !app_assoc. reflexivity.
  - destruct (Ascii.eqb c "|"%char) eqn:Ebar; [|discriminate].
    apply Ascii.eqb_eq in Ebar. subst c.
    pose proof (takeWhile_skipn notClose (d :: r')) as Hl.
    destruct (takeWhile notClose (d :: r')) as [|y lb] eqn:El;
      [discriminate|].
    destruct (skipn (length (y :: lb)) (d :: r')) as [|e [|f r'']] eqn:Es';
      try discriminate.
    destruct (Ascii.eqb e "]"%char) eqn:Ee; [|discriminate].
    destruct (Ascii.eqb f "]"%char) eqn:Ef; [|discriminate].
    apply Ascii.eqb_eq in Ee, Ef. subst e f. cbn [andb].
    intros H. injection H as <- <-. split.
    + unfold isLinkText. split; [discriminate|]. right. exists (y :: lb).
      split; [discriminate | reflexivity].
    + exists r''. rewrite Hr, Hl. simpl. rewrite <- !app_assoc.
      simpl. rewrite <- !app_assoc. reflexivity.
Qed.

Lemma linkAt_plain (base post : jsstring) :
  base <> [] -> forallb notBarOrClose base = true ->
  linkAt (str "[[" ++ base ++ str "]]" ++ post)
  = Some (str "[[" ++ base ++ str "]]", base).
Proof.
  intros Hne Hb.
  change (str "[[" ++ base ++ str "]]" ++ post)
    with ("["%char :: "["%char :: base ++ "]"%char :: "]"%char :: post).
  unfold linkAt. change (Ascii.eqb "[" "[") with true. cbn [andb].
  rewrite (takeWhile_app_stop notBarOrClose base "]" ("]"%char :: post) Hb
             eq_refl).
  destruct base as [|b0 bs]; [contradiction|].
  rewrite skipn_length_app.
  change (Ascii.eqb "]" "]") with true. cbv iota. reflexivity.
Qed.

Lemma linkAt_alias (base label post : jsstring) :
  base <> [] -> forallb notBarOrClose base = true ->
  label <> [] -> forallb notClose label = true ->
  linkAt (str "[[" ++ base ++ (str "|" ++ label) ++ str "]]" ++ post)
  = Some (str "[[" ++ base ++ (str "|" ++ label) ++ str "]]", base).
Proof.
  intros Hne Hb Hl Hc.
  change (str "[[" ++ base ++ (str "|" ++ label) ++ str "]]" ++ post)
    with ("["%char :: "["%char
          :: base ++ "|"%char :: label ++ "]"%char :: "]"%char :: post).
  unfold linkAt. change (Ascii.eqb "[" "[") with true. cbn [andb].
  rewrite (takeWhile_app_stop notBarOrClose base "|"
             (label ++ "]"%char :: "]"%char :: post) Hb eq_refl).
  destruct base as [|b0 bs]; [contradiction|].
  rewrite skipn_length_app.
  destruct label as [|l0 ls]; [contradiction|].
  simpl List.app.
  change (Ascii.eqb "|" "]") with false.
  change (Ascii.eqb "|" "|") with true. cbv iota.
  change (l0 :: ls ++ "]"%char :: "]"%char :: post)
    with ((l0 :: ls) ++ "]"%char :: "]"%char :: post).
  rewrite (takeWhile_app_stop notClose (l0 :: ls) "]" ("]"%char :: post) Hc
             eq_refl).
  rewrite skipn_length_app.
  change (Ascii.eqb "]" "]") with true. cbn [andb]. reflexivity.
Qed.

(** Every result of the scan is the text of a link, found in the line at
    the offset it reports. *)
Lemma scanLinks_sound (s : jsstring) (skip : nat) (pos : Z) (m : LinkMatch) :
  In m (scanLinks s skip pos) ->
  isLinkText (baseText m) (matched m)
  /\ exists a b, s = a ++ matched m ++ b /\ index m = pos + len a.
Proof.
  revert skip pos. induction s as [|x s IH]; intros skip pos Hin.
  - destruct Hin.
  - assert (Hshift : In m (scanLinks s (pred skip) (pos + 1))
                     \/ In m (scanLinks s O (pos + 1))
                     \/ (exists k, In m (scanLinks s k (pos + 1))) ->
              isLinkText (baseText m) (matched m)
              /\ exists a b, x :: s = a ++ matched m ++ b
                             /\ index m = pos + len a).
    { intros H.
      assert (H' : exists k, In m (scanLinks s k (pos + 1))).
      { destruct H as [H|[H|H]]; eauto. }
      destruct H' as [k Hk]. destruct (IH _ _ Hk) as [Hl [a [b [E Hi]]]].
      split; [assumption|]. exists (x :: a), b. split.
      - simpl. rewrite E. reflexivity.
      - rewrite Hi. unfold len. simpl length. lia. }
    destruct skip as [|k]; cbn [scanLinks] in Hin.
    + destruct (linkAt (x :: s)) as [[mt base]|] eqn:El.
      * destruct Hin as [<-|Hin]; [|apply Hshift; eauto].
        cbn [baseText matched index]. destruct (linkAt_shape _ _ _ El) as [Hl [rest E]].
        split; [assumption|]. exists [], rest. split; [exact E|].
        unfold len. simpl. lia.
      * apply Hshift; eauto.
    + apply Hshift; eauto.
Qed.

Lemma linkAt_wellFormed (s mt base : jsstring) :
  linkAt s = Some (mt, base) ->
  wellFormedLink base mt /\ exists rest, s = mt ++ rest.
Proof.
  unfold linkAt. destruct s as [|a [|b r]]; try discriminate.
  destruct (Ascii.eqb a "["%char) eqn:Ea; [|discriminate].
  destruct (Ascii.eqb b "["%char) eqn:Eb; [|discriminate].
  apply Ascii.eqb_eq in Ea, Eb. subst a b. cbn [andb].
  pose proof (takeWhile_skipn notBarOrClose r) as Hr.
  pose proof (takeWhile_all notBarOrClose r) as Hab.
  destruct (takeWhile notBarOrClose r) as [|x g] eqn:Eg; [discriminate|].
  destruct (skipn (length (x :: g)) r) as [|c [|d r']] eqn:Es;
    try discriminate.
  destruct (Ascii.eqb c "]"%char) eqn:Ec.
  - destruct (Ascii.eqb d "]"%char) eqn:Ed; [|discriminate].
    apply Ascii.eqb_eq in Ec, Ed. subst c d.
    intros H. injection H as <- <-. split.
    + split; [discriminate|]. split; [exact Hab|]. left. reflexivity.
    + exists r'. rewrite Hr. simpl. rewrite <- !app_assoc. reflexivity.
  - destruct (Ascii.eqb c "|"%char) eqn:Ebar; [|discriminate].
    apply Ascii.eqb_eq in Ebar. subst c.
    pose proof (takeWhile_skipn notClose (d :: r')) as Hl.
    pose proof (takeWhile_all notClose (d :: r')) as Hlb.
    destruct (takeWhile notClose (d :: r')) as [|y lb] eqn:El;
      [discriminate|].
    destruct (skipn (length (y :: lb)) (d :: r')) as [|e [|f r'']] eqn:Es';
      try discriminate.
    destruct (Ascii.eqb e "]"%char) eqn:Ee; [|discriminate].
    destruct (Ascii.eqb f "]"%char) eqn:Ef; [|discriminate].
    apply Ascii.eqb_eq in Ee, Ef. subst e f. cbn [andb].
    intros H. injection H as <- <-. split.
    + split; [discriminate|]. split; [exact Hab|]. right. exists (y :: lb).
      split; [discriminate|]. split; [exact Hlb | reflexivity].
    + exists r''. rewrite Hr, Hl. simpl. rewrite <- !app_assoc.
      simpl. rewrite <- !app_assoc. reflexivity.
Qed.

(** The pattern matches at the start of a text exactly when a link
    starts the text. *)
Lemma linkAt_of_wellFormed (base text rest : jsstring) :
  wellFormedLink base text -> linkAt (text ++ rest) = Some (text, base).
Proof.
  intros [Hne [Hb [->|[label [Hl [Hc ->]]]]]].
  - replace ((str "[[" ++ base ++ str "]]") ++ rest)
      with (str "[[" ++ base ++ str "]]" ++ rest)
      by (rewrite <- !app_assoc; reflexivity).
    apply linkAt_plain; assumption.
  - replace ((str "[[" ++ base ++ str "|" ++ label ++ str "]]") ++ rest)
      with (str "[[" ++ base ++ (str "|" ++ label) ++ str "]]" ++ rest)
      by (rewrite <- !app_assoc; reflexivity).
    exact (linkAt_alias base label rest Hne Hb Hl Hc).
Qed.

Lemma wellFormedLink_cons (base text : jsstring) :
  wellFormedLink base text -> exists t, text = "["%char :: t.
Proof.
  intros [_ [_ [->|[label [_ [_ ->]]]]]]; eexists; reflexivity.
Qed.

Lemma scanLinks_skip (a s : jsstring) (pos : Z) :
  scanLinks (a ++ s) (length a) pos = scanLinks s O (pos + len a).
Proof.
  revert pos. induction a as [|c a IH]; intros pos.
  - simpl List.app. simpl length. change (len []) with 0.
    rewrite Z.add_0_r. reflexivity.
  - simpl List.app. simpl length. cbn [scanLinks]. rewrite IH. f_equal.
    unfold len. simpl length. lia.
Qed.

(** A link at the head of the text is the first result, and the scan
    goes on behind it. *)
Lemma scanLinks_hit (text base rest : jsstring) (pos : Z) :
  wellFormedLink base text ->
  scanLinks (text ++ rest) O pos
  = {| index := pos; matched := text; baseText := base |}
    :: scanLinks rest O (pos + len text).
Proof.
  intros W. pose proof (linkAt_of_wellFormed base text rest W) as E.
  destruct (wellFormedLink_cons _ _ W) as [t ->].
  simpl List.app in *. cbn [scanLinks]. rewrite E. f_equal.
  replace (length ("["%char :: t) - 1)%nat with (length t)
    by (simpl length; lia).
  rewrite scanLinks_skip. f_equal. unfold len. simpl length. lia.
Qed.

(** Every result of the scan is a link that stands in the text. *)
Lemma scanLinks_occurs_at (s : jsstring) (skip : nat) (pos : Z)
    (m : LinkMatch) :
  In m (scanLinks s skip pos) ->
  wellFormedLink (baseText m) (matched m)
  /\ exists a b, s = a ++ matched m ++ b /\ index m = pos + len a.
Proof.
  revert skip pos. induction s as [|x s IH]; intros skip pos Hin.
  - destruct Hin.
  - assert (Hshift : (exists k, In m (scanLinks s k (pos + 1))) ->
              wellFormedLink (baseText m) (matched m)
              /\ exists a b, x :: s = a ++ matched m ++ b
                             /\ index m = pos + len a).
    { intros [k Hk]. destruct (IH _ _ Hk) as [Hl [a [b [E Hi]]]].
      split; [assumption|]. exists (x :: a), b. split.
      - simpl. rewrite E. reflexivity.
      - rewrite Hi. unfold len. simpl length. lia. }
    destruct skip as [|k]; cbn [scanLinks] in Hin.
    + destruct (linkAt (x :: s)) as [[mt base]|] eqn:El.
      * destruct Hin as [<-|Hin]; [|apply Hshift; eauto].
        cbn [baseText matched index].
        destruct (linkAt_wellFormed _ _ _ El) as [Hl [rest E]].
        split; [assumption|]. exists [], rest. split; [exact E|].
        unfold len. simpl. lia.
      * apply Hshift; eauto.
    + apply Hshift; eauto.
Qed.

Lemma scanLinks_occurs (ln : jsstring) (m : LinkMatch) :
  In m (scanLinks ln O 0) -> linkOccurs ln m.
Proof.
  intros H. destruct (scanLinks_occurs_at _ _ _ _ H) as [W [a [b [E Hi]]]].
  split; [exact W|]. exists a, b. split; [exact E | lia].
Qed.

(** A link that no earlier link overlaps is found by the scan. *)
Lemma scanLinks_finds (n : nat) :
  forall (a text b base : jsstring) (pos i : Z),
    (length a <= n)%nat ->
    wellFormedLink base text ->
    (forall a' t' b' base',
        a ++ text ++ b = a' ++ t' ++ b' ->
        wellFormedLink base' t' ->
        (length a' < length a)%nat ->
        (length a' + length t' <= length a)%nat) ->
    i = pos + len a ->
    In {| index := i; matched := text; baseText := base |}
      (scanLinks (a ++ text ++ b) O pos).
Proof.
  assert (Hhead : forall text b base pos i,
            wellFormedLink base text -> i = pos + len [] ->
            In {| index := i; matched := text; baseText := base |}
              (scanLinks ([] ++ text ++ b) O pos)).
  { intros text b base pos i W ->. simpl List.app.
    rewrite (scanLinks_hit _ _ _ _ W). left.
    change (len []) with 0. rewrite Z.add_0_r. reflexivity. }
  induction n as [|n IH]; intros a text b base pos i Hn W Hov Hi.
  - destruct a; [apply Hhead; assumption | simpl in Hn; lia].
  - destruct a as [|c a0]; [apply Hhead; assumption|].
    destruct (linkAt ((c :: a0) ++ text ++ b)) as [[t' base']|] eqn:E.
    + destruct (linkAt_wellFormed _ _ _ E) as [W' [rest' Hs]].
      assert (Hle : (length t' <= length (c :: a0))%nat).
      { apply (Hov [] t' rest' base'); [exact Hs | exact W' |].
        simpl. lia. }
      assert (Hsplit : exists l, c :: a0 = t' ++ l
                                 /\ rest' = l ++ text ++ b).
      { destruct (app_eq_app _ _ _ _ Hs) as [l [[Ha Hr]|[Ht Hr]]].
        - exists l. split; assumption.
        - assert (l = []).
          { apply length_zero_iff_nil. rewrite Ht, length_app in Hle.
            lia. }
          subst l. rewrite app_nil_r in Ht. simpl in Hr.
          exists []. rewrite app_nil_r. split; [symmetry; exact Ht|].
          symmetry. exact Hr. }
      destruct Hsplit as [l [Ha Hr]].
      destruct (wellFormedLink_cons _ _ W') as [t0 Et].
      assert (Hlen : length (c :: a0) = (length t' + length l)%nat)
        by (rewrite Ha, length_app; reflexivity).
      rewrite Ha, <- app_assoc, (scanLinks_hit _ _ _ _ W'). right.
      apply IH.
      * rewrite Et in Hlen. simpl in Hlen. simpl in Hn. lia.
      * exact W.
      * intros a' t'' b' base'' Hdec W'' Hlt.
        assert (H := Hov (t' ++ a') t'' b' base'').
        rewrite Hlen, length_app in H.
        assert (Hd : (c :: a0) ++ text ++ b = (t' ++ a') ++ t'' ++ b').
        { rewrite Ha, <- !app_assoc. f_equal. exact Hdec. }
        specialize (H Hd W''). lia.
      * rewrite Hi. unfold len. rewrite Hlen. lia.
    + simpl List.app in *. cbn [scanLinks]. rewrite E.
      apply IH.
      * simpl in Hn. lia.
      * exact W.
      * intros a' t'' b' base'' Hdec W'' Hlt.
        assert (H := Hov (c :: a') t'' b' base'').
        simpl in H. rewrite Hdec in H. specialize (H eq_refl W''). lia.
      * rewrite Hi. unfold len. simpl length. lia.
Qed.

Lemma scanLinks_complete (ln : jsstring) (m : LinkMatch) :
  noOverlap ln -> linkOccurs ln m -> In m (scanLinks ln O 0).
Proof.
  intros Hno Hm. pose proof Hm as [W [a [b [E Hi]]]].
  destruct m as [i text base]. cbn [index matched baseText] in *.
  rewrite E. apply (scanLinks_finds (length a)); [lia | exact W | | lia].
  intros a' t' b' base' Hdec W' Hlt.
  assert (Hm' : linkOccurs ln {| index := len a'; matched := t';
                                 baseText := base' |}).
  { split; [exact W'|]. exists a', b'.
    split; [rewrite E; exact Hdec | reflexivity]. }
  pose proof (Hno _ _ Hm' Hm) as H. cbn [index matched] in H.
  unfold len in *. lia.
Qed.

(** On a line whose links do not overlap, the scan finds the links of
    the line and nothing else. *)
Lemma scanLinks_iff (ln : jsstring) (m : LinkMatch) :
  noOverlap ln -> (In m (scanLinks ln O 0) <-> linkOccurs ln m).
Proof.
  intros Hno. split; [apply scanLinks_occurs|].
  apply scanLinks_complete. exact Hno.
Qed.

Lemma overlapFree_noOverlap (ln : jsstring) :
  overlapFree ln = true -> noOverlap ln.
Proof.
  intros H m m' [W [a [b [E Hi]]]] [W' [a' [b' [E' Hi']]]] Hlt.
  destruct (Z.le_gt_cases (index m + len (matched m)) (index m'))
    as [Hle|Hgt]; [exact Hle | exfalso].
  destruct (wellFormedLink_cons _ _ W) as [t0 Et].
  unfold overlapFree in H. rewrite forallb_forall in H.
  assert (Hin : In (length a) (seq 0 (length ln))).
  { apply in_seq. rewrite E, !length_app, Et. simpl. lia. }
  specialize (H _ Hin).
  assert (Hsk : skipn (length a) ln = matched m ++ b)
    by (rewrite E; apply skipn_length_app).
  rewrite Hsk, (linkAt_of_wellFormed _ _ b W) in H.
  rewrite forallb_forall in H.
  assert (Hin' : In (length a')
                   (seq (S (length a)) (length (matched m) - 1))).
  { apply in_seq. unfold len in *. rewrite Et in *. simpl length in *.
    lia. }
  specialize (H _ Hin').
  assert (Hsk' : skipn (length a') ln = matched m' ++ b')
    by (rewrite E'; apply skipn_length_app).
  rewrite Hsk', (linkAt_of_wellFormed _ _ b' W') in H. discriminate.
Qed.

Lemma nearLinkb_true_iff (key : Key) (c : Z) (m : LinkMatch) :
  nearLinkb key c m = true <-> nearLink key c m.
Proof.
  unfold nearLinkb, nearLink, isBackspaceNearLink, isDeleteNearLink.
  destruct key; cbn [orb].
  - rewrite orb_false_r, andb_true_iff, Z.gtb_ltb, Z.ltb_lt, Z.leb_le.
    reflexivity.
  - rewrite andb_true_iff, Z.geb_leb, Z.leb_le, Z.ltb_lt. reflexivity.
  - split; [discriminate | intros []].
Qed.

(** The loop stops at the first link with the target under the key; the
    time test does not depend on the link, so the loop undoes exactly
    when some such link exists and the time test passes. *)
Lemma keydownLoop_fires (st : State) key now cur r target ms :
  keydownLoop st key now cur r target ms
  = if existsb (fun m => streq (baseText m) target
                         && nearLinkb key (ch cur) m) ms
       && (noTimestamp r || (now - timestampOr0 r <=? timeLimit))
    then undoLastAutolink
           (temporarilyDisableAutoLink (emit st EvPreventDefault))
    else st.
Proof.
  induction ms as [|m ms IH]; [reflexivity|].
  cbn [keydownLoop existsb]. fold (nearLinkb key (ch cur) m).
  destruct (streq (baseText m) target); [|exact IH].
  destruct (nearLinkb key (ch cur) m); [|exact IH].
  cbn [andb orb]. reflexivity.
Qed.

Lemma undoLastAutolink_disabled (st : State) :
  isAutoLinkDisabled (undoLastAutolink st) = isAutoLinkDisabled st.
Proof. unfold undoLastAutolink. destruct (rev _); reflexivity. Qed.

Lemma snoc_not_self {A : Type} (l : list A) (x : A) : l ++ [x] <> l.
Proof.
  intros H. apply (f_equal (@length A)) in H.
  rewrite length_app in H. simpl in H. lia.
Qed.

(** The key handler with a dated record on top of the ledger. *)
Lemma onKeydown_fires (st : State) key now earlier r t target :
  undoStack st = earlier ++ [r] ->
  timestamp r = Some t -> t <> 0 ->
  linkText r = Some target ->
  let cur := cursor (editor st) in
  let ln := getLine (editor st) (line cur) in
  onKeydown st key now true
  = if Nat.eqb (line cur) (u_line r)
       && existsb (fun m => streq (baseText m) target
                            && nearLinkb key (ch cur) m) (scanLinks ln O 0)
       && (now - t <=? timeLimit)
    then undoLastAutolink
           (temporarilyDisableAutoLink (emit st EvPreventDefault))
    else st.
Proof.
  intros Hs Ht Ht0 Hl cur ln.
  assert (Hno : noTimestamp r = false).
  { unfold noTimestamp. rewrite Ht. apply Z.eqb_neq. assumption. }
  assert (Hor : timestampOr0 r = t) by (unfold timestampOr0; rewrite Ht; reflexivity).
  unfold onKeydown. rewrite Hs, rev_app_distr, length_app. simpl rev.
  cbn [List.app]. rewrite Hl. fold cur. fold ln.
  replace (Z.of_nat (length earlier + length [r]) >? 0) with true
    by (symmetry; rewrite Z.gtb_ltb; apply Z.ltb_lt; simpl; lia).
  rewrite andb_true_r.
  destruct (isUndoKey key) eqn:Ek.
  - destruct target as [|c0 t0].
    + replace (existsb _ (scanLinks ln 0 0)) with false;
        [rewrite andb_false_r; reflexivity|].
      symmetry. apply not_true_is_false. intros Hex.
      apply existsb_exists in Hex. destruct Hex as [m [Hin Hm]].
      apply andb_true_iff in Hm. destruct Hm as [Hm _].
      apply streq_true_iff in Hm.
      destruct (scanLinks_sound _ _ _ _ Hin) as [[Hne _] _].
      contradiction.
    + destruct (Nat.eqb (line cur) (u_line r)); [|reflexivity].
      rewrite keydownLoop_fires, Hno, Hor. reflexivity.
  - replace (existsb _ (scanLinks ln 0 0)) with false;
      [rewrite andb_false_r; reflexivity|].
    symmetry. apply not_true_is_false. intros Hex.
    apply existsb_exists in Hex. destruct Hex as [m [_ Hm]].
    apply andb_true_iff in Hm. destruct Hm as [_ Hm].
    destruct key; try discriminate.
Qed.

(** C7, as amended.  With a record on top of the ledger that carries a
    time stamp other than zero and a target, on a line whose links do not
    overlap, a key press undoes exactly when the cursor is on the line of
    that record, the character that Backspace or Delete would remove
    belongs to a link of that line whose target is the target of the
    record, and at most 30000 milliseconds have passed since the time
    stamp.  Then the default action is prevented, auto-linking is
    suspended, the record is popped and its line and cursor are restored.
    Otherwise the state, the ledger included, is left as it is.  A link
    of the line is a text [[target]] or [[target|label]] in it, with a
    target free of bars and closing brackets and a label free of closing
    brackets; on such a line these are what the scan of the handler
    finds. *)
Theorem implicit_undo_iff (st : State) (key : Key) (now : Z)
    (earlier : list UndoRecord) (r : UndoRecord) (t : Z)
    (target : jsstring) :
  undoStack st = earlier ++ [r] ->
  timestamp r = Some t -> t <> 0 ->
  linkText r = Some target ->
  let cur := cursor (editor st) in
  let ln := getLine (editor st) (line cur) in
  let st' := onKeydown st key now true in
  let fires :=
    line cur = u_line r
    /\ (exists m, linkOccurs ln m
                  /\ baseText m = target
                  /\ nearLink key (ch cur) m)
    /\ now - t <= 30000 in
  noOverlap ln ->
  (fires ->
   st' = undoLastAutolink
           (temporarilyDisableAutoLink (emit st EvPreventDefault))
   /\ undoStack st' = earlier
   /\ getLine (editor st') (u_line r) = original r
   /\ cursor (editor st') = u_cursor r
   /\ isAutoLinkDisabled st' = true)
  /\ (~ fires -> st' = st)
  /\ (undoStack st' = earlier <-> fires)
  /\ (forall m, In m (scanLinks ln O 0) <-> linkOccurs ln m).
Proof.
  intros Hs Ht Ht0 Hl cur ln st' fires Hno.
  pose proof (onKeydown_fires st key now earlier r t target Hs Ht Ht0 Hl)
    as Hk.
  cbv zeta in Hk. fold cur in Hk. fold ln in Hk. fold st' in Hk.
  set (b := Nat.eqb (line cur) (u_line r)
            && existsb (fun m => streq (baseText m) target
                                 && nearLinkb key (ch cur) m)
                 (scanLinks ln O 0)
            && (now - t <=? timeLimit)) in Hk.
  assert (Hb : b = true <-> fires).
  { unfold b, fires. rewrite !andb_true_iff, Nat.eqb_eq, Z.leb_le.
    rewrite existsb_exists. unfold timeLimit. split.
    - intros [[H1 [m [Hin Hm]]] H3].
      apply andb_true_iff in Hm. destruct Hm as [Hm1 Hm2].
      apply streq_true_iff in Hm1. apply nearLinkb_true_iff in Hm2.
      split; [assumption|]. split; [|assumption]. exists m.
      split; [apply scanLinks_occurs; exact Hin | auto].
    - intros [H1 [[m [Hin [Hm1 Hm2]]] H3]].
      split; [split; [assumption|] | assumption].
      exists m. split; [apply scanLinks_complete; assumption|].
      apply andb_true_iff. split.
      + apply streq_true_iff. assumption.
      + apply nearLinkb_true_iff. assumption. }
  assert (Hfire : fires ->
            st' = undoLastAutolink
                    (temporarilyDisableAutoLink (emit st EvPreventDefault))
            /\ undoStack st' = earlier
            /\ getLine (editor st') (u_line r) = original r
            /\ cursor (editor st') = u_cursor r
            /\ isAutoLinkDisabled st' = true).
  { intros Hf. apply Hb in Hf. rewrite Hf in Hk.
    split; [exact Hk|]. rewrite Hk.
    destruct (undoLastAutolink_pops
                (temporarilyDisableAutoLink (emit st EvPreventDefault))
                earlier r Hs) as [E1 [E2 _]].
    rewrite E1, E2, undoLastAutolink_disabled.
    repeat split. apply getLine_setLine_same. }
  assert (Hquiet : ~ fires -> st' = st).
  { intros Hn. destruct b eqn:E; [|exact Hk].
    destruct Hn. apply Hb. reflexivity. }
  split; [exact Hfire|]. split; [exact Hquiet|]. split.
  - split.
    + intros Hu. destruct b eqn:E; [apply Hb; reflexivity|].
      rewrite Hk, Hs in Hu. destruct (snoc_not_self _ _ Hu).
    + intros Hf. apply (Hfire Hf).
  - intros m. apply scanLinks_iff. exact Hno.
Qed.

Lemma implicit_undo_iff_witness :
  let st := run (initial DEFAULT_SETTINGS sampleApp (sampleEditor "Note " 5))
              [OpInsertLink 1000 (str "Note") noteMatch 4;
               OpUserEdit (sampleEditor "[[Note]]" 8)] in
  getLine (editor (onKeydown st Backspace 31000 true)) 0 = str "Note "
  /\ undoStack (onKeydown st Backspace 31000 true) = []
  /\ onKeydown st Backspace 31001 true = st
  /\ onKeydown st Delete 2000 true = st.
Proof.
  intros st.
  pose (r := recordFor {| line := 0; ch := 5 |} (str "Note ") 1000 noteMatch).
  assert (Ht0 : 1000 <> 0) by discriminate.
  pose (m := {| index := 0; matched := str "[[Note]]";
                baseText := str "Note" |}).
  assert (Hno : noOverlap (getLine (editor st) (line (cursor (editor st)))))
    by (apply overlapFree_noOverlap; reflexivity).
  assert (Hocc : linkOccurs (getLine (editor st)
                               (line (cursor (editor st)))) m).
  { split.
    - split; [discriminate|]. split; [reflexivity|]. left. reflexivity.
    - exists [], []. split; reflexivity. }
  assert (Hnear : nearLink Backspace (ch (cursor (editor st))) m)
    by (vm_compute; split; [reflexivity | discriminate]).
  assert (Hfires : line (cursor (editor st)) = u_line r
                   /\ (exists m0,
                         linkOccurs (getLine (editor st)
                                       (line (cursor (editor st)))) m0
                         /\ baseText m0 = str "Note"
                         /\ nearLink Backspace (ch (cursor (editor st))) m0)
                   /\ 31000 - 1000 <= 30000).
  { split; [reflexivity|]. split; [|vm_compute; discriminate].
    exists m. split; [exact Hocc|]. split; [reflexivity | exact Hnear]. }
  destruct (implicit_undo_iff st Backspace 31000 [] r 1000 (str "Note")
              eq_refl eq_refl Ht0 eq_refl Hno) as [Hf _].
  destruct (Hf Hfires) as [_ [H2 [H3 _]]].
  split; [exact H3|]. split; [exact H2|]. split.
  - destruct (implicit_undo_iff st Backspace 31001 [] r 1000 (str "Note")
                eq_refl eq_refl Ht0 eq_refl Hno) as [_ [Hq _]].
    apply Hq. intros [_ [_ H]]. vm_compute in H. apply H. reflexivity.
  - destruct (implicit_undo_iff st Delete 2000 [] r 1000 (str "Note")
                eq_refl eq_refl Ht0 eq_refl Hno) as [_ [Hq [_ Hscan]]].
    apply Hq. intros [_ [[m0 [Hm0 [_ Hn]]] _]].
    apply Hscan in Hm0.
    destruct Hm0 as [<-|[]]. vm_compute in Hn. destruct Hn as [_ Hn].
    discriminate.
Defined.

(** C7 as stated fails at the edge of the link: with the cursor just
    before the link, on the line of the record, one second after the
    insertion, Backspace undoes nothing. *)
Lemma implicit_undo_backspace_before_link :
  let st := run (initial DEFAULT_SETTINGS sampleApp (sampleEditor "Note " 5))
              [OpInsertLink 1000 (str "Note") noteMatch 4;
               OpUserEdit (sampleEditor "[[Note]] " 0)] in
  let m := {| index := 0; matched := str "[[Note]]";
              baseText := str "Note" |} in
  map linkText (undoStack st) = [Some (str "Note")]
  /\ map u_line (undoStack st) = [line (cursor (editor st))]
  /\ scanLinks (getLine (editor st) 0) O 0 = [m]
  /\ index m <= ch (cursor (editor st)) <= index m + len (matched m)
  /\ 2000 - 1000 <= 30000
  /\ onKeydown st Backspace 2000 true = st.
Proof.
  intros st m. split; [reflexivity|]. split; [reflexivity|].
  split; [reflexivity|].
  split; [vm_compute; split; discriminate|].
  split; [vm_compute; discriminate|]. reflexivity.
Qed.

(** Where links overlap the scan finds the first of them only.  From
    [[Note ] the plugin makes [[[[Note]] ]: there the link to [[Note]
    that starts the line overlaps the link to [Note] that was inserted,
    the scan reports the former alone, and Backspace at the end of the
    inserted link, one second after the insertion, undoes nothing. *)
Lemma implicit_undo_overlap_example :
  let st := run (initial DEFAULT_SETTINGS sampleApp (sampleEditor "[Note " 6))
              [OpInsertLink 1000 (str "Note") noteMatch 5;
               OpUserEdit (sampleEditor "[[[Note]] " 9)] in
  let ln := getLine (editor st) 0 in
  getLine (editor (handleEditorChange
                     (sampleState DEFAULT_SETTINGS [sampleFile "Note"]
                        noAliases "[Note " 6) 1000 sampleView)) 0
  = str "[[[Note]] "
  /\ ln = str "[[[Note]] "
  /\ map linkText (undoStack st) = [Some (str "Note")]
  /\ linkOccurs ln {| index := 1; matched := str "[[Note]]";
                      baseText := str "Note" |}
  /\ scanLinks ln O 0
     = [{| index := 0; matched := str "[[[Note]]";
           baseText := str "[Note" |}]
  /\ ~ noOverlap ln
  /\ onKeydown st Backspace 2000 true = st.
Proof.
  intros st ln.
  assert (H1 : linkOccurs ln {| index := 1; matched := str "[[Note]]";
                                baseText := str "Note" |}).
  { split.
    - split; [discriminate|]. split; [reflexivity|]. left. reflexivity.
    - exists (str "["), (str " "). split; reflexivity. }
  assert (H0 : linkOccurs ln {| index := 0; matched := str "[[[Note]]";
                                baseText := str "[Note" |}).
  { split.
    - split; [discriminate|]. split; [reflexivity|]. left. reflexivity.
    - exists [], (str " "). split; reflexivity. }
  split; [reflexivity|]. split; [reflexivity|]. split; [reflexivity|].
  split; [exact H1|]. split; [reflexivity|]. split; [|reflexivity].
  intros Hno. pose proof (Hno _ _ H0 H1) as H. vm_compute in H.
  apply H; reflexivity.
Qed.

(** * Further properties of the engine *)

(** ** The cool-down after an undo *)

Lemma onKeydown_cases (st : State) key now active :
  onKeydown st key now active = st
  \/ onKeydown st key now active
     = undoLastAutolink
         (temporarilyDisableAutoLink (emit st EvPreventDefault)).
Proof.
  unfold onKeydown.
  destruct (_ && _); [|left; reflexivity].
  destruct active; [|left; reflexivity].
  destruct (rev (undoStack st)) as [|r ?]; [left; reflexivity|].
  destruct (linkText r) as [[|c t]|]; try (left; reflexivity).
  destruct (Nat.eqb _ _); [|left; reflexivity].
  rewrite keydownLoop_fires. destruct (_ && _); [right | left]; reflexivity.
Qed.

(** X1. An undo suspends auto-linking: after the undo command on a ledger
    that is not empty, and after a key press that took a record off the
    ledger, the change handler returns the state as it is, whatever the
    text, the time and the view; the expiry of the cool-down lifts the
    suspension. *)
Theorem undo_suspends_autolink (st : State) :
  (undoStack st <> [] ->
   isAutoLinkDisabled (undoCommand st) = true
   /\ forall now view,
        handleEditorChange (undoCommand st) now view = undoCommand st)
  /\ (forall key t active,
        undoStack (onKeydown st key t active) <> undoStack st ->
        isAutoLinkDisabled (onKeydown st key t active) = true
        /\ forall now view,
             handleEditorChange (onKeydown st key t active) now view
             = onKeydown st key t active)
  /\ isAutoLinkDisabled (reenableAutoLink (undoCommand st)) = false.
Proof.
  assert (Hquiet : forall x : State,
            isAutoLinkDisabled x = true ->
            forall now view, handleEditorChange x now view = x).
  { intros x Hx now view.
    unfold handleEditorChange, handleEditorChangeWith.
    destruct view; [|reflexivity]. rewrite Hx. reflexivity. }
  split; [|split; [|reflexivity]].
  - intros Hne.
    assert (Hd : isAutoLinkDisabled (undoCommand st) = true).
    { unfold undoCommand. destruct (undoStack st) as [|r l] eqn:E;
        [congruence|].
      simpl length. destruct (_ >? 0) eqn:Eg.
      - rewrite undoLastAutolink_disabled. reflexivity.
      - rewrite Z.gtb_ltb in Eg. apply Z.ltb_ge in Eg. lia. }
    split; [exact Hd | apply Hquiet; exact Hd].
  - intros key t active Hch.
    assert (Hd : isAutoLinkDisabled (onKeydown st key t active) = true).
    { destruct (onKeydown_cases st key t active) as [E|E].
      - rewrite E in Hch. congruence.
      - rewrite E, undoLastAutolink_disabled. reflexivity. }
    split; [exact Hd | apply Hquiet; exact Hd].
Qed.

Lemma undo_suspends_autolink_witness :
  let st := run (initial DEFAULT_SETTINGS sampleApp (sampleEditor "Note " 5))
              [OpUpdateNoteList; OpEditorChange 1 sampleView] in
  getLine (editor st) 0 = str "[[Note]] "
  /\ getLine (editor (undoCommand st)) 0 = str "Note "
  /\ handleEditorChange (undoCommand st) 2 sampleView = undoCommand st
  /\ getLine (editor (handleEditorChange
                        (reenableAutoLink (undoCommand st)) 2 sampleView)) 0
     = str "[[Note]] ".
Proof.
  intros st. split; [reflexivity|]. split; [reflexivity|].
  split; [|reflexivity].
  assert (Hne : undoStack st <> []) by (vm_compute; discriminate).
  apply (proj1 (undo_suspends_autolink st) Hne).
Defined.

(** ** What the change handler never writes *)

Lemma handleEditorChange_auto_no_word (st : State) now view :
  isAutoMode (mode (settings st)) = true ->
  completedWordOf
    (getLine (editor st) (line (cursor (editor st))))
    (ch (cursor (editor st))) = None ->
  editor (handleEditorChange st now view) = editor st
  /\ undoStack (handleEditorChange st now view) = undoStack st
  /\ log (handleEditorChange st now view) = log st.
Proof.
  intros Hmode Hword.
  unfold handleEditorChange, handleEditorChangeWith.
  destruct view as [v|]; [|repeat split].
  destruct (isAutoLinkDisabled st); [repeat split|].
  destruct (isInsideLink _ _); [repeat split|].
  destruct (matchSuffix _ _) as [m|]; [|repeat split].
  destruct (len (trim m) <? _); [repeat split|].
  cbv zeta.
  set (cb := match v_file v with Some f => basename f | None => [] end).
  set (st1 := with_pending st _).
  assert (Ht : tryCompleteWord completionGuard st1 now
                 (getLine (editor st) (line (cursor (editor st))))
                 (cursor (editor st)) cb = None).
  { unfold tryCompleteWord. unfold completedWordOf in Hword.
    destruct (matchSuffix isFragmentChar _); [discriminate | reflexivity]. }
  assert (Hd : forall ms typed cur,
            dispatchMode st1 now ms typed cur = closePopup st1).
  { intros ms typed cur. unfold dispatchMode.
    change (mode (settings st1)) with (mode (settings st)).
    destruct (mode (settings st)); try discriminate; reflexivity. }
  destruct (_ && _); rewrite ?Ht, Hd; repeat split.
Qed.

Lemma matchSuffix_after_close (p : ascii -> bool) (s : jsstring) (c : ascii) :
  p c = false -> matchSuffix p (s ++ [c]) = None.
Proof.
  intros H. unfold matchSuffix. rewrite rev_app_distr. simpl.
  rewrite H. reflexivity.
Qed.

Lemma makeLink_ends (m : Match) :
  exists body, makeLink m = body ++ ["]"%char].
Proof.
  exists (str "[[" ++ basename (file m)
          ++ (if isAlias m then str "|" ++ title m else []) ++ ["]"%char]).
  unfold makeLink. rewrite <- !app_assoc. reflexivity.
Qed.

Lemma keepLast10_settings (st : State) :
  settings (keepLast10 st) = settings st.
Proof. unfold keepLast10. destruct (_ >? 10); reflexivity. Qed.

Lemma insertLink_settings (st : State) now w m d :
  settings (insertLinkForCompletedWord st now w m d) = settings st.
Proof.
  unfold insertLinkForCompletedWord. cbv zeta.
  rewrite keepLast10_settings. reflexivity.
Qed.

(** X2. The insertion does not trigger itself.  In the automatic modes,
    once a completed word followed by a character [d] has been replaced
    by its link, the change event that this edit raises writes nothing:
    the text, the cursor, the ledger and the log stay as the insertion
    left them, for every index, time and view. *)
Theorem insertion_does_not_retrigger (st : State) (now now' : Z)
    (view : option View) (pre word post : jsstring) (d : ascii)
    (m : Match) :
  getLine (editor st) (line (cursor (editor st)))
  = pre ++ word ++ d :: post ->
  isAutoMode (mode (settings st)) = true ->
  let st1 := insertLinkForCompletedWord st now word m (len pre + len word) in
  let st2 := handleEditorChange st1 now' view in
  getLine (editor st1) (line (cursor (editor st1)))
  = pre ++ makeLink m ++ d :: post
  /\ ch (cursor (editor st1)) = len pre + len (makeLink m) + 1
  /\ editor st2 = editor st1
  /\ undoStack st2 = undoStack st1
  /\ log st2 = log st1.
Proof.
  intros Hln Hmode st1 st2.
  assert (Hed : editor st1
                = editor_setCursor
                    (editor_setLine (editor st) (line (cursor (editor st)))
                       (pre ++ makeLink m ++ d :: post))
                    {| line := line (cursor (editor st));
                       ch := len pre + len (makeLink m) + 1 |}).
  { unfold st1. rewrite insertLink_editor. cbv zeta. rewrite Hln.
    rewrite slice_prefix3, sliceFrom_suffix3.
    replace (Z.max 0 (len (pre ++ word) - len word)) with (len pre)
      by (rewrite len_app; pose proof (len_nonneg pre); lia).
    rewrite slice_0_app. f_equal. f_equal.
    rewrite !len_app. unfold len at 3. simpl length.
    pose proof (len_nonneg post). lia. }
  assert (Hl : getLine (editor st1) (line (cursor (editor st1)))
               = pre ++ makeLink m ++ d :: post).
  { rewrite Hed. simpl cursor. simpl line. apply getLine_setLine_same. }
  assert (Hc : ch (cursor (editor st1)) = len pre + len (makeLink m) + 1).
  { rewrite Hed. reflexivity. }
  split; [exact Hl|]. split; [exact Hc|].
  apply handleEditorChange_auto_no_word.
  - unfold st1. rewrite insertLink_settings. assumption.
  - rewrite Hl, Hc. unfold completedWordOf.
    replace (len pre + len (makeLink m) + 1 - 1)
      with (len (pre ++ makeLink m)) by (rewrite len_app; lia).
    rewrite app_assoc, slice_0_app.
    destruct (makeLink_ends m) as [body ->].
    rewrite app_assoc, matchSuffix_after_close; reflexivity.
Qed.

Lemma insertion_does_not_retrigger_witness :
  let st := sampleState DEFAULT_SETTINGS [sampleFile "Note"] noAliases
              "Note-x" 5 in
  let st1 := insertLinkForCompletedWord st 1 (str "Note") noteMatch 4 in
  getLine (editor st1) 0 = str "[[Note]]-x"
  /\ editor (handleEditorChange st1 2 sampleView) = editor st1
  /\ log (handleEditorChange st1 2 sampleView) = log st1.
Proof.
  intros st st1.
  destruct (insertion_does_not_retrigger st 1 2 sampleView [] (str "Note")
              (str "x") "-"%char noteMatch eq_refl eq_refl)
    as [H1 [_ [H3 [_ H5]]]].
  split; [exact H1|]. split; [exact H3 | exact H5].
Defined.

(** X3. In the suggestions mode, and in the custom mode without automatic
    insertion of single matches, the change handler never writes: the
    text, the cursor, the ledger and the log are unchanged.  Either the
    state is returned as it is, or the popup is closed, or a popup is
    open on a list of matches that is not empty. *)
Theorem suggestion_modes_never_write (st : State) (now : Z)
    (view : option View) :
  mode (settings st) = suggestions
  \/ (mode (settings st) = custom
      /\ customAutoInsertSingleMatch (settings st) = false) ->
  let st' := handleEditorChange st now view in
  editor st' = editor st
  /\ undoStack st' = undoStack st
  /\ log st' = log st
  /\ (st' = st \/ popup st' = None
      \/ exists p, popup st' = Some p /\ p_matches p <> []
                   /\ p_allowEnterAccept p = allowEnterAccept (settings st)).
Proof.
  intros Hmode st'. unfold st', handleEditorChange, handleEditorChangeWith.
  destruct view as [v|]; [|repeat split; left; reflexivity].
  destruct (isAutoLinkDisabled st); [repeat split; left; reflexivity|].
  destruct (isInsideLink _ _); [repeat split; left; reflexivity|].
  destruct (matchSuffix _ _) as [fr|];
    [|repeat split; right; left; reflexivity].
  destruct (len (trim fr) <? _); [repeat split; right; left; reflexivity|].
  cbv zeta.
  set (cb := match v_file v with Some f => basename f | None => [] end).
  set (ms := findMatches st (trim fr) cb).
  set (st1 := with_pending st _).
  change (mode (settings st1)) with (mode (settings st)).
  assert (Hauto : isAutoMode (mode (settings st)) = false).
  { destruct Hmode as [->|[-> _]]; reflexivity. }
  rewrite Hauto. cbn [andb].
  assert (Hs : forall x : State,
            x = handleSuggestionsMode st1 ms (trim fr) ->
            editor x = editor st /\ undoStack x = undoStack st
            /\ log x = log st
            /\ (x = st \/ popup x = None
                \/ exists p, popup x = Some p /\ p_matches p <> []
                             /\ p_allowEnterAccept p
                                = allowEnterAccept (settings st))).
  { intros x ->. destruct ms as [|m0 ms0] eqn:Ems.
    - repeat split. right; left; reflexivity.
    - repeat split. right; right. eexists. split; [reflexivity|].
      split; [discriminate | reflexivity]. }
  unfold dispatchMode. change (mode (settings st1)) with (mode (settings st)).
  change (customAutoInsertSingleMatch (settings st1))
    with (customAutoInsertSingleMatch (settings st)).
  destruct Hmode as [Hm|[Hm Ha]]; rewrite Hm.
  - apply Hs. reflexivity.
  - rewrite Ha, andb_false_r. destruct (_ >? 0).
    + apply Hs. reflexivity.
    + repeat split. right; left; reflexivity.
Qed.

Lemma suggestion_modes_never_write_witness :
  let s := {| mode := suggestions; minWordLength := 3;
              caseSensitive := false; includeAliases := true;
              customFolders := []; debounceMs := 300; maxSuggestions := 10;
              customAllowEnterAccept := true;
              customAutoInsertSingleMatch := true |} in
  let st := sampleState s [sampleFile "Note"] noAliases "Note " 5 in
  editor (handleEditorChange st 1 sampleView) = editor st
  /\ option_map (fun p => map title (p_matches p))
       (popup (handleEditorChange st 1 sampleView))
     = Some [str "Note"].
Proof.
  intros s st. split; [|reflexivity].
  apply (suggestion_modes_never_write st 1 sampleView (or_introl eq_refl)).
Defined.

(** ** Accepting a suggestion *)

Lemma startsWith_app_same (pat t : jsstring) : startsWith (pat ++ t) pat = true.
Proof. apply startsWith_true_iff. exists t. reflexivity. Qed.

Lemma startsWith_short (s pat : jsstring) :
  (length s < length pat)%nat -> startsWith s pat = false.
Proof.
  intros H. apply not_true_is_false. intros E.
  apply startsWith_true_iff in E. destruct E as [t ->].
  rewrite length_app in H. lia.
Qed.

Lemma lastIndexFrom_nil (pat : jsstring) (i : Z) :
  lastIndexFrom pat [] i = if startsWith [] pat then Some i else None.
Proof. reflexivity. Qed.

Lemma lastIndexFrom_cons (pat : jsstring) (x : ascii) (s : jsstring) (i : Z) :
  lastIndexFrom pat (x :: s) i
  = match lastIndexFrom pat s (i + 1) with
    | Some j => Some j
    | None => if startsWith (x :: s) pat then Some i else None
    end.
Proof. reflexivity. Qed.

Lemma lastIndexFrom_short (pat s : jsstring) (i : Z) :
  (length s < length pat)%nat -> lastIndexFrom pat s i = None.
Proof.
  revert i. induction s as [|x s IH]; intros i H.
  - rewrite lastIndexFrom_nil, startsWith_short by assumption. reflexivity.
  - rewrite lastIndexFrom_cons, IH by (simpl in H; lia).
    rewrite startsWith_short by assumption. reflexivity.
Qed.

(** The text just before the end is the last occurrence of itself. *)
Lemma lastIndexFrom_suffix (pre typed : jsstring) (i : Z) :
  lastIndexFrom typed (pre ++ typed) i = Some (i + len pre).
Proof.
  revert i. induction pre as [|y pre IH]; intros i.
  - simpl List.app. change (len []) with 0. rewrite Z.add_0_r.
    destruct typed as [|x t].
    + reflexivity.
    + rewrite lastIndexFrom_cons.
      rewrite lastIndexFrom_short by (simpl; lia).
      rewrite <- (app_nil_r (x :: t)) at 1.
      rewrite startsWith_app_same. reflexivity.
  - simpl List.app. rewrite lastIndexFrom_cons, IH. f_equal.
    unfold len. simpl length. lia.
Qed.

Lemma lastIndexOf_suffix (pre typed : jsstring) :
  lastIndexOf (pre ++ typed) typed = len pre.
Proof. unfold lastIndexOf. rewrite lastIndexFrom_suffix. reflexivity. Qed.

Lemma acceptSuggestion_editor (st : State) now m typed :
  editor (acceptSuggestion st now m typed)
  = let cur := cursor (editor st) in
    let ln := getLine (editor st) (line cur) in
    let typedStartIndex := lastIndexOf (slice ln 0 (ch cur)) typed in
    if typedStartIndex =? -1 then
      let newLine := replaceAtEnd ln typed (makeLink m) in
      editor_setCursor (editor_setLine (editor st) (line cur) newLine)
        {| line := line cur;
           ch := Z.min (len newLine)
                   (ch cur - len typed + len (makeLink m)) |}
    else
      let newLine := slice ln 0 typedStartIndex ++ makeLink m
                     ++ sliceFrom ln (typedStartIndex + len typed) in
      editor_setCursor (editor_setLine (editor st) (line cur) newLine)
        {| line := line cur;
           ch := Z.min (len newLine) (typedStartIndex + len (makeLink m)) |}.
Proof.
  unfold acceptSuggestion. cbv zeta.
  rewrite (proj2 (proj2 (keepLast10_closePopup _))), keepLast10_editor.
  destruct (lastIndexOf _ _ =? -1); reflexivity.
Qed.

Lemma acceptSuggestion_popup (st : State) now m typed :
  popup (acceptSuggestion st now m typed) = None.
Proof.
  unfold acceptSuggestion, keepLast10. cbv zeta.
  destruct (_ >? 10); reflexivity.
Qed.

(** X4. Accepting a suggestion whose typed text stands just before the
    cursor replaces that text by the link and keeps what precedes and
    what follows it; no other line changes, the cursor goes to the end of
    the link, and the popup is closed.  When the typed text occurs
    neither before the cursor nor at the end of the line, no line
    changes. *)
Theorem acceptSuggestion_replaces_typed (st : State) (now : Z) (m : Match)
    (typed : jsstring) :
  let cur := cursor (editor st) in
  let st' := acceptSuggestion st now m typed in
  (forall pre post,
     getLine (editor st) (line cur) = pre ++ typed ++ post ->
     ch cur = len pre + len typed ->
     getLine (editor st') (line cur) = pre ++ makeLink m ++ post
     /\ (forall n, n <> line cur ->
                   getLine (editor st') n = getLine (editor st) n)
     /\ cursor (editor st')
        = {| line := line cur; ch := len pre + len (makeLink m) |}
     /\ popup st' = None)
  /\ (lastIndexOf (slice (getLine (editor st) (line cur)) 0 (ch cur)) typed
      = -1 ->
      endsWith (getLine (editor st) (line cur)) typed = false ->
      forall n, getLine (editor st') n = getLine (editor st) n).
Proof.
  intros cur st'. split.
  - intros pre post Hln Hch.
    assert (Hed : editor st'
                  = editor_setCursor
                      (editor_setLine (editor st) (line cur)
                         (pre ++ makeLink m ++ post))
                      {| line := line cur;
                         ch := len pre + len (makeLink m) |}).
    { unfold st'. rewrite acceptSuggestion_editor. cbv zeta. fold cur.
      rewrite Hln, Hch, slice_prefix3, lastIndexOf_suffix.
      destruct (len pre =? -1) eqn:E;
        [apply Z.eqb_eq in E; pose proof (len_nonneg pre); lia|].
      rewrite slice_0_app, sliceFrom_suffix3. f_equal. f_equal.
      rewrite !len_app. pose proof (len_nonneg post). lia. }
    rewrite Hed. split; [apply getLine_setLine_same|].
    split; [intros n Hn; apply getLine_setLine_other; assumption|].
    split; [reflexivity | apply acceptSuggestion_popup].
  - intros Hidx Hend n. unfold st'. rewrite acceptSuggestion_editor.
    cbv zeta. fold cur. rewrite Hidx. simpl (-1 =? -1).
    unfold replaceAtEnd. rewrite Hend.
    unfold getLine. simpl lines.
    destruct (Nat.eqb n (line cur)) eqn:E; [|reflexivity].
    apply Nat.eqb_eq in E. subst n. reflexivity.
Qed.

Lemma acceptSuggestion_replaces_typed_witness :
  let st := sampleState DEFAULT_SETTINGS [sampleFile "Note"] noAliases
              "a Not here" 5 in
  let st' := acceptSuggestion st 1 noteMatch (str "Not") in
  getLine (editor st') 0 = str "a [[Note]] here"
  /\ cursor (editor st') = {| line := 0; ch := 10 |}
  /\ getLine (editor (acceptSuggestion st 1 noteMatch (str "xyz"))) 0
     = str "a Not here".
Proof.
  intros st st'.
  destruct (acceptSuggestion_replaces_typed st 1 noteMatch (str "Not"))
    as [H _].
  destruct (H (str "a ") (str " here") eq_refl eq_refl) as [H1 [_ [H3 _]]].
  split; [exact H1|]. split; [exact H3|].
  destruct (acceptSuggestion_replaces_typed st 1 noteMatch (str "xyz"))
    as [_ H'].
  rewrite (H' eq_refl eq_refl 0%nat). reflexivity.
Defined.

(** ** Automatic insertion in the custom mode *)

Lemma expandReplacement_plain (matched before after repl : jsstring) :
  ~ In "$"%char repl ->
  expandReplacement matched before after repl = repl.
Proof.
  induction repl as [| a | a b t IH1 IH2] using pairs_ind; intros H;
    try reflexivity.
  change (expandReplacement matched before after (a :: b :: t))
    with (if Ascii.eqb a "$"%char then
            if Ascii.eqb b "$"%char
            then "$"%char :: expandReplacement matched before after t
            else if Ascii.eqb b "&"%char
            then matched ++ expandReplacement matched before after t
            else if Ascii.eqb b "`"%char
            then before ++ expandReplacement matched before after t
            else if Ascii.eqb b "'"%char
            then after ++ expandReplacement matched before after t
            else a :: expandReplacement matched before after (b :: t)
          else a :: expandReplacement matched before after (b :: t)).
  destruct (Ascii.eqb a "$"%char) eqn:E.
  - apply Ascii.eqb_eq in E. subst a. destruct H. left. reflexivity.
  - rewrite IH2; [reflexivity|]. intros Hin. apply H. right. assumption.
Qed.

Lemma endsWith_app (pre typed : jsstring) : endsWith (pre ++ typed) typed = true.
Proof. unfold endsWith. rewrite rev_app_distr. apply startsWith_app_same. Qed.

Lemma replaceAtEnd_suffix (pre typed link : jsstring) :
  ~ In "$"%char link ->
  replaceAtEnd (pre ++ typed) typed link = pre ++ link.
Proof.
  intros H. unfold replaceAtEnd. rewrite endsWith_app.
  replace (len (pre ++ typed) - len typed) with (len pre)
    by (rewrite len_app; lia).
  rewrite slice_0_app, expandReplacement_plain by assumption. reflexivity.
Qed.

Lemma handleAutonomousMode_editor (st : State) now typed m cur :
  editor (handleAutonomousMode st now typed [m] cur)
  = editor_setCursor
      (editor_setLine (editor st) (line cur)
         (replaceAtEnd (getLine (editor st) (line cur)) typed (makeLink m)))
      {| line := line cur; ch := ch cur - len typed + len (makeLink m) |}.
Proof.
  unfold handleAutonomousMode. cbv zeta.
  change (editor (closePopup ?x)) with (editor x).
  rewrite keepLast10_editor. reflexivity.
Qed.

(** X5. With exactly one match, [handleAutonomousMode] replaces the typed
    text at the end of the line by the link, when the link has no dollar
    sign, and moves the cursor by the difference of the two lengths; the
    popup is closed.  When the line does not end with the typed text, no
    line changes, and the record of the line is pushed all the same. *)
Theorem handleAutonomousMode_replaces_suffix (st : State) (now : Z)
    (typed : jsstring) (m : Match) (cur : Pos) :
  let st' := handleAutonomousMode st now typed [m] cur in
  (forall pre,
     getLine (editor st) (line cur) = pre ++ typed ->
     ~ In "$"%char (makeLink m) ->
     getLine (editor st') (line cur) = pre ++ makeLink m
     /\ (forall n, n <> line cur ->
                   getLine (editor st') n = getLine (editor st) n)
     /\ cursor (editor st')
        = {| line := line cur;
             ch := ch cur - len typed + len (makeLink m) |}
     /\ popup st' = None)
  /\ (endsWith (getLine (editor st) (line cur)) typed = false ->
      (forall n, getLine (editor st') n = getLine (editor st) n)
      /\ pushed (log st')
         = pushed (log st)
           ++ [recordFor cur (getLine (editor st) (line cur)) now m]).
Proof.
  intros st'. split.
  - intros pre Hln Hd. unfold st'. rewrite handleAutonomousMode_editor.
    rewrite Hln, replaceAtEnd_suffix by assumption.
    split; [apply getLine_setLine_same|].
    split; [intros n Hn; apply getLine_setLine_other; assumption|].
    split; reflexivity.
  - intros Hend. split.
    + intros n. unfold st'. rewrite handleAutonomousMode_editor.
      unfold replaceAtEnd. rewrite Hend. unfold getLine. simpl lines.
      destruct (Nat.eqb n (line cur)) eqn:E; [|reflexivity].
      apply Nat.eqb_eq in E. subst n. reflexivity.
    + unfold st', handleAutonomousMode. cbv zeta.
      change (log (closePopup ?x)) with (log x).
      rewrite keepLast10_pushed. simpl log. rewrite !pushed_app.
      simpl. rewrite !app_nil_r. reflexivity.
Qed.

Lemma handleAutonomousMode_replaces_suffix_witness :
  let st := sampleState DEFAULT_SETTINGS [sampleFile "Note"] noAliases
              "a Not" 5 in
  let cur := {| line := 0%nat; ch := 5 |} in
  let st' := handleAutonomousMode st 1 (str "Not") [noteMatch] cur in
  getLine (editor st') 0 = str "a [[Note]]"
  /\ cursor (editor st') = {| line := 0; ch := 10 |}
  /\ getLine (editor (handleAutonomousMode st 1 (str "No") [noteMatch] cur)) 0
     = str "a Not".
Proof.
  intros st cur st'.
  assert (Hd : ~ In "$"%char (makeLink noteMatch)).
  { simpl. intros H.
    repeat (destruct H as [H|H]; [discriminate|]). destruct H. }
  destruct (handleAutonomousMode_replaces_suffix st 1 (str "Not") noteMatch
              cur) as [H _].
  destruct (H (str "a ") eq_refl Hd) as [H1 [_ [H3 _]]].
  split; [exact H1|]. split; [exact H3|].
  destruct (handleAutonomousMode_replaces_suffix st 1 (str "No") noteMatch
              cur) as [_ H'].
  destruct (H' eq_refl) as [H4 _]. rewrite (H4 0%nat). reflexivity.
Defined.

(** A dollar sign in a note name is read as a replacement pattern. *)
Lemma replaceAtEnd_dollar_example :
  replaceAtEnd (str "see Foo") (str "Foo") (str "[[A$&B]]")
  = str "see [[AFooB]]".
Proof. reflexivity. Qed.

(** ** The index after a rebuild *)

Lemma mapGet_mapSet_same {V : Type} (m : JsMap V) (k : jsstring) (v : V) :
  mapGet (mapSet m k v) k = Some v.
Proof.
  induction m as [|[k' v'] m IH]; simpl.
  - rewrite streq_refl. reflexivity.
  - destruct (streq k' k) eqn:E; simpl; rewrite E; [reflexivity | exact IH].
Qed.

Lemma mapGet_mapSet_other {V : Type} (m : JsMap V) (k k0 : jsstring) (v : V) :
  k0 <> k -> mapGet (mapSet m k v) k0 = mapGet m k0.
Proof.
  intros H. induction m as [|[k' v'] m IH]; simpl.
  - destruct (streq k k0) eqn:E; [|reflexivity].
    apply streq_true_iff in E. congruence.
  - destruct (streq k' k) eqn:E; simpl.
    + apply streq_true_iff in E. subst k'.
      destruct (streq k k0) eqn:E0; [|reflexivity].
      apply streq_true_iff in E0. congruence.
    + rewrite IH. reflexivity.
Qed.

Lemma mapGet_In {V : Type} (m : JsMap V) (k : jsstring) (v : V) :
  mapGet m k = Some v -> In (k, v) m.
Proof.
  induction m as [|[k' v'] m IH]; simpl; [discriminate|].
  destruct (streq k' k) eqn:E.
  - apply streq_true_iff in E. subst k'. intros H. injection H as ->.
    left. reflexivity.
  - intros H. right. apply IH. assumption.
Qed.

Lemma indexFiles_titles_from (s : AutoLinkSettings) (a : App) files t al k f :
  In (k, f) (fst (indexFiles s a files t al)) ->
  In (k, f) t \/ (In f files /\ k = normalize s (basename f)).
Proof.
  revert t al. induction files as [|g files IH]; intros t al H; simpl in H.
  - left. assumption.
  - apply IH in H. destruct H as [H|[H1 H2]].
    + apply mapSet_In in H. destruct H as [H|H]; [left; assumption|].
      injection H as -> ->. right. split; [left; reflexivity | reflexivity].
    + right. split; [right; assumption | assumption].
Qed.

Lemma indexFiles_titles_kept (s : AutoLinkSettings) (a : App)
    (all files : list TFile) t al k :
  (forall f, In f files -> In f all) ->
  (exists g, mapGet t k = Some g /\ In g all
             /\ normalize s (basename g) = k) ->
  exists g, mapGet (fst (indexFiles s a files t al)) k = Some g
            /\ In g all /\ normalize s (basename g) = k.
Proof.
  revert t al. induction files as [|f files IH]; intros t al Hsub Hg; simpl.
  - assumption.
  - apply IH; [intros x Hx; apply Hsub; right; assumption|].
    destruct (list_eq_dec ascii_dec (normalize s (basename f)) k) as [E|E].
    + exists f. rewrite E, mapGet_mapSet_same.
      split; [reflexivity|]. split; [apply Hsub; left; reflexivity|].
      reflexivity.
    + destruct Hg as [g Hg]. exists g.
      rewrite mapGet_mapSet_other by congruence. assumption.
Qed.

Lemma indexFiles_titles_found (s : AutoLinkSettings) (a : App)
    (all files : list TFile) t al f :
  (forall x, In x files -> In x all) ->
  In f files ->
  exists g, mapGet (fst (indexFiles s a files t al))
              (normalize s (basename f)) = Some g
            /\ In g all
            /\ normalize s (basename g) = normalize s (basename f).
Proof.
  revert t al. induction files as [|x files IH]; intros t al Hsub Hin.
  - destruct Hin.
  - simpl. destruct Hin as [->|Hin].
    + apply indexFiles_titles_kept;
        [intros y Hy; apply Hsub; right; assumption|].
      exists f. rewrite mapGet_mapSet_same.
      split; [reflexivity|]. split; [apply Hsub; left; reflexivity|].
      reflexivity.
    + apply IH; [intros y Hy; apply Hsub; right; assumption | assumption].
Qed.

(** X6. After a rebuild the title index holds exactly the relevant files
    under their normalized basenames: every entry is a relevant file
    under its own key, no key occurs twice, and the key of every relevant
    file is found and leads to a relevant file with the same normalized
    basename, to that file itself when no other relevant file shares
    it.  What the index held before does not matter. *)
Theorem title_index_after_rebuild (st : State) :
  let st' := updateNoteList st in
  let s := settings st in
  let files := getRelevantFiles st in
  (forall k f, In (k, f) (noteTitles st') ->
               In f files /\ k = normalize s (basename f))
  /\ NoDup (map fst (noteTitles st'))
  /\ (forall f, In f files ->
        exists g, mapGet (noteTitles st') (normalize s (basename f)) = Some g
                  /\ In g files
                  /\ normalize s (basename g) = normalize s (basename f))
  /\ (forall f, In f files ->
        (forall g, In g files ->
                   normalize s (basename g) = normalize s (basename f) ->
                   g = f) ->
        mapGet (noteTitles st') (normalize s (basename f)) = Some f).
Proof.
  intros st' s files.
  assert (Ht : noteTitles st' = fst (indexFiles s (app st) files [] [])).
  { unfold st', updateNoteList. fold s. fold files.
    destruct (indexFiles s (app st) files [] []). reflexivity. }
  assert (Hfound : forall f, In f files ->
            exists g, mapGet (noteTitles st') (normalize s (basename f))
                      = Some g
                      /\ In g files
                      /\ normalize s (basename g)
                         = normalize s (basename f)).
  { intros f Hf. rewrite Ht. apply indexFiles_titles_found; auto. }
  split; [|split; [|split]].
  - intros k f H. rewrite Ht in H.
    apply indexFiles_titles_from in H. destruct H as [[]|H]. exact H.
  - apply (updateNoteList_wellFormed st).
  - exact Hfound.
  - intros f Hf Huniq. destruct (Hfound f Hf) as [g [Hg [Hin Hk]]].
    rewrite Hg. f_equal. apply Huniq; assumption.
Qed.

Lemma title_index_after_rebuild_witness :
  let st := initial DEFAULT_SETTINGS
              {| markdownFiles := [sampleFile "Note"; sampleFile "Today"];
                 activeFile := None; frontmatterAliases := noAliases |}
              (sampleEditor "x" 0) in
  mapGet (noteTitles (updateNoteList st)) (str "note")
  = Some (sampleFile "Note").
Proof.
  intros st.
  apply (proj2 (proj2 (proj2 (title_index_after_rebuild st)))
           (sampleFile "Note")).
  - left. reflexivity.
  - intros g [<-|[<-|[]]] H; [reflexivity|]. vm_compute in H. discriminate.
Defined.

Lemma addAliases_from (s : AutoLinkSettings) (f : TFile) vs m k g :
  In (k, g) (addAliases s f vs m) ->
  In (k, g) m
  \/ (g = f /\ exists alias, In (FmString alias) vs /\ trim alias <> []
                             /\ k = normalize s alias).
Proof.
  revert m. induction vs as [|v vs IH]; intros m H; simpl in H.
  - left. assumption.
  - assert (Hrest : In (k, g) m
                    \/ (g = f /\ exists alias, In (FmString alias) vs
                                  /\ trim alias <> []
                                  /\ k = normalize s alias) ->
              In (k, g) m
              \/ (g = f /\ exists alias, In (FmString alias) (v :: vs)
                            /\ trim alias <> []
                            /\ k = normalize s alias)).
    { intros [Hm|[Hg [alias [Hin Ha]]]]; [left; assumption|].
      right. split; [assumption|]. exists alias.
      split; [right; assumption | assumption]. }
    destruct v as [alias|]; [|apply Hrest, IH; assumption].
    destruct (trim alias) as [|c t] eqn:Et; [apply Hrest, IH; assumption|].
    apply IH in H. destruct H as [H|H]; [|apply Hrest; right; assumption].
    apply mapSet_In in H. destruct H as [H|H]; [left; assumption|].
    injection H as -> ->. right. split; [reflexivity|]. exists alias.
    split; [left; reflexivity|]. split; [rewrite Et; discriminate|].
    reflexivity.
Qed.

Lemma addAliases_NoDup (s : AutoLinkSettings) (f : TFile) vs m :
  NoDup (map fst m) -> NoDup (map fst (addAliases s f vs m)).
Proof.
  revert m. induction vs as [|v vs IH]; intros m H; simpl; [assumption|].
  destruct v as [alias|]; [|apply IH; assumption].
  destruct (trim alias); apply IH; [assumption|].
  apply mapSet_NoDup. assumption.
Qed.

Lemma addAliases_kept (s : AutoLinkSettings) (all : list TFile) (f : TFile)
    vs m k :
  In f all ->
  (exists g, mapGet m k = Some g /\ In g all) ->
  exists g, mapGet (addAliases s f vs m) k = Some g /\ In g all.
Proof.
  intros Hf. revert m. induction vs as [|v vs IH]; intros m H; simpl;
    [assumption|].
  destruct v as [alias|]; [|apply IH; assumption].
  destruct (trim alias); [apply IH; assumption|]. apply IH.
  destruct (list_eq_dec ascii_dec (normalize s alias) k) as [E|E].
  - exists f. rewrite E, mapGet_mapSet_same. auto.
  - destruct H as [g Hg]. exists g.
    rewrite mapGet_mapSet_other by congruence. assumption.
Qed.

Lemma addAliases_found (s : AutoLinkSettings) (all : list TFile) (f : TFile)
    vs m alias :
  In f all -> In (FmString alias) vs -> trim alias <> [] ->
  exists g, mapGet (addAliases s f vs m) (normalize s alias) = Some g
            /\ In g all.
Proof.
  intros Hf Hin Hne. revert m.
  induction vs as [|v vs IH]; intros m; [destruct Hin|].
  simpl. destruct Hin as [->|Hin].
  - destruct (trim alias) eqn:Et; [congruence|].
    apply addAliases_kept; [assumption|].
    exists f. rewrite mapGet_mapSet_same. auto.
  - destruct v as [a0|]; [|apply IH; assumption].
    destruct (trim a0); apply IH; assumption.
Qed.

Lemma indexFiles_aliases_off (s : AutoLinkSettings) (a : App) files t al :
  includeAliases s = false -> snd (indexFiles s a files t al) = al.
Proof.
  intros H. revert t al. induction files as [|f files IH]; intros t al; simpl.
  - reflexivity.
  - rewrite H. apply IH.
Qed.

Lemma indexFiles_aliases_from (s : AutoLinkSettings) (a : App) files t al k g :
  In (k, g) (snd (indexFiles s a files t al)) ->
  In (k, g) al
  \/ (includeAliases s = true /\ In g files
      /\ exists alias,
           In (FmString alias) (aliasValues (frontmatterAliases a g))
           /\ trim alias <> [] /\ k = normalize s alias).
Proof.
  revert t al. induction files as [|f files IH]; intros t al H; simpl in H.
  - left. assumption.
  - apply IH in H. destruct H as [H|[H1 [H2 H3]]].
    + destruct (includeAliases s) eqn:Ei; [|left; assumption].
      apply addAliases_from in H. destruct H as [H|[-> H]];
        [left; assumption|].
      right. split; [reflexivity|]. split; [left; reflexivity | assumption].
    + right. split; [assumption|]. split; [right; assumption | assumption].
Qed.

Lemma indexFiles_aliases_NoDup (s : AutoLinkSettings) (a : App) files t al :
  NoDup (map fst al) -> NoDup (map fst (snd (indexFiles s a files t al))).
Proof.
  revert t al. induction files as [|f files IH]; intros t al H; simpl.
  - assumption.
  - apply IH. destruct (includeAliases s); [|assumption].
    apply addAliases_NoDup. assumption.
Qed.

Lemma indexFiles_aliases_kept (s : AutoLinkSettings) (a : App)
    (all files : list TFile) t al k :
  (forall f, In f files -> In f all) ->
  (exists g, mapGet al k = Some g /\ In g all) ->
  exists g, mapGet (snd (indexFiles s a files t al)) k = Some g /\ In g all.
Proof.
  revert t al. induction files as [|f files IH]; intros t al Hsub H; simpl.
  - assumption.
  - apply IH; [intros x Hx; apply Hsub; right; assumption|].
    destruct (includeAliases s); [|assumption].
    apply addAliases_kept; [apply Hsub; left; reflexivity | assumption].
Qed.

Lemma indexFiles_aliases_found (s : AutoLinkSettings) (a : App)
    (all files : list TFile) t al f alias :
  includeAliases s = true ->
  (forall x, In x files -> In x all) ->
  In f files ->
  In (FmString alias) (aliasValues (frontmatterAliases a f)) ->
  trim alias <> [] ->
  exists g, mapGet (snd (indexFiles s a files t al)) (normalize s alias)
            = Some g /\ In g all.
Proof.
  intros Hinc. revert t al.
  induction files as [|x files IH]; intros t al Hsub Hin Ha Hne.
  - destruct Hin.
  - simpl. rewrite Hinc. destruct Hin as [->|Hin].
    + apply indexFiles_aliases_kept;
        [intros y Hy; apply Hsub; right; assumption|].
      apply addAliases_found; [apply Hsub; left; reflexivity | assumption
                              | assumption].
    + apply IH; [intros y Hy; apply Hsub; right; assumption
                | assumption | assumption | assumption].
Qed.

(** X7. After a rebuild the alias index is empty when aliases are not
    included.  Otherwise every entry is a relevant file under the
    normalized text of one of its front-matter aliases that is a string and
    not blank, no key occurs twice, and every such alias of a relevant
    file is found and leads to a relevant file.  The key is the alias as
    it is written, folded to lower case unless matching is case
    sensitive: [trim] serves the test for blankness only. *)
Theorem alias_index_after_rebuild (st : State) :
  let st' := updateNoteList st in
  let s := settings st in
  let files := getRelevantFiles st in
  (includeAliases s = false -> aliases st' = [])
  /\ (forall k f, In (k, f) (aliases st') ->
        includeAliases s = true /\ In f files
        /\ exists alias,
             In (FmString alias)
               (aliasValues (frontmatterAliases (app st) f))
             /\ trim alias <> [] /\ k = normalize s alias)
  /\ NoDup (map fst (aliases st'))
  /\ (includeAliases s = true ->
      forall f alias,
        In f files ->
        In (FmString alias) (aliasValues (frontmatterAliases (app st) f)) ->
        trim alias <> [] ->
        exists g, mapGet (aliases st') (normalize s alias) = Some g
                  /\ In g files).
Proof.
  intros st' s files.
  assert (Ha : aliases st' = snd (indexFiles s (app st) files [] [])).
  { unfold st', updateNoteList. fold s. fold files.
    destruct (indexFiles s (app st) files [] []). reflexivity. }
  rewrite Ha. split; [|split; [|split]].
  - intros H. apply indexFiles_aliases_off. assumption.
  - intros k f H. apply indexFiles_aliases_from in H.
    destruct H as [[]|H]. exact H.
  - apply indexFiles_aliases_NoDup. constructor.
  - intros Hinc f alias Hf Hal Hne.
    apply (indexFiles_aliases_found s (app st) files files [] [] f alias);
      auto.
Qed.

Lemma alias_index_after_rebuild_witness :
  let al := fun f => if file_eqb f (sampleFile "Deep Work")
                     then FmArray [FmString (str "Focus"); FmOther;
                                   FmString (str "  ")]
                     else FmAbsent in
  let st := initial DEFAULT_SETTINGS
              {| markdownFiles := [sampleFile "Deep Work"];
                 activeFile := None; frontmatterAliases := al |}
              (sampleEditor "x" 0) in
  aliases (updateNoteList st) = [(str "focus", sampleFile "Deep Work")]
  /\ exists g, mapGet (aliases (updateNoteList st)) (str "focus") = Some g
               /\ In g (getRelevantFiles st).
Proof.
  intros al st. split; [reflexivity|].
  apply (proj2 (proj2 (proj2 (alias_index_after_rebuild st))) eq_refl
           (sampleFile "Deep Work") (str "Focus")).
  - left. reflexivity.
  - left. reflexivity.
  - vm_compute. discriminate.
Defined.

(** ** The scope of the index *)

Lemma filter_all {A : Type} (p : A -> bool) (l : list A) :
  (forall x, In x l -> p x = true) -> filter p l = l.
Proof.
  induction l as [|x l IH]; intros H; simpl; [reflexivity|].
  rewrite (H x (or_introl eq_refl)). f_equal. apply IH.
  intros y Hy. apply H. right. assumption.
Qed.

Lemma startsWith_nil (s : jsstring) : startsWith s [] = true.
Proof. destruct s; reflexivity. Qed.

(** X8. The relevant files are files of the vault, in the order of the
    vault.  They are all of them in the autonomous and the suggestions
    mode, in the semi-autonomous mode without an active file, and in the
    custom mode with no folder or with the root folder in the list.  With
    an active file the semi-autonomous mode keeps exactly the files of its
    folder; the custom mode with folders keeps exactly the files whose
    path starts with a listed folder and a slash. *)
Theorem getRelevantFiles_scope (st : State) :
  let all := markdownFiles (app st) in
  let r := getRelevantFiles st in
  let s := settings st in
  Subseq r all
  /\ (mode s = autonomous \/ mode s = suggestions -> r = all)
  /\ (mode s = semiAutonomous -> activeFile (app st) = None -> r = all)
  /\ (mode s = semiAutonomous ->
      forall act, activeFile (app st) = Some act ->
      forall f, In f r <-> In f all /\ parent f = parent act)
  /\ (mode s = custom -> customFolders s = [] -> r = all)
  /\ (mode s = custom -> In (str "/") (customFolders s) -> r = all)
  /\ (mode s = custom -> customFolders s <> [] ->
      forall f, In f r <->
                In f all
                /\ exists folder, In folder (customFolders s)
                     /\ (folder = str "/"
                         \/ isPrefixOf (folder ++ str "/") (path f))).
Proof.
  intros all r s. unfold r, getRelevantFiles. fold all. fold s.
  assert (Hre : forall l : list TFile, Subseq l l)
    by (intros l; induction l; constructor; assumption).
  assert (Hfolder : forall f folders,
            existsb (fun folder =>
               startsWith (path f)
                 (if streq folder (str "/") then [] else folder ++ str "/"))
              folders = true
            <-> exists folder, In folder folders
                  /\ (folder = str "/"
                      \/ isPrefixOf (folder ++ str "/") (path f))).
  { intros f folders. rewrite existsb_exists. split.
    - intros [folder [Hin Hsw]]. exists folder. split; [assumption|].
      destruct (streq folder (str "/")) eqn:E.
      + left. apply streq_true_iff. assumption.
      + right. apply startsWith_true_iff. assumption.
    - intros [folder [Hin [->|Hp]]].
      + exists (str "/"). split; [assumption|]. rewrite streq_refl.
        apply startsWith_nil.
      + exists folder. split; [assumption|].
        destruct (streq folder (str "/")); [apply startsWith_nil|].
        apply startsWith_true_iff. assumption. }
  split; [|split; [|split; [|split; [|split; [|split]]]]].
  - destruct (mode s); try apply Hre.
    + destruct (activeFile (app st)); [apply Subseq_filter | apply Hre].
    + destruct (customFolders s); [apply Hre | apply Subseq_filter].
  - intros [->| ->]; reflexivity.
  - intros -> ->. reflexivity.
  - intros -> act -> f. rewrite filter_In, streq_true_iff. reflexivity.
  - intros -> ->. reflexivity.
  - intros -> Hroot. destruct (customFolders s) as [|x l] eqn:E;
      [reflexivity|].
    apply filter_all. intros f _. apply Hfolder. exists (str "/").
    split; [assumption | left; reflexivity].
  - intros -> Hne f. destruct (customFolders s) as [|x l] eqn:E;
      [congruence|].
    rewrite filter_In, Hfolder. reflexivity.
Qed.

Lemma getRelevantFiles_scope_witness :
  let inbox := {| path := str "inbox/Note.md"; basename := str "Note";
                  parent := str "inbox" |} in
  let other := {| path := str "work/Plan.md"; basename := str "Plan";
                  parent := str "work" |} in
  let s := {| mode := semiAutonomous; minWordLength := 3;
              caseSensitive := false; includeAliases := true;
              customFolders := []; debounceMs := 300; maxSuggestions := 10;
              customAllowEnterAccept := true;
              customAutoInsertSingleMatch := true |} in
  let st := initial s {| markdownFiles := [inbox; other];
                         activeFile := Some inbox;
                         frontmatterAliases := noAliases |}
              (sampleEditor "x" 0) in
  In inbox (getRelevantFiles st) /\ ~ In other (getRelevantFiles st).
Proof.
  intros inbox other s st.
  pose proof (proj1 (proj2 (proj2 (proj2 (getRelevantFiles_scope st))))
                eq_refl inbox eq_refl) as H.
  split.
  - apply H. split; [left; reflexivity | reflexivity].
  - intros Hin. apply H in Hin. destruct Hin as [_ Hp]. discriminate.
Defined.

Lemma skipn_In {A : Type} (n : nat) (l : list A) (x : A) :
  In x (skipn n l) -> In x l.
Proof.
  revert l. induction n as [|n IH]; intros l H; [exact H|].
  destruct l as [|y l]; [destruct H|]. right. apply IH. exact H.
Qed.

Lemma slice_In {A : Type} (l : list A) (b e : Z) (x : A) :
  In x (slice l b e) -> In x l.
Proof. unfold slice. intros H. apply firstn_In, skipn_In in H. exact H. Qed.

Lemma findMatches_from_index (st : State) typed current m :
  In m (findMatches st typed current) ->
  (exists k, In (k, file m) (noteTitles st))
  \/ (exists k, In (k, file m) (aliases st)).
Proof.
  rewrite findMatches_loops. intros H. apply slice_In in H.
  destruct (searchAliases_ok (aliases st) (normalize (settings st) typed)
              current
              (map titleMatch
                 (filter (titleCond (normalize (settings st) typed)
                            (normalize (settings st) current))
                    (noteTitles st))))
    as [add [E [HF _]]].
  rewrite E in H. apply in_app_iff in H. destruct H as [H|H].
  - left. apply in_map_iff in H. destruct H as [[k f] [<- Hin]].
    apply filter_In in Hin. exists k. apply Hin.
  - right. rewrite Forall_forall in HF. exists (title m). apply (HF m H).
Qed.

(** X9. Whatever is typed, every match found on a rebuilt index points to
    a relevant file.  In the semi-autonomous mode with an active file,
    every match therefore points to a file of the folder of the active
    file: a note of another folder is never offered, even when its title
    or alias matches. *)
Theorem matches_stay_in_scope (st : State) (typed current : jsstring) :
  let st' := updateNoteList st in
  (forall m, In m (findMatches st' typed current) ->
             In (file m) (getRelevantFiles st))
  /\ (mode (settings st) = semiAutonomous ->
      forall act, activeFile (app st) = Some act ->
      forall m, In m (findMatches st' typed current) ->
                In (file m) (markdownFiles (app st))
                /\ parent (file m) = parent act).
Proof.
  intros st'.
  assert (Hrel : forall m, In m (findMatches st' typed current) ->
                           In (file m) (getRelevantFiles st)).
  { intros m Hm. apply findMatches_from_index in Hm.
    unfold st', updateNoteList in Hm.
    pose proof (indexFiles_titles_from (settings st) (app st)
                  (getRelevantFiles st) [] []) as Ht.
    pose proof (indexFiles_aliases_from (settings st) (app st)
                  (getRelevantFiles st) [] []) as Ha.
    destruct (indexFiles (settings st) (app st) (getRelevantFiles st) [] [])
      as [t al]. simpl in *.
    destruct Hm as [[k Hk]|[k Hk]].
    - destruct (Ht _ _ Hk) as [[]|[H _]]. exact H.
    - destruct (Ha _ _ Hk) as [[]|[_ [H _]]]. exact H. }
  split; [exact Hrel|].
  intros Hmode act Hact m Hm. apply Hrel in Hm.
  unfold getRelevantFiles in Hm. rewrite Hmode, Hact in Hm.
  apply filter_In in Hm. destruct Hm as [H1 H2].
  apply streq_true_iff in H2. auto.
Qed.

Lemma matches_stay_in_scope_witness :
  let inbox := {| path := str "inbox/Note.md"; basename := str "Note";
                  parent := str "inbox" |} in
  let other := {| path := str "work/Notes.md"; basename := str "Notes";
                  parent := str "work" |} in
  let s := {| mode := semiAutonomous; minWordLength := 3;
              caseSensitive := false; includeAliases := true;
              customFolders := []; debounceMs := 300; maxSuggestions := 10;
              customAllowEnterAccept := true;
              customAutoInsertSingleMatch := true |} in
  let st := initial s {| markdownFiles := [inbox; other];
                         activeFile := Some inbox;
                         frontmatterAliases := noAliases |}
              (sampleEditor "Note " 5) in
  map file (findMatches (updateNoteList st) (str "Note") (str "Today"))
  = [inbox]
  /\ forall m, In m (findMatches (updateNoteList st) (str "Note")
                       (str "Today")) ->
               parent (file m) = str "inbox".
Proof.
  intros inbox other s st. split; [reflexivity|].
  intros m Hm.
  apply (proj2 (matches_stay_in_scope st (str "Note") (str "Today"))
           eq_refl inbox eq_refl m Hm).
Defined.

(** ** Undoing a series of insertions *)

Lemma repeat_snoc {A : Type} (x : A) (n : nat) :
  repeat x (S n) = repeat x n ++ [x].
Proof.
  induction n as [|n IH]; [reflexivity|].
  simpl in *. f_equal. exact IH.
Qed.

Lemma run_snoc (st : State) (ops : list Op) (op : Op) :
  run st (ops ++ [op]) = step (run st ops) op.
Proof. unfold run. rewrite fold_left_app. reflexivity. Qed.

Lemma step_insert_shape (st : State) (op : Op) :
  insertsAtCursor op = true ->
  (length (undoStack st) < 10)%nat ->
  exists r newLine c,
    undoStack (step st op) = undoStack st ++ [r]
    /\ u_line r = line (cursor (editor st))
    /\ original r = getLine (editor st) (line (cursor (editor st)))
    /\ u_cursor r = cursor (editor st)
    /\ editor (step st op)
       = editor_setCursor
           (editor_setLine (editor st) (line (cursor (editor st))) newLine)
           c.
Proof.
  intros Hop Hlen. destruct op; try discriminate; simpl step.
  - destruct (insertLink_ledger st now completedWord m delimiterPos)
      as [Hs _]; [lia|].
    rewrite lastN_short in Hs by (rewrite length_app; simpl; lia).
    eexists _, _, _. split; [exact Hs|].
    split; [reflexivity|]. split; [reflexivity|].
    split; [apply recordFor_cursor|].
    rewrite insertLink_editor. reflexivity.
  - destruct (acceptSuggestion_ledger st now m typed) as [Hs _]; [lia|].
    rewrite lastN_short in Hs by (rewrite length_app; simpl; lia).
    rewrite acceptSuggestion_editor. cbv zeta.
    destruct (lastIndexOf _ _ =? -1);
      eexists _, _, _; (split; [exact Hs|]);
      (split; [reflexivity|]); (split; [reflexivity|]);
      (split; [apply recordFor_cursor | reflexivity]).
Qed.

(** X10. Insertions at the cursor that fit in the ledger are undone in
    reverse order: after any such insertions, as many undos bring back the
    text of every line, the cursor and the ledger of the start. *)
Theorem undos_revert_insertions (ops : list Op) (st : State) :
  forallb insertsAtCursor ops = true ->
  (length (undoStack st) + length ops <= 10)%nat ->
  let st' := run (run st ops) (repeat OpUndo (length ops)) in
  undoStack st' = undoStack st /\ sameText (editor st') (editor st).
Proof.
  revert st. induction ops as [|op ops IH]; intros st Hops Hlen.
  - split; [reflexivity|]. split; reflexivity.
  - simpl in Hops. apply andb_true_iff in Hops. destruct Hops as [Hop Hops].
    simpl length in *.
    destruct (step_insert_shape st op Hop) as
      [r [newLine [c [Hs [Hl [Ho [Hc He]]]]]]]; [lia|].
    cbv zeta. rewrite repeat_snoc, !run_snoc.
    change (run st (op :: ops)) with (run (step st op) ops).
    destruct (IH (step st op) Hops) as [IHs [IHc IHl]];
      [rewrite Hs, length_app; simpl; lia|].
    set (x := run (run (step st op) ops) (repeat OpUndo (length ops))) in *.
    change (step x OpUndo) with (undoLastAutolink x).
    rewrite Hs in IHs.
    destruct (undoLastAutolink_pops x (undoStack st) r IHs) as [E1 [E2 _]].
    split; [exact E1|]. rewrite E2. split.
    + simpl. exact Hc.
    + intros n. unfold getLine at 1. simpl lines.
      destruct (Nat.eqb n (u_line r)) eqn:En.
      * apply Nat.eqb_eq in En. subst n. rewrite Ho, Hl. reflexivity.
      * apply Nat.eqb_neq in En.
        change (lines (editor x) n) with (getLine (editor x) n).
        rewrite IHl, He. unfold getLine. simpl lines.
        rewrite <- Hl. apply Nat.eqb_neq in En. rewrite En. reflexivity.
Qed.

Lemma undos_revert_insertions_witness :
  let st := sampleState DEFAULT_SETTINGS [sampleFile "Note"] noAliases
              "Note and Not" 12 in
  let ops := [OpAccept 1 noteMatch (str "Not");
              OpInsertLink 2 (str "Note") noteMatch 4] in
  getLine (editor (run st ops)) 0 = str "[[Note]] and [[Note]]"
  /\ getLine (editor (run (run st ops) [OpUndo; OpUndo])) 0
     = str "Note and Not"
  /\ cursor (editor (run (run st ops) [OpUndo; OpUndo]))
     = {| line := 0; ch := 12 |}.
Proof.
  intros st ops. split; [reflexivity|].
  assert (Hlen : (length (undoStack st) + length ops <= 10)%nat)
    by (vm_compute; lia).
  destruct (undos_revert_insertions ops st eq_refl Hlen) as [_ [Hc Hl]].
  split; [exact (Hl 0%nat) | exact Hc].
Defined.

(** ** Where the detector answers no *)

Lemma countPairs_absent (c : ascii) (s : jsstring) :
  ~ In c s -> countPairs c s = 0.
Proof.
  induction s as [|x s IH]; intros H; [reflexivity|].
  rewrite countPairs_cons_other.
  - apply IH. intros Hin. apply H. right. assumption.
  - intros ->. apply H. left. reflexivity.
Qed.

Lemma countPairs_skip (c : ascii) (a b : jsstring) :
  ~ In c a -> countPairs c (a ++ b) = countPairs c b.
Proof.
  induction a as [|x a IH]; intros H; [reflexivity|].
  simpl List.app. rewrite countPairs_cons_other.
  - apply IH. intros Hin. apply H. right. assumption.
  - intros ->. apply H. left. reflexivity.
Qed.

Lemma lastIndexFrom_absent (c : ascii) (s : jsstring) (i : Z) :
  ~ In c s -> lastIndexFrom [c] s i = None.
Proof.
  revert i. induction s as [|x s IH]; intros i H; [reflexivity|].
  rewrite lastIndexFrom_cons, IH
    by (intros Hin; apply H; right; assumption).
  simpl. destruct (Ascii.eqb x c) eqn:E; [|reflexivity].
  apply Ascii.eqb_eq in E. subst x. destruct H. left. reflexivity.
Qed.

Lemma lastIndexFrom_last (c : ascii) (a b : jsstring) (i : Z) :
  ~ In c b -> lastIndexFrom [c] (a ++ c :: b) i = Some (i + len a).
Proof.
  intros H. revert i. induction a as [|y a IH]; intros i.
  - simpl List.app. rewrite lastIndexFrom_cons, lastIndexFrom_absent
      by assumption.
    replace (startsWith (c :: b) [c]) with true
      by (symmetry; apply startsWith_true_iff; exists b; reflexivity).
    f_equal. change (len []) with 0. lia.
  - simpl List.app. rewrite lastIndexFrom_cons, IH. f_equal.
    unfold len. simpl length. lia.
Qed.

Lemma lastIndexFrom_ge (pat s : jsstring) (i j : Z) :
  lastIndexFrom pat s i = Some j -> i <= j.
Proof.
  revert i. induction s as [|x s IH]; intros i.
  - rewrite lastIndexFrom_nil. destruct (startsWith [] pat);
      [intros H; injection H as <-; lia | discriminate].
  - rewrite lastIndexFrom_cons.
    destruct (lastIndexFrom pat s (i + 1)) as [k|] eqn:E.
    + intros H. injection H as <-. apply IH in E. lia.
    + destruct (startsWith (x :: s) pat);
        [intros H; injection H as <-; lia | discriminate].
Qed.

Lemma lastIndexOf_ge (s pat : jsstring) : -1 <= lastIndexOf s pat.
Proof.
  unfold lastIndexOf. destruct (lastIndexFrom pat s 0) as [j|] eqn:E;
    [apply lastIndexFrom_ge in E|]; lia.
Qed.

(** X11. Where no opening bracket precedes the column, the detector
    answers no, whatever follows; so a line without an opening bracket is
    not inside a link at any column. *)
Theorem isInsideLink_needs_open_bracket (ln : jsstring) (col : Z) :
  (~ In "["%char (slice ln 0 col) -> isInsideLink ln col = false)
  /\ (~ In "["%char ln -> isInsideLink ln col = false).
Proof.
  assert (H : ~ In "["%char (slice ln 0 col) -> isInsideLink ln col = false).
  { intros Hno. unfold isInsideLink.
    rewrite (countPairs_absent "["%char) by assumption.
    pose proof (countPairs_nonneg "]"%char (slice ln 0 col)) as Hc.
    destruct (0 >? _) eqn:E;
      [rewrite Z.gtb_ltb in E; apply Z.ltb_lt in E; lia|].
    unfold lastIndexOf at 1. change (str "[") with ["["%char].
    rewrite lastIndexFrom_absent by assumption.
    pose proof (lastIndexOf_ge (slice ln 0 col) (str "]")) as Hl.
    destruct (-1 >? _) eqn:E2;
      [rewrite Z.gtb_ltb in E2; apply Z.ltb_lt in E2; lia|].
    reflexivity. }
  split; [exact H|].
  intros Hno. apply H. intros Hin. apply Hno. eapply slice_In. exact Hin.
Qed.

Lemma isInsideLink_needs_open_bracket_witness :
  isInsideLink (str "a] b](c) Note ") 13 = false.
Proof.
  apply (proj2 (isInsideLink_needs_open_bracket (str "a] b](c) Note ") 13)).
  simpl. intros H.
  repeat (destruct H as [H|H]; [discriminate|]). destruct H.
Defined.

(** X12. Behind a closed link the detector answers no: when the text
    before the link, the inside of the link and the text between the link
    and the column have no bracket, the column is not inside a link,
    whatever follows it. *)
Theorem isInsideLink_after_closed_link
    (pre body rest post : jsstring) :
  (forall c, In c (pre ++ body ++ rest) ->
             c <> "["%char /\ c <> "]"%char) ->
  isInsideLink (pre ++ str "[[" ++ body ++ str "]]" ++ rest ++ post)
    (len (pre ++ str "[[" ++ body ++ str "]]" ++ rest)) = false.
Proof.
  intros Hfree.
  assert (Hno : forall c seg, (c = "["%char \/ c = "]"%char) ->
                  (forall x, In x seg -> In x (pre ++ body ++ rest)) ->
                  ~ In c seg).
  { intros c seg Hc Hsub Hin. destruct (Hfree c (Hsub c Hin)) as [H1 H2].
    destruct Hc; contradiction. }
  assert (Hpre : forall x, In x pre -> In x (pre ++ body ++ rest))
    by (intros x Hx; apply in_app_iff; left; assumption).
  assert (Hbody : forall x, In x body -> In x (pre ++ body ++ rest))
    by (intros x Hx; rewrite !in_app_iff; right; left; assumption).
  assert (Hrest : forall x, In x rest -> In x (pre ++ body ++ rest))
    by (intros x Hx; rewrite !in_app_iff; right; right; assumption).
  unfold isInsideLink.
  replace (pre ++ str "[[" ++ body ++ str "]]" ++ rest ++ post)
    with ((pre ++ str "[[" ++ body ++ str "]]" ++ rest) ++ post)
    by (rewrite <- !app_assoc; reflexivity).
  rewrite slice_0_app.
  set (before := pre ++ str "[[" ++ body ++ str "]]" ++ rest).
  assert (Hopen : countPairs "["%char before = 1).
  { unfold before. rewrite countPairs_skip by (apply Hno; auto).
    change (str "[[" ++ body ++ str "]]" ++ rest)
      with ("["%char :: "["%char :: (body ++ str "]]" ++ rest)).
    rewrite countPairs_cons2. simpl (_ && _). cbv iota.
    rewrite countPairs_absent; [reflexivity|].
    rewrite !in_app_iff. intros [H|[H|H]].
    - revert H. apply Hno; auto.
    - simpl in H. destruct H as [H|[H|[]]]; discriminate.
    - revert H. apply Hno; auto. }
  assert (Hclose : countPairs "]"%char before = 1).
  { unfold before.
    replace (pre ++ str "[[" ++ body ++ str "]]" ++ rest)
      with ((pre ++ str "[[" ++ body) ++ str "]]" ++ rest)
      by (rewrite <- !app_assoc; reflexivity).
    rewrite countPairs_skip.
    - change (str "]]" ++ rest) with ("]"%char :: "]"%char :: rest).
      rewrite countPairs_cons2. simpl (_ && _). cbv iota.
      rewrite countPairs_absent by (apply Hno; auto). reflexivity.
    - rewrite !in_app_iff. intros [H|[H|H]].
      + revert H. apply Hno; auto.
      + simpl in H. destruct H as [H|[H|[]]]; discriminate.
      + revert H. apply Hno; auto. }
  rewrite Hopen, Hclose. change (1 >? 1) with false. cbv iota.
  assert (Hlo : lastIndexOf before (str "[") = len pre + 1).
  { unfold lastIndexOf, before.
    replace (pre ++ str "[[" ++ body ++ str "]]" ++ rest)
      with ((pre ++ ["["%char]) ++ "["%char :: (body ++ str "]]" ++ rest))
      by (rewrite <- !app_assoc; reflexivity).
    change (str "[") with ["["%char]. rewrite lastIndexFrom_last.
    - rewrite len_app. reflexivity.
    - rewrite !in_app_iff. intros [H|[H|H]].
      + revert H. apply Hno; auto.
      + simpl in H. destruct H as [H|[H|[]]]; discriminate.
      + revert H. apply Hno; auto. }
  assert (Hlc : lastIndexOf before (str "]") = len pre + 2 + len body + 1).
  { unfold lastIndexOf, before.
    replace (pre ++ str "[[" ++ body ++ str "]]" ++ rest)
      with ((pre ++ str "[[" ++ body ++ ["]"%char]) ++ "]"%char :: rest)
      by (rewrite <- !app_assoc; reflexivity).
    change (str "]") with ["]"%char]. rewrite lastIndexFrom_last
      by (apply Hno; auto).
    rewrite !len_app. change (len (str "[[")) with 2.
    change (len ["]"%char]) with 1. lia. }
  rewrite Hlo, Hlc. pose proof (len_nonneg body).
  replace (len pre + 1 >? len pre + 2 + len body + 1) with false
    by (symmetry; rewrite Z.gtb_ltb; apply Z.ltb_ge; lia).
  reflexivity.
Qed.

Lemma isInsideLink_after_closed_link_witness :
  isInsideLink (str "see [[Note]] and](x)") 16 = false.
Proof.
  apply (isInsideLink_after_closed_link (str "see ") (str "Note")
           (str " and") (str "](x)")).
  intros c H. simpl in H.
  repeat (destruct H as [<-|H]; [split; discriminate|]). destruct H.
Defined.

(** ** The suggestion popup *)

Lemma accept_selected (q : SuggestionPopup.t) (m : Match) :
  SuggestionPopup.isActive q = true ->
  itemAt (SuggestionPopup.matches q) (SuggestionPopup.selected q) = Some m ->
  SuggestionPopup.accept q = Some (SuggestionPopup.OnAccept (Some m)).
Proof.
  intros Ha Hm. unfold SuggestionPopup.accept. rewrite Ha, Hm.
  destruct (SuggestionPopup.matches q) as [|x l].
  - unfold itemAt in Hm.
    destruct (SuggestionPopup.selected q <? 0); [discriminate|].
    destruct (Z.to_nat (SuggestionPopup.selected q)); discriminate.
  - reflexivity.
Qed.

Lemma itemAt_in_range {A : Type} (l : list A) (i : Z) :
  0 <= i < Z.of_nat (length l) ->
  exists x, itemAt l i = Some x /\ In x l.
Proof.
  intros H. unfold itemAt.
  destruct (i <? 0) eqn:E; [apply Z.ltb_lt in E; lia|].
  destruct (nth_error l (Z.to_nat i)) as [x|] eqn:En.
  - exists x. split; [reflexivity|]. eapply nth_error_In. exact En.
  - apply nth_error_None in En. lia.
Qed.

Section PopupKeys.

Import SuggestionPopup.

Variable p : t.
Variable dom : Dom.
Variable ed : Editor.

Hypothesis in_body : popupInBody dom = true.
Hypothesis editor_event : isEditorEvent dom = true.
Hypothesis active : isActive p = true.

Let n : Z := Z.of_nat (length (matches p)).

Lemma popup_guards (key : PopupKey) :
  handleKeydown p dom ed key
  = match key with
    | ArrowDown =>
        {| after := withSelected p (Z.rem (selected p + 1) n);
           defaultPrevented := true; callback := None |}
    | ArrowUp =>
        {| after := withSelected p (Z.rem (selected p - 1 + n) n);
           defaultPrevented := true; callback := None |}
    | Enter =>
        if allowEnterAccept p && negb (isObsidianUsingEnter p dom ed)
        then {| after := p; defaultPrevented := true; callback := accept p |}
        else unhandled p
    | Tab shiftKey =>
        if negb shiftKey && negb (isObsidianUsingTab dom ed)
        then {| after := p; defaultPrevented := true; callback := accept p |}
        else unhandled p
    | Space ctrlOrMeta =>
        if ctrlOrMeta
        then {| after := p; defaultPrevented := true; callback := accept p |}
        else unhandled p
    | Escape =>
        {| after := p; defaultPrevented := true; callback := Some OnClose |}
    | Digit d =>
        if (1 <=? d) && (d <=? 9) then
          if d - 1 <? n then
            {| after := withSelected p (d - 1); defaultPrevented := true;
               callback := accept (withSelected p (d - 1)) |}
          else unhandled p
        else unhandled p
    | OtherPopupKey => unhandled p
    end.
Proof.
  unfold handleKeydown. rewrite in_body, editor_event, active. reflexivity.
Qed.

End PopupKeys.

(** The arrow keys from a component whose selection was set to [i]. *)
Lemma popup_arrow_from (p : SuggestionPopup.t) (dom : SuggestionPopup.Dom)
    (ed : Editor) (i : Z) :
  SuggestionPopup.popupInBody dom = true ->
  SuggestionPopup.isEditorEvent dom = true ->
  SuggestionPopup.isActive p = true ->
  let n := Z.of_nat (length (SuggestionPopup.matches p)) in
  SuggestionPopup.after
    (SuggestionPopup.handleKeydown (SuggestionPopup.withSelected p i) dom ed
       SuggestionPopup.ArrowUp)
  = SuggestionPopup.withSelected p (Z.rem (i - 1 + n) n)
  /\ SuggestionPopup.after
       (SuggestionPopup.handleKeydown (SuggestionPopup.withSelected p i)
          dom ed SuggestionPopup.ArrowDown)
     = SuggestionPopup.withSelected p (Z.rem (i + 1) n).
Proof.
  intros Hb He Ha n. unfold SuggestionPopup.handleKeydown.
  rewrite Hb, He. cbn [SuggestionPopup.isActive SuggestionPopup.withSelected].
  rewrite Ha. split; reflexivity.
Qed.

(** X13. While the popup is active on a list of matches that is not
    empty, the arrow keys move the selection within the list and wrap at
    both ends: down goes to the next index and from the last to the
    first, up goes to the previous one and from the first to the last;
    each undoes the other.  Both prevent the default action, call nothing
    back, and leave the matches, the typed text, the Enter setting and
    the activity of the component as they are. *)
Theorem popup_arrows_wrap (p : SuggestionPopup.t)
    (dom : SuggestionPopup.Dom) (ed : Editor) :
  SuggestionPopup.popupInBody dom = true ->
  SuggestionPopup.isEditorEvent dom = true ->
  SuggestionPopup.isActive p = true ->
  SuggestionPopup.matches p <> [] ->
  let n := Z.of_nat (length (SuggestionPopup.matches p)) in
  0 <= SuggestionPopup.selected p < n ->
  let down := SuggestionPopup.after
                (SuggestionPopup.handleKeydown p dom ed
                   SuggestionPopup.ArrowDown) in
  let up := SuggestionPopup.after
              (SuggestionPopup.handleKeydown p dom ed
                 SuggestionPopup.ArrowUp) in
  SuggestionPopup.selected down
  = (if SuggestionPopup.selected p =? n - 1 then 0
     else SuggestionPopup.selected p + 1)
  /\ SuggestionPopup.selected up
     = (if SuggestionPopup.selected p =? 0 then n - 1
        else SuggestionPopup.selected p - 1)
  /\ 0 <= SuggestionPopup.selected down < n
  /\ 0 <= SuggestionPopup.selected up < n
  /\ SuggestionPopup.after
       (SuggestionPopup.handleKeydown down dom ed SuggestionPopup.ArrowUp)
     = p
  /\ SuggestionPopup.after
       (SuggestionPopup.handleKeydown up dom ed SuggestionPopup.ArrowDown)
     = p
  /\ (forall key,
        key = SuggestionPopup.ArrowDown \/ key = SuggestionPopup.ArrowUp ->
        let o := SuggestionPopup.handleKeydown p dom ed key in
        SuggestionPopup.defaultPrevented o = true
        /\ SuggestionPopup.callback o = None
        /\ SuggestionPopup.matches (SuggestionPopup.after o)
           = SuggestionPopup.matches p
        /\ SuggestionPopup.typed (SuggestionPopup.after o)
           = SuggestionPopup.typed p
        /\ SuggestionPopup.allowEnterAccept (SuggestionPopup.after o)
           = SuggestionPopup.allowEnterAccept p
        /\ SuggestionPopup.isActive (SuggestionPopup.after o)
           = SuggestionPopup.isActive p).
Proof.
  intros Hb He Ha Hm n Hr down up.
  assert (Hd : SuggestionPopup.selected down
               = (if SuggestionPopup.selected p =? n - 1 then 0
                  else SuggestionPopup.selected p + 1)).
  { unfold down. rewrite popup_guards by assumption. simpl. fold n.
    destruct (SuggestionPopup.selected p =? n - 1) eqn:E.
    - apply Z.eqb_eq in E. rewrite E.
      replace (n - 1 + 1) with n by lia. apply Z.rem_same. lia.
    - apply Z.eqb_neq in E. apply Z.rem_small. lia. }
  assert (Hu : SuggestionPopup.selected up
               = (if SuggestionPopup.selected p =? 0 then n - 1
                  else SuggestionPopup.selected p - 1)).
  { unfold up. rewrite popup_guards by assumption. simpl. fold n.
    destruct (SuggestionPopup.selected p =? 0) eqn:E.
    - apply Z.eqb_eq in E. rewrite E. rewrite Z.rem_small by lia. lia.
    - apply Z.eqb_neq in E. rewrite Z.rem_mod_nonneg by lia.
      replace (SuggestionPopup.selected p - 1 + n)
        with (SuggestionPopup.selected p - 1 + 1 * n) by lia.
      rewrite Z_mod_plus_full. apply Z.mod_small. lia. }
  assert (Hdr : 0 <= SuggestionPopup.selected down < n).
  { rewrite Hd. destruct (SuggestionPopup.selected p =? n - 1) eqn:E; [lia|].
    apply Z.eqb_neq in E. lia. }
  assert (Hur : 0 <= SuggestionPopup.selected up < n).
  { rewrite Hu. destruct (SuggestionPopup.selected p =? 0) eqn:E; [lia|].
    apply Z.eqb_neq in E. lia. }
  assert (Hsel : forall i, i = SuggestionPopup.selected p ->
                     SuggestionPopup.withSelected p i = p).
  { intros i ->. destruct p; reflexivity. }
  split; [exact Hd|]. split; [exact Hu|]. split; [exact Hdr|].
  split; [exact Hur|]. split; [|split].
  3:{ intros key [->| ->] o; unfold o;
        rewrite popup_guards by assumption; repeat split. }
  - assert (Ed : down = SuggestionPopup.withSelected p
                          (SuggestionPopup.selected down)).
    { unfold down. rewrite popup_guards by assumption. reflexivity. }
    rewrite Ed, (proj1 (popup_arrow_from p dom ed _ Hb He Ha)).
    apply Hsel. fold n. rewrite Hd.
    destruct (SuggestionPopup.selected p =? n - 1) eqn:E.
    + apply Z.eqb_eq in E. rewrite Z.rem_small by lia. lia.
    + apply Z.eqb_neq in E. rewrite Z.rem_mod_nonneg by lia.
      replace (SuggestionPopup.selected p + 1 - 1 + n)
        with (SuggestionPopup.selected p + 1 * n) by lia.
      rewrite Z_mod_plus_full. apply Z.mod_small. lia.
  - assert (Eu : up = SuggestionPopup.withSelected p
                        (SuggestionPopup.selected up)).
    { unfold up. rewrite popup_guards by assumption. reflexivity. }
    rewrite Eu, (proj2 (popup_arrow_from p dom ed _ Hb He Ha)).
    apply Hsel. fold n. rewrite Hu.
    destruct (SuggestionPopup.selected p =? 0) eqn:E.
    + apply Z.eqb_eq in E. replace (n - 1 + 1) with n by lia.
      rewrite Z.rem_same by lia. lia.
    + apply Z.eqb_neq in E. rewrite Z.rem_small by lia. lia.
Qed.

Lemma popup_arrows_wrap_witness :
  let ed := sampleEditor "Not" 3 in
  SuggestionPopup.selected
    (SuggestionPopup.after
       (SuggestionPopup.handleKeydown samplePopup sampleDom ed
          SuggestionPopup.ArrowUp)) = 1
  /\ SuggestionPopup.after
       (SuggestionPopup.handleKeydown
          (SuggestionPopup.after
             (SuggestionPopup.handleKeydown samplePopup sampleDom ed
                SuggestionPopup.ArrowUp))
          sampleDom ed SuggestionPopup.ArrowDown)
     = samplePopup.
Proof.
  intros ed.
  assert (Hm : SuggestionPopup.matches samplePopup <> []) by discriminate.
  assert (Hr : 0 <= SuggestionPopup.selected samplePopup
               < Z.of_nat (length (SuggestionPopup.matches samplePopup)))
    by (vm_compute; split; [discriminate | reflexivity]).
  destruct (popup_arrows_wrap samplePopup sampleDom ed eq_refl eq_refl
              eq_refl Hm Hr) as [_ [Hu [_ [_ [_ [Hback _]]]]]].
  split; [exact Hu | exact Hback].
Defined.

(** X14. While the popup is active, every key that accepts hands over a
    match of the list when the selection is within the list.  A digit
    from 1 to 9 that does not exceed the number of matches selects the
    match at that place and accepts it; a larger digit is left to the
    editor and changes nothing. *)
Theorem popup_accepts_listed_match (p : SuggestionPopup.t)
    (dom : SuggestionPopup.Dom) (ed : Editor) :
  SuggestionPopup.popupInBody dom = true ->
  SuggestionPopup.isEditorEvent dom = true ->
  SuggestionPopup.isActive p = true ->
  let n := Z.of_nat (length (SuggestionPopup.matches p)) in
  (0 <= SuggestionPopup.selected p < n ->
   forall key x,
     SuggestionPopup.callback (SuggestionPopup.handleKeydown p dom ed key)
     = Some (SuggestionPopup.OnAccept x) ->
     exists m, x = Some m /\ In m (SuggestionPopup.matches p))
  /\ (forall d, 1 <= d <= 9 -> d <= n ->
        exists m,
          nth_error (SuggestionPopup.matches p) (Z.to_nat (d - 1)) = Some m
          /\ SuggestionPopup.handleKeydown p dom ed (SuggestionPopup.Digit d)
             = {| SuggestionPopup.after :=
                    SuggestionPopup.withSelected p (d - 1);
                  SuggestionPopup.defaultPrevented := true;
                  SuggestionPopup.callback :=
                    Some (SuggestionPopup.OnAccept (Some m)) |})
  /\ (forall d, n < d ->
        SuggestionPopup.handleKeydown p dom ed (SuggestionPopup.Digit d)
        = SuggestionPopup.unhandled p).
Proof.
  intros Hb He Ha n.
  assert (Hacc : forall q x,
            SuggestionPopup.matches q = SuggestionPopup.matches p ->
            0 <= SuggestionPopup.selected q < n ->
            SuggestionPopup.accept q = Some (SuggestionPopup.OnAccept x) ->
            exists m, x = Some m /\ In m (SuggestionPopup.matches p)).
  { intros q x Hq Hr H. unfold SuggestionPopup.accept in H.
    destruct (_ && _); [|discriminate]. injection H as <-.
    rewrite Hq. destruct (itemAt_in_range (SuggestionPopup.matches p)
                            (SuggestionPopup.selected q) Hr) as [m [E Hin]].
    exists m. auto. }
  split; [|split].
  - intros Hr key x H. rewrite popup_guards in H by assumption.
    destruct key; simpl in H; try discriminate.
    + destruct (_ && _); simpl in H; [|discriminate].
      apply (Hacc p x eq_refl Hr H).
    + destruct (_ && _); simpl in H; [|discriminate].
      apply (Hacc p x eq_refl Hr H).
    + destruct ctrlOrMeta; simpl in H; [|discriminate].
      apply (Hacc p x eq_refl Hr H).
    + destruct ((1 <=? d) && (d <=? 9)) eqn:Ed; simpl in H; [|discriminate].
      apply andb_true_iff in Ed. destruct Ed as [E1 E2].
      apply Z.leb_le in E1, E2.
      destruct (d - 1 <? _) eqn:Elt; simpl in H; [|discriminate].
      apply Z.ltb_lt in Elt.
      apply (Hacc (SuggestionPopup.withSelected p (d - 1)) x eq_refl);
        [simpl; unfold n; lia | exact H].
  - intros d Hd Hn.
    destruct (itemAt_in_range (SuggestionPopup.matches p) (d - 1))
      as [m [E Hin]]; [fold n; lia|].
    exists m. split.
    + unfold itemAt in E. destruct (d - 1 <? 0) eqn:E0;
        [apply Z.ltb_lt in E0; lia | exact E].
    + rewrite popup_guards by assumption.
      replace ((1 <=? d) && (d <=? 9)) with true
        by (symmetry; apply andb_true_iff; split; apply Z.leb_le; lia).
      replace (d - 1 <? Z.of_nat (length (SuggestionPopup.matches p)))
        with true by (symmetry; apply Z.ltb_lt; fold n; lia).
      f_equal. apply accept_selected; assumption.
  - intros d Hd. rewrite popup_guards by assumption.
    destruct ((1 <=? d) && (d <=? 9)); [|reflexivity].
    replace (d - 1 <? Z.of_nat (length (SuggestionPopup.matches p)))
      with false by (symmetry; apply Z.ltb_ge; fold n; lia).
    reflexivity.
Qed.

Lemma popup_accepts_listed_match_witness :
  let ed := sampleEditor "Not" 3 in
  SuggestionPopup.callback
    (SuggestionPopup.handleKeydown samplePopup sampleDom ed
       (SuggestionPopup.Digit 2))
  = Some (SuggestionPopup.OnAccept
            (Some {| title := str "Notes"; file := sampleFile "Notes";
                     isAlias := false |}))
  /\ SuggestionPopup.handleKeydown samplePopup sampleDom ed
       (SuggestionPopup.Digit 3)
     = SuggestionPopup.unhandled samplePopup.
Proof.
  intros ed. split; [reflexivity|].
  apply (proj2 (proj2 (popup_accepts_listed_match samplePopup sampleDom ed
                         eq_refl eq_refl eq_refl)) 3).
  vm_compute. reflexivity.
Defined.

(** X15. Whether Enter is left to the editor does not depend on the text
    of the editor nor on the typed text: [isObsidianUsingEnter] holds
    exactly when text is selected or an input or text area has the focus.
    So, while the popup is active, Enter is taken exactly when the popup
    allows it, nothing is selected and no such field has the focus.  A
    popup opened in the custom mode with Enter acceptance switched off
    never takes Enter. *)
Theorem popup_enter_policy (p : SuggestionPopup.t)
    (dom : SuggestionPopup.Dom) (ed : Editor) :
  let busy :=
    SuggestionPopup.hasSelection dom
    || match SuggestionPopup.activeElement dom with
       | Some el => SuggestionPopup.isInputOrTextarea el
       | None => false
       end in
  SuggestionPopup.isObsidianUsingEnter p dom ed = busy
  /\ (SuggestionPopup.popupInBody dom = true ->
      SuggestionPopup.isEditorEvent dom = true ->
      SuggestionPopup.isActive p = true ->
      SuggestionPopup.defaultPrevented
        (SuggestionPopup.handleKeydown p dom ed SuggestionPopup.Enter)
      = SuggestionPopup.allowEnterAccept p && negb busy)
  /\ (forall st ms typed pp,
        mode (settings st) = custom ->
        customAllowEnterAccept (settings st) = false ->
        popup (showSuggestionPopup st ms typed) = Some pp ->
        SuggestionPopup.handleKeydown (SuggestionPopup.mounted pp) dom ed
          SuggestionPopup.Enter
        = SuggestionPopup.unhandled (SuggestionPopup.mounted pp)).
Proof.
  intros busy.
  assert (H1 : SuggestionPopup.isObsidianUsingEnter p dom ed = busy).
  { unfold SuggestionPopup.isObsidianUsingEnter, busy.
    destruct (SuggestionPopup.hasSelection dom); [reflexivity|].
    destruct (SuggestionPopup.activeElement dom) as [el|]; [|reflexivity].
    destruct (SuggestionPopup.isInputOrTextarea el); [reflexivity|].
    destruct (SuggestionPopup.inEditor el); [|reflexivity].
    cbv zeta. destruct (endsWith _ _); reflexivity. }
  split; [exact H1|]. split.
  - intros Hb He Ha. rewrite popup_guards by assumption. rewrite H1.
    destruct (_ && _); reflexivity.
  - intros st ms typed pp Hm Hc Hp.
    unfold showSuggestionPopup in Hp. simpl in Hp. injection Hp as <-.
    unfold SuggestionPopup.handleKeydown, SuggestionPopup.mounted.
    cbn [SuggestionPopup.isActive SuggestionPopup.allowEnterAccept
         p_allowEnterAccept].
    unfold allowEnterAccept. cbn [settings closePopup with_popup].
    rewrite Hm, Hc.
    destruct (negb (SuggestionPopup.popupInBody dom) || negb true);
      [reflexivity|].
    destruct (negb (SuggestionPopup.isEditorEvent dom)); reflexivity.
Qed.

Lemma popup_enter_policy_witness :
  SuggestionPopup.defaultPrevented
    (SuggestionPopup.handleKeydown samplePopup sampleDom
       (sampleEditor "something else" 3) SuggestionPopup.Enter) = true.
Proof.
  rewrite (proj1 (proj2 (popup_enter_policy samplePopup sampleDom
                           (sampleEditor "something else" 3)))
             eq_refl eq_refl eq_refl).
  reflexivity.
Defined.

(** ** When the automatic modes write *)

(** X16. In the automatic modes the change handler writes a line only at
    a word completion: auto-linking is not suspended, the cursor is not
    inside a link, the character before the cursor is a delimiter, and
    the completed word has exactly one candidate.  In particular nothing
    is written while a word is still being typed. *)
Theorem auto_modes_write_only_at_completion (st : State) (now : Z)
    (view : option View) :
  isAutoMode (mode (settings st)) = true ->
  wroteLine st (handleEditorChange st now view) ->
  let cur := cursor (editor st) in
  let ln := getLine (editor st) (line cur) in
  isAutoLinkDisabled st = false
  /\ isInsideLink ln (ch cur) = false
  /\ (exists c, charAt ln (ch cur - 1) = Some c /\ isDelimiter c = true)
  /\ exists v w m,
       view = Some v
       /\ completedWordOf ln (ch cur) = Some w
       /\ findMatches st w
            (match v_file v with Some f => basename f | None => [] end)
          = [m].
Proof.
  intros Hmode Hw cur ln.
  unfold handleEditorChange, handleEditorChangeWith in Hw.
  destruct view as [v|]; [|destruct (wroteLine_same_log _ _ eq_refl Hw)].
  destruct (isAutoLinkDisabled st);
    [destruct (wroteLine_same_log _ _ eq_refl Hw)|].
  fold cur in Hw. fold ln in Hw.
  destruct (isInsideLink ln (ch cur));
    [destruct (wroteLine_same_log _ _ eq_refl Hw)|].
  destruct (matchSuffix isFragmentChar (slice ln 0 (ch cur))) as [fr|];
    [|destruct (wroteLine_same_log _ _ eq_refl Hw)].
  destruct (len (trim fr) <? _);
    [destruct (wroteLine_same_log _ _ eq_refl Hw)|].
  cbv zeta in Hw.
  set (cb := match v_file v with Some f => basename f | None => [] end) in *.
  set (st1 := with_pending st _) in Hw.
  assert (Hd : forall ms typed c0,
            dispatchMode st1 now ms typed c0 = closePopup st1).
  { intros ms typed c0. unfold dispatchMode.
    change (mode (settings st1)) with (mode (settings st)).
    destruct (mode (settings st)); try discriminate; reflexivity. }
  rewrite Hd in Hw.
  change (mode (settings st1)) with (mode (settings st)) in Hw.
  rewrite Hmode in Hw. cbn [andb] in Hw.
  split; [reflexivity|]. split; [reflexivity|].
  destruct (ch cur >? 0);
    [|destruct (wroteLine_same_log _ _ eq_refl Hw)].
  destruct (charAt ln (ch cur - 1)) as [c|];
    [|destruct (wroteLine_same_log _ _ eq_refl Hw)].
  destruct (isDelimiter c) eqn:Ec;
    [|destruct (wroteLine_same_log _ _ eq_refl Hw)].
  split; [exists c; auto|].
  unfold tryCompleteWord, completedWordOf in *. cbv zeta in Hw.
  destruct (matchSuffix isFragmentChar (slice ln 0 (ch cur - 1)))
    as [w|]; [|destruct (wroteLine_same_log _ _ eq_refl Hw)].
  change (findMatches st1 (trim w) cb) with (findMatches st (trim w) cb)
    in Hw.
  destruct (findMatches st (trim w) cb) as [|m [|m' ms]] eqn:Em;
    try (destruct (wroteLine_same_log _ _ eq_refl Hw)).
  exists v, (trim w), m. repeat split. exact Em.
Qed.

Lemma auto_modes_write_only_at_completion_witness :
  let st := sampleState DEFAULT_SETTINGS [sampleFile "Note"] noAliases
              "Note " 5 in
  exists c, charAt (getLine (editor st) 0) 4 = Some c
            /\ isDelimiter c = true.
Proof.
  intros st.
  assert (Hw : wroteLine st (handleEditorChange st 1 sampleView)).
  { exists (skipn (length (log st)) (log (handleEditorChange st 1 sampleView))),
           0%nat, (str "[[Note]] ").
    split; [reflexivity|]. vm_compute. right. left. reflexivity. }
  destruct (auto_modes_write_only_at_completion st 1 sampleView eq_refl Hw)
    as [_ [_ [H _]]].
  exact H.
Defined.

(** ** The custom mode *)

(** X17. In the custom mode with automatic insertion, the change handler
    links as soon as the typed word has exactly one match, without
    waiting for a delimiter.  The line ends at the cursor with a word of
    letters, digits, underscores, hyphens and inner white space that does
    not begin or end with white space, after white space or none, and
    before that the start of the line or another character; the word is
    at least [minWordLength] long and the link has no dollar sign.  Then
    the word is replaced by the link, what precedes it is kept, and the
    cursor goes to the end of the link. *)
Theorem custom_mode_links_while_typing (st : State) (now : Z) (v : View)
    (pre ws typed : jsstring) (m : Match) :
  let cur := cursor (editor st) in
  let cb := match v_file v with Some f => basename f | None => [] end in
  let st' := handleEditorChange st now (Some v) in
  mode (settings st) = custom ->
  customAutoInsertSingleMatch (settings st) = true ->
  isAutoLinkDisabled st = false ->
  getLine (editor st) (line cur) = pre ++ ws ++ typed ->
  ch cur = len (pre ++ ws ++ typed) ->
  isInsideLink (pre ++ ws ++ typed) (ch cur) = false ->
  lastIs isFragmentChar pre = false ->
  forallb isSpace ws = true ->
  typed <> [] ->
  forallb isFragmentChar typed = true ->
  firstIs isSpace typed = false ->
  lastIs isSpace typed = false ->
  minWordLength (settings st) <= len typed ->
  findMatches st typed cb = [m] ->
  ~ In "$"%char (makeLink m) ->
  getLine (editor st') (line cur) = pre ++ ws ++ makeLink m
  /\ cursor (editor st')
     = {| line := line cur; ch := len pre + len ws + len (makeLink m) |}
  /\ popup st' = None.
Proof.
  intros cur cb st' Hmode Hauto Hen Hln Hch Hin Hpre Hws Hne Hfc Hf Hl
         Hmin Hm Hd.
  assert (Hs : slice (pre ++ ws ++ typed) 0 (len (pre ++ ws ++ typed))
               = pre ++ ws ++ typed).
  { rewrite <- (app_nil_r (pre ++ ws ++ typed)) at 1. apply slice_0_app. }
  assert (Hfrag : matchSuffix isFragmentChar (pre ++ ws ++ typed)
                  = Some (ws ++ typed)).
  { apply matchSuffix_fragmentOf. split; [|split].
    - intros E. apply app_eq_nil in E. destruct E. contradiction.
    - rewrite forallb_app, (space_isFragmentChar _ Hws), Hfc. reflexivity.
    - exists pre. split; [reflexivity | exact Hpre]. }
  assert (Htrim : trim (ws ++ typed) = typed).
  { apply trim_trimmedOf. exists ws, [].
    rewrite app_nil_r. repeat split; assumption. }
  unfold st', handleEditorChange, handleEditorChangeWith.
  rewrite Hen. fold cur. rewrite Hln, Hin, Hch, Hs, Hfrag, Htrim.
  destruct (len typed <? minWordLength (settings st)) eqn:E;
    [apply Z.ltb_lt in E; lia|].
  cbv zeta. fold cb. rewrite Hm.
  set (st1 := with_pending st _).
  change (mode (settings st1)) with (mode (settings st)). rewrite Hmode.
  cbn [isAutoMode andb]. unfold dispatchMode.
  change (mode (settings st1)) with (mode (settings st)).
  change (customAutoInsertSingleMatch (settings st1))
    with (customAutoInsertSingleMatch (settings st)).
  rewrite Hmode, Hauto. simpl (_ && _).
  assert (He : editor (handleAutonomousMode st1 now typed [m] cur)
               = editor_setCursor
                   (editor_setLine (editor st) (line cur)
                      (pre ++ ws ++ makeLink m))
                   {| line := line cur;
                      ch := len pre + len ws + len (makeLink m) |}).
  { rewrite handleAutonomousMode_editor.
    change (editor st1) with (editor st). rewrite Hln.
    replace (pre ++ ws ++ typed) with ((pre ++ ws) ++ typed)
      by (rewrite <- app_assoc; reflexivity).
    rewrite replaceAtEnd_suffix by assumption.
    rewrite <- app_assoc. f_equal. f_equal.
    rewrite Hch, !len_app. lia. }
  cbv iota. rewrite He. split; [apply getLine_setLine_same|].
  split; reflexivity.
Qed.

Lemma custom_mode_links_while_typing_witness :
  let s := {| mode := custom; minWordLength := 3; caseSensitive := false;
              includeAliases := true; customFolders := [];
              debounceMs := 300; maxSuggestions := 10;
              customAllowEnterAccept := true;
              customAutoInsertSingleMatch := true |} in
  let st := sampleState s [sampleFile "Note"] noAliases "Hello, Not" 10 in
  getLine (editor (handleEditorChange st 1 sampleView)) 0
  = str "Hello, [[Note]]".
Proof.
  intros s st.
  assert (Hd : ~ In "$"%char (makeLink noteMatch)).
  { simpl. intros H.
    repeat (destruct H as [H|H]; [discriminate|]). destruct H. }
  assert (Hne : str "Not" <> []) by discriminate.
  assert (Hmin : minWordLength (settings st) <= len (str "Not"))
    by (vm_compute; discriminate).
  destruct (custom_mode_links_while_typing st 1
              {| v_file := Some (sampleFile "Today") |}
              (str "Hello,") (str " ") (str "Not") noteMatch
              eq_refl eq_refl eq_refl eq_refl eq_refl eq_refl eq_refl
              eq_refl Hne eq_refl eq_refl eq_refl Hmin eq_refl Hd)
    as [H _].
  exact H.
Defined.

(** ** Tab and the highlight in the popup *)

(** X18. [isObsidianUsingTab] leaves Tab to the editor when text is
    selected.  Without a selection and with the focus in the editor, it
    leaves Tab to the editor exactly when only white space precedes the
    cursor on its line, so that Tab can indent.  Without a selection and
    with the focus outside the editor it does not. *)
Theorem popup_tab_policy (dom : SuggestionPopup.Dom) (ed : Editor) :
  let before := slice (getLine ed (line (cursor ed))) 0 (ch (cursor ed)) in
  (SuggestionPopup.hasSelection dom = true ->
   SuggestionPopup.isObsidianUsingTab dom ed = true)
  /\ (SuggestionPopup.hasSelection dom = false ->
      forall el, SuggestionPopup.activeElement dom = Some el ->
                 SuggestionPopup.inEditor el = true ->
                 (SuggestionPopup.isObsidianUsingTab dom ed = true
                  <-> forallb isSpace before = true))
  /\ (SuggestionPopup.hasSelection dom = false ->
      (forall el, SuggestionPopup.activeElement dom = Some el ->
                  SuggestionPopup.inEditor el = false) ->
      SuggestionPopup.isObsidianUsingTab dom ed = false).
Proof.
  intros before. unfold SuggestionPopup.isObsidianUsingTab.
  split; [|split].
  - intros ->. reflexivity.
  - intros -> el -> ->. cbv zeta. fold before.
    destruct (ch (cursor ed) =? 0) eqn:E0.
    + simpl. split; [intros _|reflexivity].
      apply Z.eqb_eq in E0. unfold before. rewrite E0.
      rewrite slice_0_firstn by lia. reflexivity.
    + simpl. destruct (streq (trim before) []) eqn:Et.
      * apply streq_true_iff, trim_blank in Et. tauto.
      * apply streq_false_iff in Et. split; [discriminate|].
        intros H. apply trim_blank in H. contradiction.
  - intros -> Hel. destruct (SuggestionPopup.activeElement dom) as [el|];
      [|reflexivity].
    rewrite (Hel el eq_refl). reflexivity.
Qed.

Lemma popup_tab_policy_witness :
  SuggestionPopup.isObsidianUsingTab sampleDom (sampleEditor "   Not" 3)
  = true
  /\ SuggestionPopup.isObsidianUsingTab sampleDom (sampleEditor "   Not" 6)
     = false.
Proof.
  split.
  - apply (proj1 (proj2 (popup_tab_policy sampleDom
                           (sampleEditor "   Not" 3)))
             eq_refl _ eq_refl eq_refl).
    reflexivity.
  - destruct (SuggestionPopup.isObsidianUsingTab sampleDom
                (sampleEditor "   Not" 6)) eqn:E; [|reflexivity].
    apply (proj1 (proj2 (popup_tab_policy sampleDom
                           (sampleEditor "   Not" 6)))
             eq_refl _ eq_refl eq_refl) in E.
    vm_compute in E. discriminate.
Defined.

Lemma indexFrom_sound (pat s : jsstring) (i j : Z) :
  indexFrom pat s i = Some j ->
  exists a b, s = a ++ pat ++ b /\ j = i + len a.
Proof.
  revert i. induction s as [|x s IH]; intros i H.
  - cbn [indexFrom] in H. destruct (startsWith [] pat) eqn:E; [|discriminate].
    injection H as <-. apply startsWith_true_iff in E.
    destruct E as [t E]. exists [], t. split; [exact E|].
    change (len []) with 0. lia.
  - cbn [indexFrom] in H. destruct (startsWith (x :: s) pat) eqn:E.
    + injection H as <-. apply startsWith_true_iff in E.
      destruct E as [t E]. exists [], t. split; [exact E|].
      change (len []) with 0. lia.
    + apply IH in H. destruct H as [a [b [-> ->]]].
      exists (x :: a), b. split; [reflexivity|].
      unfold len. simpl length. lia.
Qed.

Lemma slice_mid {A : Type} (l : list A) (a b : Z) :
  0 <= a <= b -> b <= Z.of_nat (length l) ->
  slice l a b = firstn (Z.to_nat (b - a)) (skipn (Z.to_nat a) l).
Proof.
  intros H1 H2. unfold slice, relIndex.
  destruct (a <? 0) eqn:Ea; [apply Z.ltb_lt in Ea; lia|].
  destruct (b <? 0) eqn:Eb; [apply Z.ltb_lt in Eb; lia|].
  rewrite !Z.min_l by lia. reflexivity.
Qed.

Lemma map_app_split {A B : Type} (f : A -> B) (l : list A) (x y : list B) :
  map f l = x ++ y ->
  exists l1 l2, l = l1 ++ l2 /\ map f l1 = x /\ map f l2 = y.
Proof.
  revert x. induction l as [|c l IH]; intros x H.
  - symmetry in H. apply app_eq_nil in H. destruct H as [-> ->].
    exists [], []. auto.
  - destruct x as [|d x]; simpl in H.
    + exists [], (c :: l). auto.
    + injection H as <- H. apply IH in H.
      destruct H as [l1 [l2 [-> [<- <-]]]].
      exists (c :: l1), l2. auto.
Qed.

Lemma indexFrom_complete (pat a b : jsstring) (i : Z) :
  exists j, indexFrom pat (a ++ pat ++ b) i = Some j.
Proof.
  revert i. induction a as [|x a IH]; intros i.
  - simpl List.app. destruct (pat ++ b) as [|y r] eqn:E.
    + cbn [indexFrom]. rewrite <- E, startsWith_app_same. eauto.
    + cbn [indexFrom]. rewrite <- E, startsWith_app_same. eauto.
  - simpl List.app. cbn [indexFrom].
    destruct (startsWith (x :: a ++ pat ++ b) pat); [eauto|apply IH].
Qed.

Lemma highlightMatch_cases (typed title : jsstring) :
  (highlightMatch typed title = title
   /\ (typed = []
       \/ indexFrom (toLowerCase typed) (toLowerCase title) 0 = None))
  \/ (typed <> []
      /\ exists before mid after,
           title = before ++ mid ++ after
           /\ toLowerCase mid = toLowerCase typed
           /\ highlightMatch typed title
              = before ++ str "<mark>" ++ mid ++ str "</mark>" ++ after).
Proof.
  unfold highlightMatch. destruct typed as [|c t]; [left; auto|].
  destruct (indexFrom _ _ 0) as [j|] eqn:E; [|left; auto].
  right. split; [discriminate|].
  apply indexFrom_sound in E. destruct E as [a [b [E ->]]].
  unfold toLowerCase in E.
  apply map_app_split in E. destruct E as [l1 [r1 [-> [Ha E]]]].
  apply map_app_split in E. destruct E as [l2 [l3 [-> [Hm Hb]]]].
  assert (Hl1 : len a = len l1).
  { unfold len. rewrite <- Ha, length_map. reflexivity. }
  assert (Hl2 : len (c :: t) = len l2).
  { unfold len. rewrite <- (length_map lowerChar (c :: t)).
    rewrite <- Hm, length_map. reflexivity. }
  exists l1, l2, l3. split; [reflexivity|]. split; [exact Hm|].
  cbv zeta. rewrite Z.add_0_l, Hl1, Hl2.
  rewrite slice_0_app.
  replace (sliceFrom (l1 ++ l2 ++ l3) (len l1 + len l2)) with l3.
  2:{ rewrite sliceFrom_skipn by (unfold len; lia).
      unfold len. rewrite <- Nat2Z.inj_add, Nat2Z.id.
      rewrite app_assoc, skipn_app, <- length_app, Nat.sub_diag, skipn_all.
      reflexivity. }
  replace (slice (l1 ++ l2 ++ l3) (len l1) (len l1 + len l2)) with l2;
    [reflexivity|].
  rewrite slice_mid.
  - unfold len. rewrite Nat2Z.id.
    replace (Z.to_nat (Z.of_nat (length l1) + Z.of_nat (length l2)
                       - Z.of_nat (length l1))) with (length l2) by lia.
    rewrite skipn_app, Nat.sub_diag, skipn_all. simpl.
    rewrite firstn_app, Nat.sub_diag, firstn_all. simpl.
    symmetry. apply app_nil_r.
  - unfold len. lia.
  - rewrite !length_app. unfold len. lia.
Qed.

(** X19. For a title and a typed text within ASCII, [highlightMatch]
    only adds the two marks: its result is the title itself, or the title
    with [<mark>] and [</mark>] around a part that equals the typed text
    up to case.  The title comes back unchanged exactly when nothing was
    typed or the typed text does not occur in it, compared in lower
    case. *)
Theorem highlightMatch_adds_marks_only (typed title : jsstring) :
  isAsciiText typed = true ->
  isAsciiText title = true ->
  (highlightMatch typed title = title
   \/ exists before mid after,
        title = before ++ mid ++ after
        /\ toLowerCase mid = toLowerCase typed
        /\ highlightMatch typed title
           = before ++ str "<mark>" ++ mid ++ str "</mark>" ++ after)
  /\ (highlightMatch typed title = title
      <-> typed = []
          \/ ~ exists a b,
                toLowerCase title = a ++ toLowerCase typed ++ b).
Proof.
  intros _ _.
  destruct (highlightMatch_cases typed title)
    as [[E [H|H]]|[Hne [l1 [l2 [l3 [Ht [Hm E]]]]]]].
  - split; [left; exact E|]. split; auto.
  - split; [left; exact E|]. split; [intros _|auto].
    right. intros [a [b Hab]].
    destruct (indexFrom_complete (toLowerCase typed) a b 0) as [j Hj].
    rewrite <- Hab in Hj. congruence.
  - split; [right; exists l1, l2, l3; auto|]. split.
    + intros E'. rewrite E in E'. rewrite Ht in E'.
      apply (f_equal (@length ascii)) in E'.
      rewrite !length_app in E'. simpl in E'. lia.
    + intros [H|H]; [contradiction|]. exfalso. apply H.
      exists (toLowerCase l1), (toLowerCase l3).
      rewrite Ht, <- Hm. unfold toLowerCase. rewrite !map_app. reflexivity.
Qed.

Lemma highlightMatch_adds_marks_only_witness :
  highlightMatch (str "note") (str "My Note") <> str "My Note"
  /\ highlightMatch (str "xyz") (str "My Note") = str "My Note".
Proof.
  destruct (highlightMatch_adds_marks_only (str "note") (str "My Note")
              eq_refl eq_refl) as [_ H1].
  destruct (highlightMatch_adds_marks_only (str "xyz") (str "My Note")
              eq_refl eq_refl) as [_ H2].
  split.
  - intros E. apply H1 in E. destruct E as [E|E]; [discriminate|].
    apply E. exists (str "my "), []. reflexivity.
  - apply H2. right. intros [a [b E]].
    assert (Hinc : includes (toLowerCase (str "My Note"))
                     (toLowerCase (str "xyz")) = true).
    { unfold includes.
      destruct (indexFrom_complete (toLowerCase (str "xyz")) a b 0)
        as [j Hj].
      rewrite <- E in Hj. rewrite Hj. reflexivity. }
    vm_compute in Hinc. discriminate.
Defined.

(** ** Backspace at the end of a link that was just inserted *)

Lemma linkAt_makeLink (m : Match) (post : jsstring) :
  basename (file m) <> [] ->
  forallb notBarOrClose (basename (file m)) = true ->
  (isAlias m = true ->
   title m <> [] /\ forallb notClose (title m) = true) ->
  linkAt (makeLink m ++ post) = Some (makeLink m, basename (file m)).
Proof.
  intros Hne Hb Hal. unfold makeLink.
  destruct (isAlias m).
  - destruct (Hal eq_refl) as [Hl Hc].
    rewrite <- (linkAt_alias _ _ post Hne Hb Hl Hc) at 1.
    f_equal. rewrite <- !app_assoc. reflexivity.
  - rewrite <- (linkAt_plain _ post Hne Hb) at 1.
    f_equal. rewrite <- !app_assoc. reflexivity.
Qed.

Lemma linkAt_not_open (c : ascii) (r : jsstring) :
  c <> "["%char -> linkAt (c :: r) = None.
Proof.
  intros Hc. destruct r as [|b r]; [reflexivity|].
  unfold linkAt. apply Ascii.eqb_neq in Hc. rewrite Hc. reflexivity.
Qed.

Lemma scanLinks_plain_prefix (pre s : jsstring) (pos : Z) :
  ~ In "["%char pre ->
  scanLinks (pre ++ s) O pos = scanLinks s O (pos + len pre).
Proof.
  revert pos. induction pre as [|c pre IH]; intros pos Hno.
  - simpl List.app. change (len []) with 0. rewrite Z.add_0_r. reflexivity.
  - simpl List.app. cbn [scanLinks].
    rewrite linkAt_not_open by (intros ->; apply Hno; left; reflexivity).
    rewrite IH by (intros H; apply Hno; right; exact H).
    f_equal. unfold len. simpl length. lia.
Qed.

Lemma scanLinks_head (s : jsstring) (pos : Z) (mt base : jsstring) :
  linkAt s = Some (mt, base) ->
  exists rest,
    scanLinks s O pos
    = {| index := pos; matched := mt; baseText := base |} :: rest.
Proof.
  intros H. destruct s as [|c s]; [discriminate|].
  cbn [scanLinks]. rewrite H. eexists. reflexivity.
Qed.

(** Backspace with the cursor at the end of the link of the last record,
    when no opening bracket precedes the link: only the time decides. *)
Lemma onKeydown_backspace_at_link_end (st : State) (now : Z)
    (earlier : list UndoRecord) (r : UndoRecord)
    (target pre link post : jsstring) :
  let cur := cursor (editor st) in
  undoStack st = earlier ++ [r] ->
  linkText r = Some target -> target <> [] ->
  u_line r = line cur ->
  getLine (editor st) (line cur) = pre ++ link ++ post ->
  ~ In "["%char pre ->
  linkAt (link ++ post) = Some (link, target) ->
  link <> [] ->
  ch cur = len pre + len link ->
  onKeydown st Backspace now true
  = if noTimestamp r || (now - timestampOr0 r <=? timeLimit)
    then undoLastAutolink
           (temporarilyDisableAutoLink (emit st EvPreventDefault))
    else st.
Proof.
  intros cur Hs Ht Hne Hl Hln Hno Hat Hlk Hch.
  unfold onKeydown. fold cur. rewrite Hs, length_app.
  replace (Z.of_nat (length earlier + length [r]) >? 0) with true
    by (symmetry; apply Z.gtb_lt; simpl; lia).
  cbn [isUndoKey andb]. rewrite rev_app_distr. simpl rev. simpl List.app.
  cbv iota. rewrite Ht. destruct target as [|c t]; [contradiction|].
  rewrite Hl, Nat.eqb_refl, keydownLoop_fires.
  rewrite Hln, scanLinks_plain_prefix by assumption.
  destruct (scanLinks_head _ (0 + len pre) _ _ Hat) as [rest ->].
  cbn [existsb baseText]. rewrite streq_refl.
  unfold nearLinkb. cbn [index matched isBackspaceNearLink].
  rewrite Hch.
  assert (0 < len link)
    by (destruct link; [contradiction|unfold len; simpl length; lia]).
  replace (len pre + len link >? 0 + len pre) with true
    by (symmetry; apply Z.gtb_lt; lia).
  replace (len pre + len link <=? 0 + len pre + len link) with true
    by (symmetry; apply Z.leb_le; lia).
  reflexivity.
Qed.

Lemma acceptSuggestion_top (st : State) (now : Z) (m : Match)
    (typed : jsstring) :
  let r := recordFor (cursor (editor st))
             (getLine (editor st) (line (cursor (editor st)))) now m in
  exists l, undoStack (acceptSuggestion st now m typed) = l ++ [r]
            /\ ((length (undoStack st) < 10)%nat -> l = undoStack st).
Proof.
  intros r.
  destruct (keepLast10_top
              (closePopup
                 (let cur := cursor (editor st) in
                  let ln := getLine (editor st) (line cur) in
                  let st0 := pushUndo st (recordFor cur ln now m) in
                  let link := makeLink m in
                  let beforeCursor := slice ln 0 (ch cur) in
                  let typedStartIndex := lastIndexOf beforeCursor typed in
                  if typedStartIndex =? -1 then
                    let newLine := replaceAtEnd ln typed link in
                    let st1 := setLine st0 (line cur) newLine in
                    setCursor st1 {| line := line cur;
                                     ch := Z.min (len newLine)
                                             (ch cur - len typed + len link) |}
                  else
                    let newLine := slice ln 0 typedStartIndex ++ link
                                   ++ sliceFrom ln (typedStartIndex + len typed) in
                    let st1 := setLine st0 (line cur) newLine in
                    let newCursorPos := typedStartIndex + len link in
                    setCursor st1 {| line := line cur;
                                     ch := Z.min (len newLine) newCursorPos |}))
              (undoStack st) r) as [l Hl].
  { cbv zeta. destruct (lastIndexOf _ _ =? -1); reflexivity. }
  exists l. split; [exact Hl|].
  intros Hlen.
  destruct (acceptSuggestion_ledger st now m typed) as [Hs _]; [lia|].
  rewrite lastN_short in Hs by (rewrite length_app; simpl; lia).
  fold r in Hs.
  change (undoStack (acceptSuggestion st now m typed) = l ++ [r]) in Hl.
  rewrite Hs in Hl. apply app_inj_tail in Hl. symmetry. apply Hl.
Qed.

Lemma acceptSuggestion_editor_typed (st : State) (now : Z) (m : Match)
    (typed pre post : jsstring) :
  let cur := cursor (editor st) in
  getLine (editor st) (line cur) = pre ++ typed ++ post ->
  ch cur = len pre + len typed ->
  editor (acceptSuggestion st now m typed)
  = editor_setCursor
      (editor_setLine (editor st) (line cur) (pre ++ makeLink m ++ post))
      {| line := line cur; ch := len pre + len (makeLink m) |}.
Proof.
  intros cur Hln Hch. rewrite acceptSuggestion_editor. cbv zeta. fold cur.
  rewrite Hln, Hch, slice_prefix3, lastIndexOf_suffix.
  destruct (len pre =? -1) eqn:E;
    [apply Z.eqb_eq in E; pose proof (len_nonneg pre); lia|].
  rewrite slice_0_app, sliceFrom_suffix3. f_equal. f_equal.
  rewrite !len_app. pose proof (len_nonneg post). lia.
Qed.

Lemma makeLink_not_nil (m : Match) : makeLink m <> [].
Proof. unfold makeLink. discriminate. Qed.

(** X20. Backspace right after a suggestion was accepted takes the link
    back.  When the typed text stood just before the cursor with no
    opening bracket before it on the line, and the name of the note and
    the alias make a well-formed link, a Backspace within 30000
    milliseconds of the acceptance, or after an acceptance at time zero,
    restores every line and the cursor, suspends auto-linking and, when
    the ledger was not full, restores the ledger.  More than 30000
    milliseconds after an acceptance at another time than zero, the key
    press changes nothing. *)
Theorem backspace_after_accept_undoes (st : State) (now later : Z)
    (m : Match) (typed pre post : jsstring) :
  let cur := cursor (editor st) in
  let st1 := acceptSuggestion st now m typed in
  getLine (editor st) (line cur) = pre ++ typed ++ post ->
  ch cur = len pre + len typed ->
  ~ In "["%char pre ->
  basename (file m) <> [] ->
  forallb notBarOrClose (basename (file m)) = true ->
  (isAlias m = true ->
   title m <> [] /\ forallb notClose (title m) = true) ->
  (later - now <= 30000 \/ now = 0 ->
   let st2 := onKeydown st1 Backspace later true in
   sameText (editor st) (editor st2)
   /\ isAutoLinkDisabled st2 = true
   /\ In EvPreventDefault (log st2)
   /\ ((length (undoStack st) < 10)%nat -> undoStack st2 = undoStack st))
  /\ (30000 < later - now -> now <> 0 ->
      onKeydown st1 Backspace later true = st1).
Proof.
  intros cur st1 Hln Hch Hno Hne Hb Hal.
  destruct (acceptSuggestion_top st now m typed) as [l [Hl Hfull]].
  fold cur in Hl. fold st1 in Hl.
  pose proof (acceptSuggestion_editor_typed st now m typed pre post Hln Hch)
    as Hed.
  fold cur in Hed. fold st1 in Hed.
  assert (Hkey : onKeydown st1 Backspace later true
                 = if (now =? 0) || (later - now <=? timeLimit)
                   then undoLastAutolink
                          (temporarilyDisableAutoLink
                             (emit st1 EvPreventDefault))
                   else st1).
  { apply (onKeydown_backspace_at_link_end st1 later l _
             (basename (file m)) pre (makeLink m) post Hl eq_refl Hne).
    - rewrite Hed. reflexivity.
    - rewrite Hed. simpl cursor. cbn [line].
      apply getLine_setLine_same.
    - exact Hno.
    - apply linkAt_makeLink; assumption.
    - apply makeLink_not_nil.
    - rewrite Hed. reflexivity. }
  split.
  - intros Htime st2. unfold st2. rewrite Hkey.
    replace ((now =? 0) || (later - now <=? timeLimit)) with true.
    2:{ symmetry. apply orb_true_iff. destruct Htime as [H|H].
        - right. apply Z.leb_le. exact H.
        - left. apply Z.eqb_eq. exact H. }
    destruct (undoLastAutolink_pops
                (temporarilyDisableAutoLink (emit st1 EvPreventDefault))
                l _ Hl) as [Hs [He Hlog]].
    split; [|split; [|split]].
    + rewrite He. simpl editor. rewrite Hed. rewrite recordFor_cursor.
      split; [reflexivity|].
      intros n. cbn [u_line recordFor original].
      unfold getLine. simpl lines.
      destruct (Nat.eqb n (line cur)) eqn:E; [|reflexivity].
      apply Nat.eqb_eq in E. subst n. reflexivity.
    + rewrite undoLastAutolink_disabled. reflexivity.
    + rewrite Hlog. simpl log. rewrite !in_app_iff. left. right.
      left. reflexivity.
    + intros Hlen. rewrite Hs. apply Hfull. exact Hlen.
  - intros Hlate Hnz. rewrite Hkey.
    replace ((now =? 0) || (later - now <=? timeLimit)) with false;
      [reflexivity|].
    symmetry. apply orb_false_iff. split.
    + apply Z.eqb_neq. exact Hnz.
    + apply Z.leb_gt. unfold timeLimit. lia.
Qed.

Lemma backspace_after_accept_undoes_witness :
  let st := initial DEFAULT_SETTINGS sampleApp (sampleEditor "a Not here" 5) in
  sameText (editor st)
    (editor (onKeydown (acceptSuggestion st 1 noteMatch (str "Not"))
               Backspace 2 true))
  /\ onKeydown (acceptSuggestion st 1 noteMatch (str "Not"))
       Backspace 30002 true
     = acceptSuggestion st 1 noteMatch (str "Not").
Proof.
  intros st.
  assert (Hno : ~ In "["%char (str "a ")).
  { intros H. simpl in H. destruct H as [H|[H|[]]]; discriminate. }
  destruct (backspace_after_accept_undoes st 1 2 noteMatch (str "Not")
              (str "a ") (str " here") eq_refl eq_refl Hno
              ltac:(discriminate) eq_refl ltac:(discriminate))
    as [H _].
  destruct (backspace_after_accept_undoes st 1 30002 noteMatch (str "Not")
              (str "a ") (str " here") eq_refl eq_refl Hno
              ltac:(discriminate) eq_refl ltac:(discriminate))
    as [_ H'].
  split.
  - apply H. left. lia.
  - apply H'; lia.
Defined.

(** ** Nothing is missed below the cap *)

Lemma searchAliases_keeps (entries : JsMap TFile) searchKey cb acc m :
  In m acc -> In m (searchAliases entries searchKey cb acc).
Proof.
  intros H. destruct (searchAliases_ok entries searchKey cb acc)
    as [add [-> _]].
  apply in_or_app. left. exact H.
Qed.

Lemma searchAliases_finds (entries : JsMap TFile) searchKey cb acc alias f :
  In (alias, f) entries ->
  basename f <> cb -> startsWith alias searchKey = true ->
  exists m, In m (searchAliases entries searchKey cb acc) /\ file m = f.
Proof.
  intros Hin Hb Hsw. revert acc.
  induction entries as [|[a g] entries IH]; intros acc; [contradiction|].
  destruct Hin as [E|Hin].
  - injection E as -> ->. cbn [searchAliases].
    apply streq_false_iff in Hb. rewrite Hb, Hsw. cbn [negb andb].
    destruct (existsb (fun m => file_eqb (file m) f) acc) eqn:Hex.
    + apply existsb_exists in Hex. destruct Hex as [m [Hm Hf]].
      apply file_eqb_true_iff in Hf. exists m.
      split; [apply searchAliases_keeps; exact Hm | exact Hf].
    + exists {| title := alias; file := f; isAlias := true |}.
      split; [|reflexivity].
      apply searchAliases_keeps. apply in_or_app. right. left. reflexivity.
  - cbn [searchAliases]. apply IH. exact Hin.
Qed.

Lemma slice_0_all {A : Type} (l : list A) (n : Z) :
  Z.of_nat (length (slice l 0 n)) < n -> slice l 0 n = l.
Proof.
  intros H.
  assert (Hn : 0 <= n) by lia.
  rewrite slice_0_firstn in * by exact Hn.
  rewrite length_firstn in H.
  apply firstn_all2. lia.
Qed.

(** X21. When [findMatches] returns fewer than [maxSuggestions] matches,
    nothing was cut off: every entry of the title index whose key starts
    with the search key and is not the key of the current title is
    returned as a match under the basename of its file, and every entry
    of the alias index that starts with the search key and belongs to
    another file than the current one has its file among the matches. *)
Theorem findMatches_complete_below_cap (st : State)
    (typed current : jsstring) :
  let s := settings st in
  let r := findMatches st typed current in
  Z.of_nat (length r) < maxSuggestions s ->
  (forall k f, In (k, f) (noteTitles st) ->
     k <> normalize s current ->
     startsWith k (normalize s typed) = true ->
     In {| title := basename f; file := f; isAlias := false |} r)
  /\ (forall alias f, In (alias, f) (aliases st) ->
        basename f <> current ->
        startsWith alias (normalize s typed) = true ->
        exists m, In m r /\ file m = f).
Proof.
  intros s r Hlt. unfold r in *. rewrite findMatches_loops in *.
  fold s in Hlt. fold s.
  rewrite (slice_0_all _ _ Hlt). split.
  - intros k f Hin Hk Hsw. apply searchAliases_keeps.
    change {| title := basename f; file := f; isAlias := false |}
      with (titleMatch (k, f)).
    apply in_map. apply filter_In. split; [exact Hin|].
    unfold titleCond. cbn [fst]. rewrite Hsw.
    apply streq_false_iff in Hk. rewrite Hk. reflexivity.
  - intros alias f Hin Hb Hsw.
    apply searchAliases_finds with (alias := alias); assumption.
Qed.

Lemma findMatches_complete_below_cap_witness :
  let st := sampleState DEFAULT_SETTINGS
              [sampleFile "Note"; sampleFile "Nova"; sampleFile "Other"]
              noAliases "No" 2 in
  In {| title := str "Nova"; file := sampleFile "Nova"; isAlias := false |}
    (findMatches st (str "No") (str "Today")).
Proof.
  intros st.
  assert (Hlt : Z.of_nat (length (findMatches st (str "No") (str "Today")))
                < maxSuggestions (settings st))
    by (vm_compute; reflexivity).
  apply (proj1 (findMatches_complete_below_cap st (str "No") (str "Today")
                  Hlt) (str "nova") (sampleFile "Nova")).
  - vm_compute. right. left. reflexivity.
  - vm_compute. discriminate.
  - vm_compute. reflexivity.
Defined.
